(** * AIM_LightGCN (model.py): a shallow embedding and its verified properties

    The program is a PyTorch module.  Tensors of floating-point numbers are
    idealised as tensors of real numbers (exact arithmetic); shapes, index
    handling, broadcasting and the exceptions raised by the tensor library
    are modelled explicitly.

    The methods of the module are transcribed once, over an abstract way of
    handling tensors ([TensorApi]), and read at two instances:
    - by value ([Exc], tensors are mathematical values), for the values and
      shapes that the methods compute;
    - by reference ([HM], tensors live in a store and are named by
      locations), for construction, which initialises in place, and for what
      the methods leave unchanged.
    The two readings are related at the end: by reference, each method
    raises what it raises by value, or returns locations that hold what it
    returns by value.

    Where float32 differs from the reals in kind and not by a rounding
    error (a result that underflows to 0), a third reading, by value on
    float32 tensors ([float32]), stores every result of an operation in
    float32; the properties of the loss that exact arithmetic makes strict
    are stated in this reading as well. *)

From Stdlib Require Import List ZArith Reals Lra Lia Bool Arith.
Import ListNotations.

Set Implicit Arguments.

(* ===================================================================== *)
(** * Python exceptions and the error monad *)
(* ===================================================================== *)

Inductive PyError : Type :=
| TypeError | RuntimeError | IndexError | AssertionError
| AttributeError | ValueError | ZeroDivisionError.

Inductive Exc (A : Type) : Type :=
| Ok (a : A)
| Raise (e : PyError).
Arguments Ok {A} a.
Arguments Raise {A} e.

Class PyMonad (M : Type -> Type) : Type := {
  ret : forall {A : Type}, A -> M A;
  bind : forall {A B : Type}, M A -> (A -> M B) -> M B;
  raise : forall {A : Type}, PyError -> M A
}.

Declare Scope py_scope.
Delimit Scope py_scope with py.
Notation "x <- c1 ;; c2" := (bind c1 (fun x => c2))
  (at level 61, c1 at next level, right associativity) : py_scope.
Notation "' pat <- c1 ;; c2" :=
  (bind c1 (fun x => match x with pat => c2 end))
  (at level 61, pat pattern, c1 at next level, right associativity) : py_scope.
Open Scope py_scope.

#[global] Instance Exc_monad : PyMonad Exc := {
  ret := fun A a => Ok a;
  bind := fun A B m f => match m with Ok a => f a | Raise e => Raise e end;
  raise := fun A e => Raise e
}.

(** [fmap] on results. *)
Definition emap {A B : Type} (f : A -> B) (m : Exc A) : Exc B :=
  match m with Ok a => Ok (f a) | Raise e => Raise e end.

(** Map a fallible function over a list, left to right, stopping at the
    first exception. *)
Fixpoint mapE {A B : Type} (f : A -> Exc B) (l : list A) : Exc (list B) :=
  match l with
  | [] => Ok []
  | a :: l' =>
      match f a with
      | Ok b => match mapE f l' with Ok bs => Ok (b :: bs) | Raise e => Raise e end
      | Raise e => Raise e
      end
  end.

Fixpoint mapE2 {A B C : Type} (f : A -> B -> Exc C) (l : list A) (l' : list B)
  : Exc (list C) :=
  match l, l' with
  | a :: t, b :: t' =>
      match f a b with
      | Ok c => match mapE2 f t t' with Ok cs => Ok (c :: cs) | Raise e => Raise e end
      | Raise e => Raise e
      end
  | _, _ => Ok []
  end.

(** [for x in l: s = body(x, s)]. *)
Fixpoint for_each {M : Type -> Type} `{PyMonad M} {A S : Type}
  (l : list A) (body : A -> S -> M S) (s : S) : M S :=
  match l with
  | [] => ret s
  | a :: l' => s' <- body a s ;; for_each l' body s'
  end.

(** [for i in range(n): s = body(i, s)]. *)
Definition for_range {M : Type -> Type} `{PyMonad M} {S : Type}
  (n : nat) (body : nat -> S -> M S) (s : S) : M S :=
  for_each (seq 0 n) body s.

(* ===================================================================== *)
(** * Tensors and the torch operations the program uses *)
(* ===================================================================== *)

(** A float tensor of dimension 0, 1 or 2.  A matrix is the list of its
    rows; a matrix with no row does not record its number of columns. *)
Inductive Tensor : Type :=
| T0 (x : R)
| T1 (v : list R)
| T2 (m : list (list R)).

(** A 1-D [LongTensor] is a [list Z]; a 2-D one is the list of its rows. *)
Definition Long1 := list Z.
Definition Long2 := list (list Z).

(** The graph argument ([Adj]): a 2 x E edge index, or a sparse adjacency
    given by its coordinates and values. *)
Inductive Adj : Type :=
| EdgeIndex (e : Long2)
| SparseAdj (row col : Long1) (value : list R).

Definition is_sparse (a : Adj) : bool :=
  match a with EdgeIndex _ => false | SparseAdj _ _ _ => true end.

(** [to_edge_index]: the (row, col) pair of a sparse adjacency and its
    values; on an edge index, PyG raises. *)
Definition to_edge_index (a : Adj) : Exc (Long2 * list R) :=
  match a with
  | SparseAdj row col value => Ok ([row; col], value)
  | EdgeIndex _ => Raise ValueError
  end.

Module Torch.
Local Open Scope R_scope.

Definition vsum (v : list R) : R := fold_right Rplus 0 v.

Fixpoint map2 {A B C : Type} (f : A -> B -> C) (l : list A) (l' : list B) : list C :=
  match l, l' with
  | a :: t, b :: t' => f a b :: map2 f t t'
  | _, _ => []
  end.

(** Broadcasting of two 1-D operands: equal sizes combine pointwise, a
    size-1 operand is repeated, anything else is a [RuntimeError]. *)
Definition bvec (f : R -> R -> R) (u v : list R) : Exc (list R) :=
  if Nat.eqb (length u) (length v) then Ok (map2 f u v)
  else match u, v with
       | [a], _ => Ok (map (f a) v)
       | _, [b] => Ok (map (fun x => f x b) u)
       | _, _ => Raise RuntimeError
       end.

(** Broadcasting of two 2-D operands: the same rule on the row dimension,
    [bvec] inside the rows. *)
Definition brows (f : R -> R -> R) (a b : list (list R)) : Exc (list (list R)) :=
  if Nat.eqb (length a) (length b) then mapE2 (bvec f) a b
  else match a, b with
       | [r], _ => mapE (bvec f r) b
       | _, [r] => mapE (fun x => bvec f x r) a
       | _, _ => Raise RuntimeError
       end.

(** Elementwise binary operation with broadcasting; a 1-D operand facing
    a 2-D one is a single row. *)
Definition binop (f : R -> R -> R) (a b : Tensor) : Exc Tensor :=
  match a, b with
  | T0 x, T0 y => Ok (T0 (f x y))
  | T0 x, T1 v => Ok (T1 (map (f x) v))
  | T1 v, T0 y => Ok (T1 (map (fun a => f a y) v))
  | T0 x, T2 m => Ok (T2 (map (map (f x)) m))
  | T2 m, T0 y => Ok (T2 (map (map (fun a => f a y)) m))
  | T1 u, T1 v => emap T1 (bvec f u v)
  | T1 u, T2 m => emap T2 (brows f [u] m)
  | T2 m, T1 v => emap T2 (brows f m [v])
  | T2 m, T2 m' => emap T2 (brows f m m')
  end.

Definition mul := binop Rmult.   (* a * b *)
Definition add := binop Rplus.   (* a + b *)
Definition sub := binop Rminus.  (* a - b *)

Definition tmap (f : R -> R) (t : Tensor) : Tensor :=
  match t with
  | T0 x => T0 (f x)
  | T1 v => T1 (map f v)
  | T2 m => T2 (map (map f) m)
  end.

Definition entries (t : Tensor) : list R :=
  match t with
  | T0 x => [x]
  | T1 v => v
  | T2 m => concat m
  end.

(** [t * s] for a Python float [s]; [None] is not a number. *)
Definition mul_float (s : option R) (t : Tensor) : Exc Tensor :=
  match s with
  | Some s => Ok (tmap (fun x => x * s) t)
  | None => Raise TypeError
  end.

(** [s * t] for a Python float [s]. *)
Definition rmul_float (s : R) (t : Tensor) : Exc Tensor :=
  Ok (tmap (fun x => s * x) t).

(** [t / n] for a Python int [n]. *)
Definition div_int (n : nat) (t : Tensor) : Exc Tensor :=
  Ok (tmap (fun x => x / INR n) t).

(** [t + n] for a Python int [n]. *)
Definition add_int (n : Z) (t : Tensor) : Exc Tensor :=
  Ok (tmap (fun x => x + IZR n) t).

Definition neg (t : Tensor) : Exc Tensor := Ok (tmap Ropp t).

(** [t.pow(2)]. *)
Definition pow2 (t : Tensor) : Exc Tensor := Ok (tmap (fun x => x ^ 2) t).

(** [t[i]] for a non-negative Python int [i]. *)
Definition getitem_int (i : nat) (t : Tensor) : Exc Tensor :=
  match t with
  | T0 _ => Raise IndexError
  | T1 v => match nth_error v i with Some x => Ok (T0 x) | None => Raise IndexError end
  | T2 m => match nth_error m i with Some r => Ok (T1 r) | None => Raise IndexError end
  end.

(** An index into a dimension of size [n]: [-n <= i < n], negative ones
    counting from the end. *)
Definition norm_index (n : nat) (i : Z) : Exc nat :=
  if ((0 <=? i) && (i <? Z.of_nat n))%Z then Ok (Z.to_nat i)
  else if ((- Z.of_nat n <=? i) && (i <? 0))%Z then Ok (Z.to_nat (i + Z.of_nat n))
  else Raise IndexError.

Definition gather {A : Type} (l : list A) (idx : Long1) : Exc (list A) :=
  mapE (fun i => match norm_index (length l) i with
                 | Ok k => match nth_error l k with
                           | Some a => Ok a
                           | None => Raise IndexError
                           end
                 | Raise e => Raise e
                 end) idx.

(** [t[idx]] for a 1-D [LongTensor] [idx]: selection along dimension 0. *)
Definition getitem_long (idx : Long1) (t : Tensor) : Exc Tensor :=
  match t with
  | T0 _ => Raise IndexError
  | T1 v => emap T1 (gather v idx)
  | T2 m => emap T2 (gather m idx)
  end.

(** [e[i]] on a 2-D [LongTensor]. *)
Definition long_getitem_int (i : nat) (e : Long2) : Exc Long1 :=
  match nth_error e i with Some r => Ok r | None => Raise IndexError end.

(** [torch.split(t, [a, b])] along dimension 0. *)
Definition split_sizes {A : Type} (l : list A) (a b : option Z)
  : Exc (list A * list A) :=
  match a, b with
  | Some a, Some b =>
      if ((a <? 0) || (b <? 0))%Z then Raise RuntimeError
      else if (a + b =? Z.of_nat (length l))%Z
           then Ok (firstn (Z.to_nat a) l, skipn (Z.to_nat a) l)
           else Raise RuntimeError
  | _, _ => Raise TypeError
  end.

Definition split (a b : option Z) (t : Tensor) : Exc (Tensor * Tensor) :=
  match a, b with
  | Some _, Some _ =>
      match t with
      | T0 _ => Raise RuntimeError
      | T1 v => emap (fun p => (T1 (fst p), T1 (snd p))) (split_sizes v a b)
      | T2 m => emap (fun p => (T2 (fst p), T2 (snd p))) (split_sizes m a b)
      end
  | _, _ => Raise TypeError
  end.

(** Euclidean norm of a row. *)
Definition norm2 (v : list R) : R := sqrt (vsum (map (fun x => x * x) v)).

(** The [eps] of [F.normalize]: 1e-12. *)
Definition eps : R := / 1000000000000.

(** [F.normalize(t, p=2, dim=1)]: every row [v] becomes
    [v / max(norm2 v, eps)]. *)
Definition normalize_row (v : list R) : list R :=
  map (fun x => x / Rmax (norm2 v) eps) v.

Definition normalize (t : Tensor) : Exc Tensor :=
  match t with
  | T2 m => Ok (T2 (map normalize_row m))
  | _ => Raise IndexError
  end.

(** [torch.cat([a, b], dim=0)]. *)
Definition cat (a b : Tensor) : Exc Tensor :=
  match a, b with
  | T1 u, T1 v => Ok (T1 (u ++ v))
  | T2 m, T2 m' =>
      match m, m' with
      | r :: _, r' :: _ =>
          if Nat.eqb (length r) (length r') then Ok (T2 (m ++ m'))
          else Raise RuntimeError
      | _, _ => Ok (T2 (m ++ m'))
      end
  | _, _ => Raise RuntimeError
  end.

(** [t.sum(dim=-1)]. *)
Definition sum_last (t : Tensor) : Exc Tensor :=
  match t with
  | T0 x => Ok (T0 x)
  | T1 v => Ok (T0 (vsum v))
  | T2 m => Ok (T1 (map vsum m))
  end.

(** [a, b = l.chunk(2)]: chunks of size ceil(n/2).  An empty dimension
    gives two empty chunks; a dimension of size 1 gives a single chunk, and
    the unpacking into two names raises [ValueError]. *)
Definition chunk2_list {A : Type} (l : list A) : Exc (list A * list A) :=
  let n := length l in
  let sz := Nat.div (n + 1) 2 in
  if Nat.eqb n 0 then Ok ([], [])
  else if Nat.eqb n 1 then Raise ValueError
  else Ok (firstn sz l, skipn sz l).

Definition chunk2 (t : Tensor) : Exc (Tensor * Tensor) :=
  match t with
  | T0 _ => Raise RuntimeError
  | T1 v => emap (fun p => (T1 (fst p), T1 (snd p))) (chunk2_list v)
  | T2 m => emap (fun p => (T2 (fst p), T2 (snd p))) (chunk2_list m)
  end.

(** [t.size(0)]. *)
Definition size0 (t : Tensor) : Exc nat :=
  match t with
  | T0 _ => Raise IndexError
  | T1 v => Ok (length v)
  | T2 m => Ok (length m)
  end.

(** [F.logsigmoid]: log (1 / (1 + exp (-x))), elementwise. *)
Definition logsigmoid_R (x : R) : R := ln (1 / (1 + exp (- x))).
Definition logsigmoid (t : Tensor) : Exc Tensor := Ok (tmap logsigmoid_R t).

(** [t.mean()]: the mean of all entries, a 0-dim tensor.  (On an empty
    tensor torch gives nan, which the reals do not have.) *)
Definition mean (t : Tensor) : Exc Tensor :=
  Ok (T0 (vsum (entries t) / INR (length (entries t)))).

(** [t.norm(p=2)]: the 2-norm of all entries. *)
Definition norm (t : Tensor) : Exc Tensor := Ok (T0 (norm2 (entries t))).

(** [t.t()]. *)
Definition transpose (t : Tensor) : Exc Tensor :=
  match t with
  | T2 (r :: m) =>
      Ok (T2 (map (fun j => map (fun row => nth j row 0) (r :: m))
                  (seq 0 (length r))))
  | _ => Ok t
  end.

Definition dot (u v : list R) : R := vsum (map2 Rmult u v).

(** [a @ b] for 2-D operands. *)
Definition matmul (a b : Tensor) : Exc Tensor :=
  match a, b with
  | T2 m, T2 m' =>
      let k := match m' with r :: _ => length r | [] => 0%nat end in
      emap T2
        (mapE (fun row =>
                 if Nat.eqb (length row) (length m')
                 then Ok (map (fun j => dot row (map (fun r => nth j r 0) m'))
                              (seq 0 k))
                 else Raise RuntimeError) m)
  | _, _ => Raise RuntimeError
  end.

(** Position of the first maximum of a non-empty row. *)
Fixpoint argmax_from (i : nat) (best : nat) (bv : R) (l : list R) : nat :=
  match l with
  | [] => best
  | x :: l' => if Rlt_dec bv x then argmax_from (S i) i x l'
               else argmax_from (S i) best bv l'
  end.

Definition argmax (l : list R) : nat :=
  match l with
  | [] => 0%nat
  | x :: l' => argmax_from 1 0 x l'
  end.

(** The [k] largest entries of a row by repeated selection of the first
    maximum among the positions not yet taken.  Among equal entries
    [torch.topk] promises no order, and what it returns depends on its
    implementation (on a row of equal entries it need not return the first
    position); taking the first is a choice of the model, on which no
    result below depends. *)
Fixpoint topk_row (k : nat) (l : list (nat * R)) : list nat :=
  match k with
  | O => []
  | S k' =>
      let j := argmax (map snd l) in
      match nth_error l j with
      | Some (i, _) => i :: topk_row k' (firstn j l ++ skipn (S j) l)
      | None => []
      end
  end.

(** [t.topk(k, dim=-1, sorted=sorted).indices] on a 2-D tensor. *)
Definition topk_indices (k : nat) (sorted : bool) (t : Tensor) : Exc Long2 :=
  match t with
  | T2 m =>
      mapE (fun row =>
              if Nat.leb k (length row)
              then Ok (map Z.of_nat (topk_row k (combine (seq 0 (length row)) row)))
              else Raise RuntimeError) m
  | _ => Raise RuntimeError
  end.

(** [d[top.view(-1)]] viewed back in the shape of [top]. *)
Definition remap (d : Long1) (top : Long2) : Exc Long2 :=
  mapE (gather d) top.

(** What the model keeps of a tensor's shape: its dimension and, for a
    matrix, the length of every row. *)
Definition shape (t : Tensor) : nat * list nat :=
  match t with
  | T0 _ => (0%nat, [])
  | T1 v => (1%nat, [length v])
  | T2 m => (2%nat, map (@length R) m)
  end.

End Torch.

(* ===================================================================== *)
(** * How tensors are handled, and the model object *)
(* ===================================================================== *)

(** Lifting of a result into any monad of the program. *)
Definition liftE {M : Type -> Type} `{PyMonad M} {A : Type} (m : Exc A) : M A :=
  match m with Ok a => ret a | Raise e => raise e end.

(** Every tensor operation of [get_embedding], [forward], [recommend] and
    the losses is out of place: it reads its operands and returns a new
    tensor.  [T] is what the program holds of a tensor (the value itself, or
    a reference into a store).  The views that torch returns (indexing by an
    int, [split], [chunk], [t]) are new tensors here too: these methods
    never write through a view. *)
Class TensorApi (M : Type -> Type) (T : Type) : Type := {
  new1 : (Tensor -> Exc Tensor) -> T -> M T;
  new2 : (Tensor -> Tensor -> Exc Tensor) -> T -> T -> M T;
  new_pair : (Tensor -> Exc (Tensor * Tensor)%type) -> T -> M (T * T)%type;
  peek : forall {A : Type}, (Tensor -> Exc A) -> T -> M A
}.

(** The attributes of an [AIM_LightGCN] object.  [alpha] is the registered
    buffer, [embedding_weight] is [self.embedding.weight] and [beta_weight]
    is [self.beta.weight].  The layers [self.convs] are [num_layers] copies
    of the parameter-free [LGConv]. *)
Record AIM_LightGCN (T : Type) : Type := {
  num_nodes : nat;
  embedding_dim : nat;
  num_layers : nat;
  alpha : T;
  embedding_weight : T;
  beta_weight : T
}.

(** The signature of [LGConv.forward(x, edge_index, edge_weight)], a layer of
    torch_geometric and not of this repository. *)
Definition LGConv_t : Type := Tensor -> Adj -> option Tensor -> Exc Tensor.

(* ===================================================================== *)
(** * The methods of model.py *)
(* ===================================================================== *)

Section Methods.
Context {M : Type -> Type} {PM : PyMonad M} {T : Type} {Api : TensorApi M T}.
Variable LGConv : LGConv_t.

(** Lines 46-51 of [get_embedding]: the layers and their mixing. *)
Definition get_embedding_layers (self : AIM_LightGCN T)
  (edge_index : Adj) (edge_weight : option Tensor) : M T :=
  let x := embedding_weight self in
  a0 <- new1 (Torch.getitem_int 0) (alpha self) ;;
  out <- new2 Torch.mul x a0 ;;
  '(_, out) <-
    for_range (num_layers self)
      (fun i '(x, out) =>
         x <- new1 (fun t => LGConv t edge_index edge_weight) x ;;
         ai <- new1 (Torch.getitem_int (i + 1)) (alpha self) ;;
         xa <- new2 Torch.mul x ai ;;
         out <- new2 Torch.add out xa ;;
         ret (x, out))
      (x, out) ;;
  ret out.

(** [AIM_LightGCN.get_embedding]. *)
Definition get_embedding (self : AIM_LightGCN T)
  (edge_index : Adj) (edge_weight : option Tensor)
  (num_users num_items : option Z) (scaling_factor : option R) : M T :=
  out <- get_embedding_layers self edge_index edge_weight ;;
  '(user_emb, item_emb) <- new_pair (Torch.split num_users num_items) out ;;
  item_emb <- new1 Torch.normalize item_emb ;;
  item_emb <- new1 (Torch.mul_float scaling_factor) item_emb ;;
  out <- new2 Torch.cat user_emb item_emb ;;
  ret out.

(** [AIM_LightGCN.forward]. *)
Definition forward (self : AIM_LightGCN T)
  (edge_index : Adj) (edge_label_index : option Long2)
  (num_users num_items : option Z) (scaling_factor : option R)
  (edge_weight : option Tensor) : M (T * T)%type :=
  edge_label_index <-
    match edge_label_index with
    | None =>
        if is_sparse edge_index
        then '(e, _) <- liftE (to_edge_index edge_index) ;; ret e
        else match edge_index with
             | EdgeIndex e => ret e
             | SparseAdj _ _ _ => raise TypeError
             end
    | Some e => ret e
    end ;;
  out <- get_embedding self edge_index edge_weight
           num_users num_items scaling_factor ;;
  i0 <- liftE (Torch.long_getitem_int 0 edge_label_index) ;;
  out_src <- new1 (Torch.getitem_long i0) out ;;
  i1 <- liftE (Torch.long_getitem_int 1 edge_label_index) ;;
  out_dst <- new1 (Torch.getitem_long i1) out ;;
  prod <- new2 Torch.mul out_src out_dst ;;
  pos_neg_rank <- new1 Torch.sum_last prod ;;
  '(pos_rank, neg_rank) <- new_pair Torch.chunk2 pos_neg_rank ;;
  i1 <- liftE (Torch.long_getitem_int 1 edge_label_index) ;;
  '(pos_item, neg_item) <- liftE (Torch.chunk2_list i1) ;;
  bp <- new1 (Torch.getitem_long pos_item) (beta_weight self) ;;
  pos_rank <- new2 Torch.add pos_rank bp ;;
  bn <- new1 (Torch.getitem_long neg_item) (beta_weight self) ;;
  neg_rank <- new2 Torch.add neg_rank bn ;;
  ret (pos_rank, neg_rank).

(** [AIM_LightGCN.recommend].  [get_embedding] is called with
    [edge_index] and [edge_weight] only: the other three parameters take
    their default, [None]. *)
Definition recommend (self : AIM_LightGCN T)
  (edge_index : Adj) (edge_weight : option Tensor)
  (src_index dst_index : option Long1) (k : nat) (sorted : bool) : M Long2 :=
  out <- get_embedding self edge_index edge_weight None None None ;;
  out_src <- match src_index with
             | Some s => new1 (Torch.getitem_long s) out
             | None => ret out
             end ;;
  out_dst <- match dst_index with
             | Some d => new1 (Torch.getitem_long d) out
             | None => ret out
             end ;;
  dst_t <- new1 Torch.transpose out_dst ;;
  pred <- new2 Torch.matmul out_src dst_t ;;
  top_index <- peek (Torch.topk_indices k sorted) pred ;;
  top_index <- match dst_index with
               | Some d => liftE (Torch.remap d top_index)
               | None => ret top_index
               end ;;
  ret top_index.

(** [BPRLoss.forward], for a loss object built with [lambda_reg]. *)
Definition BPRLoss_forward (lambda_reg : R)
  (positives negatives : T) (parameters : option T) : M T :=
  diff <- new2 Torch.sub positives negatives ;;
  ls <- new1 Torch.logsigmoid diff ;;
  log_prob <- new1 Torch.mean ls ;;
  regularization <-
    (if Req_dec_T lambda_reg 0 then ret None
     else
       p <- match parameters with
            | Some p => ret p
            | None => raise AttributeError
            end ;;
       nrm <- new1 Torch.norm p ;;
       sq <- new1 Torch.pow2 nrm ;;
       reg <- new1 (Torch.rmul_float lambda_reg) sq ;;
       n <- peek Torch.size0 positives ;;
       reg <- new1 (Torch.div_int n) reg ;;
       ret (Some reg)) ;;
  nl <- new1 Torch.neg log_prob ;;
  match regularization with
  | None => new1 (Torch.add_int 0) nl
  | Some reg => new2 Torch.add nl reg
  end.

(** [AIM_LightGCN.recommendation_loss]. *)
Definition recommendation_loss (self : AIM_LightGCN T)
  (pos_edge_rank neg_edge_rank : T) (node_id : option Long1)
  (lambda_reg : R) : M T :=
  let emb := embedding_weight self in
  emb <- match node_id with
         | None => ret emb
         | Some idx => new1 (Torch.getitem_long idx) emb
         end ;;
  BPRLoss_forward lambda_reg pos_edge_rank neg_edge_rank (Some emb).

End Methods.

(* ===================================================================== *)
(** * Tensors by value *)
(* ===================================================================== *)

#[global] Instance by_value : TensorApi Exc Tensor := {
  new1 := fun f x => f x;
  new2 := fun f x y => f x y;
  new_pair := fun f x => f x;
  peek := fun A f x => f x
}.

(* ===================================================================== *)
(** * Tensors by reference: the store *)
(* ===================================================================== *)

Definition loc := nat.

(** The store: the tensors allocated so far, and the state of the random
    number generator. *)
Record Store : Type := { cells : list Tensor; rng : nat }.

Definition HM (A : Type) : Type := Store -> Exc A * Store.

#[global] Instance HM_monad : PyMonad HM := {
  ret := fun A a s => (Ok a, s);
  bind := fun A B m f s =>
            match m s with
            | (Ok a, s') => f a s'
            | (Raise e, s') => (Raise e, s')
            end;
  raise := fun A e s => (Raise e, s)
}.

Definition alloc (t : Tensor) : HM loc :=
  fun s => (Ok (length (cells s)),
            {| cells := cells s ++ [t]; rng := rng s |}).

Definition read (l : loc) : HM Tensor :=
  fun s => match nth_error (cells s) l with
           | Some t => (Ok t, s)
           | None => (Raise RuntimeError, s)
           end.

(** In-place update of the tensor at [l]. *)
Definition write (l : loc) (t : Tensor) : HM unit :=
  fun s => if Nat.ltb l (length (cells s))
           then (Ok tt, {| cells := firstn l (cells s) ++ t :: skipn (S l) (cells s);
                           rng := rng s |})
           else (Raise RuntimeError, s).

Definition next_rng : HM nat :=
  fun s => (Ok (rng s), {| cells := cells s; rng := S (rng s) |}).

#[global] Instance by_reference : TensorApi HM loc := {
  new1 := fun f x => t <- read x ;; v <- liftE (f t) ;; alloc v;
  new2 := fun f x y => t <- read x ;; u <- read y ;; v <- liftE (f t u) ;; alloc v;
  new_pair := fun f x =>
                t <- read x ;; p <- liftE (f t) ;;
                a <- alloc (fst p) ;; b <- alloc (snd p) ;; ret (a, b);
  peek := fun A f x => t <- read x ;; liftE (f t)
}.

(* ===================================================================== *)
(** * Construction and re-initialisation (in place, by reference) *)
(* ===================================================================== *)

(** The [alpha] argument of [__init__]: absent, a float, or a tensor. *)
Inductive AlphaArg : Type :=
| AlphaNone
| AlphaFloat (a : R)
| AlphaTensor (t : loc).

Section Construction.
Local Open Scope R_scope.

(** The random draws of the initialisers, by generator state, row and
    column. *)
Variables normal_sample xavier_sample : nat -> nat -> nat -> R.

Definition sample_matrix (g : nat -> nat -> nat -> R) (seed rows cols : nat)
  : list (list R) :=
  map (fun i => map (fun j => g seed i j) (seq 0 cols)) (seq 0 rows).

(** [Embedding(n, d)]: a new n x d table, normally distributed. *)
Definition Embedding (n d : nat) : HM loc :=
  seed <- next_rng ;;
  alloc (T2 (sample_matrix normal_sample seed n d)).

(** [torch.nn.init.xavier_uniform_(w)], in place.  [fan_in] is the number
    of columns of [w] (which a matrix without rows does not record) and
    [fan_out] its number of rows; the bound of the distribution divides by
    [fan_in + fan_out]. *)
Definition xavier_uniform_ (fan_in : nat) (w : loc) : HM unit :=
  t <- read w ;;
  match t with
  | T2 m =>
      let fan_out := length m in
      if Nat.eqb (fan_in + fan_out) 0 then raise ZeroDivisionError
      else seed <- next_rng ;;
           write w (T2 (sample_matrix xavier_sample seed fan_out fan_in))
  | _ => raise ValueError
  end.

(** [AIM_LightGCN.reset_parameters]; [LGConv.reset_parameters] does nothing. *)
Definition reset_parameters (self : AIM_LightGCN loc) : HM unit :=
  _ <- xavier_uniform_ (embedding_dim self) (embedding_weight self) ;;
  _ <- xavier_uniform_ 1 (beta_weight self) ;;
  for_range (num_layers self) (fun _ u => ret u) tt.

(** [AIM_LightGCN.__init__]. *)
Definition AIM_LightGCN_init (num_nodes embedding_dim num_layers : nat)
  (alpha : AlphaArg) : HM (AIM_LightGCN loc) :=
  let alpha :=
    match alpha with
    | AlphaNone => AlphaFloat (1 / INR (num_layers + 1))
    | _ => alpha
    end in
  alpha <-
    match alpha with
    | AlphaTensor t =>
        n <- peek Torch.size0 t ;;
        if Nat.eqb n (num_layers + 1) then ret t else raise AssertionError
    | AlphaFloat a => alloc (T1 (repeat a (num_layers + 1)))
    | AlphaNone => raise TypeError
    end ;;
  embedding <- Embedding num_nodes embedding_dim ;;
  beta <- Embedding num_nodes 1 ;;
  let self := {| num_nodes := num_nodes; embedding_dim := embedding_dim;
                 num_layers := num_layers; alpha := alpha;
                 embedding_weight := embedding; beta_weight := beta |} in
  _ <- reset_parameters self ;;
  ret self.

(** The two halves of [__init__]: the choice of [alpha], then the tables. *)
Definition init_alpha (L : nat) (alpha : AlphaArg) : HM loc :=
  let alpha :=
    match alpha with
    | AlphaNone => AlphaFloat (1 / INR (L + 1))
    | _ => alpha
    end in
  match alpha with
  | AlphaTensor t =>
      n <- peek Torch.size0 t ;;
      if Nat.eqb n (L + 1) then ret t else raise AssertionError
  | AlphaFloat a => alloc (T1 (repeat a (L + 1)))
  | AlphaNone => raise TypeError
  end.

Definition init_tables (nn d L : nat) (a : loc) : HM (AIM_LightGCN loc) :=
  embedding <- Embedding nn d ;;
  beta <- Embedding nn 1 ;;
  let self := {| num_nodes := nn; embedding_dim := d; num_layers := L;
                 alpha := a; embedding_weight := embedding;
                 beta_weight := beta |} in
  _ <- reset_parameters self ;;
  ret self.

End Construction.

(* ===================================================================== *)
(** * The propagation layer of the specification *)
(* ===================================================================== *)

Module Propagation.
Local Open Scope R_scope.

(** The weighted edges [(i, j, w)] of a graph: node [i] receives [w * x[j]]. *)
Definition edges_of (g : Adj) (w : option Tensor) : Exc (list (Z * Z * R)) :=
  match g with
  | EdgeIndex [src; dst] =>
      if Nat.eqb (length src) (length dst) then
        match w with
        | None => Ok (Torch.map2 (fun s d => (d, s, 1)) src dst)
        | Some (T1 ws) =>
            if Nat.eqb (length ws) (length src)
            then Ok (Torch.map2 (fun sd x => (snd sd, fst sd, x)) (combine src dst) ws)
            else Raise RuntimeError
        | Some _ => Raise RuntimeError
        end
      else Raise RuntimeError
  | EdgeIndex _ => Raise RuntimeError
  | SparseAdj row col value =>
      if Nat.eqb (length row) (length col) && Nat.eqb (length value) (length row)
      then Ok (Torch.map2 (fun rc x => (fst rc, snd rc, x)) (combine row col) value)
      else Raise RuntimeError
  end.

Definition in_range (n : nat) (e : Z * Z * R) : bool :=
  let '(i, j, _) := e in
  ((0 <=? i) && (i <? Z.of_nat n) && (0 <=? j) && (j <? Z.of_nat n))%Z.

(** Modelled from the spec: the layer [LGConv] is a class of torch_geometric
    and not of this repository; section 4.1 gives its contract,
    [out[i] = sum over the neighbours j of i of w(i,j) * in[j]], with
    [w(i,j) = 1] when no weights are supplied, the result having the shape
    of the input. *)
Definition propagate : LGConv_t :=
  fun x g w =>
    match x with
    | T2 m =>
        match edges_of g w with
        | Ok es =>
            if forallb (in_range (length m)) es then
              Ok (T2 (map (fun ir =>
                             map (fun k =>
                                    Torch.vsum
                                      (map (fun e : Z * Z * R =>
                                              let '(i, j, wt) := e in
                                              if (i =? Z.of_nat (fst ir))%Z
                                              then wt * nth k (nth (Z.to_nat j) m []) 0
                                              else 0) es))
                                 (seq 0 (length (snd ir))))
                          (combine (seq 0 (length m)) m)))
            else Raise IndexError
        | Raise e => Raise e
        end
    | _ => Raise RuntimeError
    end.

End Propagation.

(* ===================================================================== *)
(** * Well-formed models and the contract of the layer *)
(* ===================================================================== *)

(** The model as [__init__] builds it: the tables have one row per node,
    [alpha] has one coefficient per hop. *)
Definition wf_model (self : AIM_LightGCN Tensor) : Prop :=
  (exists E, embedding_weight self = T2 E /\ length E = num_nodes self /\
             Forall (fun r => length r = embedding_dim self) E) /\
  (exists B, beta_weight self = T2 B /\ length B = num_nodes self /\
             Forall (fun r => length r = 1%nat) B) /\
  (exists a, alpha self = T1 a /\ length a = (num_layers self + 1)%nat).

(** The contract of the propagation layer on shapes. *)
Definition shape_preserving (conv : LGConv_t) : Prop :=
  forall x g w y, conv x g w = Ok y -> Torch.shape y = Torch.shape x.

(** Entry [(i, j)] of a 2-dimensional tensor. *)
Definition entry (t : Tensor) (i j : nat) : option R :=
  match t with
  | T2 m => match nth_error m i with
            | Some r => nth_error r j
            | None => None
            end
  | _ => None
  end.

(* ===================================================================== *)
(** * A small instance: two users, two items, one layer *)
(* ===================================================================== *)

Module Demo.
Local Open Scope R_scope.

Definition table : list (list R) := [[1; 0]; [0; 1]; [3; 4]; [0; 2]].
Definition bias : list (list R) := [[0]; [0]; [1]; [2]].

Definition model : AIM_LightGCN Tensor :=
  {| num_nodes := 4; embedding_dim := 2; num_layers := 1;
     alpha := T1 [1 / 2; 1 / 2];
     embedding_weight := T2 table; beta_weight := T2 bias |}.

(** The symmetric graph with edges 0-2 and 1-3.  Every node has degree 1,
    so that the symmetric normalisation of [LGConv] leaves every edge
    weight at 1: on this graph the layer is the plain sum over the
    neighbours, with or without normalisation. *)
Definition graph : Adj := EdgeIndex [[0; 2; 1; 3]; [2; 0; 3; 1]]%Z.

(** Positive edges (0,2), (1,3), then negative edges (0,3), (1,2). *)
Definition labels : Long2 := [[0; 1; 0; 1]; [2; 3; 3; 2]]%Z.

End Demo.

(** An item that no edge reaches and whose embedding row is zero. *)
Module ColdItem.
Local Open Scope R_scope.

Definition model : AIM_LightGCN Tensor :=
  {| num_nodes := 3; embedding_dim := 2; num_layers := 1;
     alpha := T1 [1 / 2; 1 / 2];
     embedding_weight := T2 [[1; 0]; [0; 1]; [0; 0]];
     beta_weight := T2 [[0]; [0]; [0]] |}.

(** One user (node 0), two items (nodes 1 and 2), the edge 0-1 (degrees
    1, 1 and 0: the layer is again the plain sum over the neighbours). *)
Definition graph : Adj := EdgeIndex [[0; 1]; [1; 0]]%Z.

End ColdItem.

(* ===================================================================== *)
(** * The loss as the specification writes it *)
(* ===================================================================== *)

Module LossSpec.
Local Open Scope R_scope.

Definition sigmoid (x : R) : R := 1 / (1 + exp (- x)).

Definition mean (v : list R) : R := Torch.vsum v / INR (length v).

(** [-mean(log(sigmoid(pos_rank - neg_rank)))]. *)
Definition bpr (pos neg : list R) : R :=
  - mean (map (fun d => ln (sigmoid d)) (Torch.map2 Rminus pos neg)).

(** [lambda_reg * ||emb||_2^2 / len(pos_rank)]. *)
Definition reg (lambda_reg : R) (emb : Tensor) (n : nat) : R :=
  lambda_reg * Torch.norm2 (Torch.entries emb) ^ 2 / INR n.

(** [pos_rank] with its entry [i] increased by [d]. *)
Fixpoint bump (i : nat) (d : R) (p : list R) : list R :=
  match p, i with
  | [], _ => []
  | x :: p', O => (x + d) :: p'
  | x :: p', S i' => x :: bump i' d p'
  end.

End LossSpec.

(* ===================================================================== *)
(** * Reading the store *)
(* ===================================================================== *)

(** The tensor at a location. *)
Definition lookup (s : Store) (l : loc) : option Tensor := nth_error (cells s) l.

(** What the store holds of a model: its embedding table, its bias table
    and its alpha vector. *)
Definition model_state (s : Store) (self : AIM_LightGCN loc)
  : option Tensor * option Tensor * option Tensor :=
  (lookup s (embedding_weight self), lookup s (beta_weight self),
   lookup s (alpha self)).

(** The three tensors of the model exist in the store. *)
Definition allocated (s : Store) (self : AIM_LightGCN loc) : Prop :=
  (embedding_weight self < length (cells s))%nat /\
  (beta_weight self < length (cells s))%nat /\
  (alpha self < length (cells s))%nat.

(** [s'] is [s] with new tensors allocated, and nothing else changed. *)
Definition extends (s s' : Store) : Prop :=
  (exists new, cells s' = cells s ++ new) /\ rng s' = rng s.

(** A computation that only allocates. *)
Definition allocates_only {A : Type} (m : HM A) : Prop :=
  forall s, extends s (snd (m s)).

(** The demo model, by reference. *)
Module DemoRef.
Local Open Scope R_scope.

Definition store : Store :=
  {| cells := [T2 Demo.table; T2 Demo.bias; T1 [1 / 2; 1 / 2];
               T1 [2; 1]; T1 [0; 0]];
     rng := 0 |}.

Definition model : AIM_LightGCN loc :=
  {| num_nodes := 4; embedding_dim := 2; num_layers := 1;
     alpha := 2%nat; embedding_weight := 0%nat; beta_weight := 1%nat |}.

End DemoRef.

(** A store holding one alpha vector of three coefficients, and stand-ins
    for the random draws of the initialisers. *)
Module InitDemo.
Local Open Scope R_scope.

Definition store : Store := {| cells := [T1 [1 / 2; 3 / 10; 1 / 5]]; rng := 0 |}.
Definition normal_sample (seed i j : nat) : R := INR (seed + i + j).
Definition xavier_sample (seed i j : nat) : R := INR (seed + i * j) / 10.

End InitDemo.

(* ===================================================================== *)
(** * The two readings of the methods, related *)
(* ===================================================================== *)

(** Location [l] holds the tensor [t]. *)
Definition holds (s : Store) (l : loc) (t : Tensor) : Prop := lookup s l = Some t.

Definition holds2 (s : Store) (p : loc * loc) (q : Tensor * Tensor) : Prop :=
  holds s (fst p) (fst q) /\ holds s (snd p) (snd q).

Definition holds_opt (s : Store) (r : option loc) (r' : option Tensor) : Prop :=
  match r, r' with
  | Some x, Some x' => holds s x x'
  | None, None => True
  | _, _ => False
  end.

(** Results that are not tensors are the same in both readings. *)
Definition same {A : Type} (_ : Store) (a b : A) : Prop := a = b.

(** The run of [m] from [s] only allocates, and it raises what [v] raises
    or returns something related by [Rel] to what [v] returns. *)
Definition refines {A B : Type} (Rel : Store -> A -> B -> Prop)
  (s : Store) (m : HM A) (v : Exc B) : Prop :=
  match v with
  | Ok b => exists a s', m s = (Ok a, s') /\ extends s s' /\ Rel s' a b
  | Raise e => exists s', m s = (Raise e, s') /\ extends s s'
  end.

(** A model by reference whose tensors are those of a model by value. *)
Definition model_holds (s : Store)
  (h : AIM_LightGCN loc) (v : AIM_LightGCN Tensor) : Prop :=
  num_layers h = num_layers v /\
  holds s (alpha h) (alpha v) /\
  holds s (embedding_weight h) (embedding_weight v) /\
  holds s (beta_weight h) (beta_weight v).

(** A relation between the two readings that allocation preserves. *)
Definition stable {A B : Type} (Rel : Store -> A -> B -> Prop) : Prop :=
  forall s s' a b, extends s s' -> Rel s a b -> Rel s' a b.

(** The store after one allocation. *)
Definition push (s : Store) (t : Tensor) : Store :=
  {| cells := cells s ++ [t]; rng := rng s |}.

(** The loop of [get_embedding]: the relation it keeps. *)
Definition loop_rel (h : AIM_LightGCN loc) (v : AIM_LightGCN Tensor)
  (s : Store) (p : loc * loc) (q : Tensor * Tensor) : Prop :=
  model_holds s h v /\ holds2 s p q.

(* ===================================================================== *)
(** * The other methods of model.py *)
(* ===================================================================== *)

Module TorchLoss.
Local Open Scope R_scope.

(** The logistic function of [BCEWithLogitsLoss]. *)
Definition sigmoid_R (x : R) : R := 1 / (1 + exp (- x)).

(** One term of the binary cross entropy on a logit [x] and a target [y]:
    [- (y * log (sigmoid x) + (1 - y) * log (1 - sigmoid x))]. *)
Definition bce_entry (x y : R) : R :=
  - (y * ln (sigmoid_R x) + (1 - y) * ln (1 - sigmoid_R x)).

Fixpoint nat_list_eqb (l l' : list nat) : bool :=
  match l, l' with
  | [], [] => true
  | a :: t, b :: t' => Nat.eqb a b && nat_list_eqb t t'
  | _, _ => false
  end.

(** [input.size() == target.size()]. *)
Definition same_size (a b : Tensor) : bool :=
  Nat.eqb (fst (Torch.shape a)) (fst (Torch.shape b))
  && nat_list_eqb (snd (Torch.shape a)) (snd (Torch.shape b)).

(** [torch.nn.BCEWithLogitsLoss()(input, target)], built with no keyword
    argument: the mean of [bce_entry] over the entries; a target of
    another size is a [ValueError]. *)
Definition bce_with_logits (input target : Tensor) : Exc Tensor :=
  if same_size input target
  then Ok (T0 (Torch.vsum (Torch.map2 bce_entry (Torch.entries input)
                                       (Torch.entries target))
               / INR (length (Torch.entries input))))
  else Raise ValueError.

(** [t.to(dtype)] between float types: the same entries. *)
Definition to_dtype (t : Tensor) : Exc Tensor := Ok t.

End TorchLoss.

(** A value of type [OptTensor] where [torch.split] expects a size.  The
    sizes of [Torch.split] are ints, [None] standing for what is not an
    int: [None] itself, and a float tensor as well. *)
Definition opt_tensor_as_size (w : option Tensor) : option Z :=
  match w with
  | Some _ => None
  | None => None
  end.

Section OtherMethods.
Context {M : Type -> Type} {PM : PyMonad M} {T : Type} {Api : TensorApi M T}.
Variable LGConv : LGConv_t.

(** [AIM_LightGCN.predict_link].  The call [self(edge_index,
    edge_label_index, edge_weight)] passes its third argument by position:
    it is the parameter [num_users] of [forward], the other parameters
    keeping their default [None].  What [forward] returns is a tuple, and
    a tuple has no method [sigmoid]: the attribute lookup raises before
    [prob] is looked at. *)
Definition predict_link (self : AIM_LightGCN T)
  (edge_index : Adj) (edge_label_index : option Long2)
  (edge_weight : option Tensor) (prob : bool) : M T :=
  _ <- forward LGConv self edge_index edge_label_index
         (opt_tensor_as_size edge_weight) None None None ;;
  raise AttributeError.

(** [AIM_LightGCN.link_pred_loss], without keyword arguments. *)
Definition link_pred_loss (self : AIM_LightGCN T) (pred edge_label : T) : M T :=
  target <- new1 TorchLoss.to_dtype edge_label ;;
  new2 TorchLoss.bce_with_logits pred target.

End OtherMethods.

(** An index that selects a position of a dimension of size [n]: from
    [-n] to [n - 1]. *)
Definition index_in_range (n : nat) (i : Z) : Prop :=
  (- Z.of_nat n <= i < Z.of_nat n)%Z.

(** A negative index, written as the position it selects. *)
Definition wrap_index (n : nat) (i : Z) : Z :=
  if (i <? 0)%Z then (i + Z.of_nat n)%Z else i.

(** A computation whose result, when it returns, is a tensor that did not
    exist before. *)
Definition returns_new (m : HM loc) : Prop :=
  forall s l s', m s = (Ok l, s') -> (length (cells s) <= l)%nat.

(** A computation of two tensors whose results, when it returns, are two
    different tensors that did not exist before. *)
Definition returns_new_pair (m : HM (loc * loc)) : Prop :=
  forall s p q s', m s = (Ok (p, q), s') ->
                   (length (cells s) <= p)%nat /\ (p < q)%nat.

(* ===================================================================== *)
(** * The float32 of the tensors *)
(* ===================================================================== *)

(** The tensors of the model are float32 tensors (the default type of the
    parameters of [Embedding]).  The definitions above compute on them with
    exact reals.  This section adds what float32 does at the two ends of
    its range, where it differs from the reals in kind and not by a
    rounding error. *)
Module Float32.
Local Open Scope R_scope.

(** Half of the smallest positive float32, which is 2^-149. *)
Definition tiny : R := / 2 ^ 150.

(** The float32 that stores a real result, as far as underflow goes: a
    result of magnitude at most [tiny] is stored as 0.  The rounding of a
    larger result to 24 significant bits is left out (it is kept as the
    real it is), and so are the infinities of overflow. *)
Definition round (x : R) : R := if Rle_dec (Rabs x) tiny then 0 else x.

(** Magnitudes that are far from both ends of the float32 range: float32
    squares them, and multiplies and divides them by one another, without
    overflow and without underflow. *)
Definition safe (x : R) : Prop := / 2 ^ 63 <= x <= 2 ^ 63.

(** [F.logsigmoid(positives - negatives).mean()] with every tensor stored
    in float32. *)
Definition log_prob (pos neg : list R) : R :=
  let ls := map round (map Torch.logsigmoid_R
                         (map round (Torch.map2 Rminus pos neg))) in
  round (Torch.vsum ls / INR (length ls)).

(** [lambda_reg * parameters.norm(p=2).pow(2) / n] with every tensor
    stored in float32. *)
Definition reg (lambda_reg : R) (emb : Tensor) (n : nat) : R :=
  round (round (lambda_reg
                * round (round (Torch.norm2 (Torch.entries emb)) ^ 2))
         / INR n).

End Float32.

(** The reading of the methods on float32 tensors by value: every tensor
    that an operation creates is stored in float32.  What an operation
    computes on the way to its result (the exponential under
    [F.logsigmoid], the squares under a norm) is not stored, and is exact
    here. *)
Definition float32 : TensorApi Exc Tensor := {|
  new1 := fun f x => t <- f x ;; ret (Torch.tmap Float32.round t);
  new2 := fun f x y => t <- f x y ;; ret (Torch.tmap Float32.round t);
  new_pair := fun f x =>
                p <- f x ;;
                ret (Torch.tmap Float32.round (fst p),
                     Torch.tmap Float32.round (snd p));
  peek := fun A f x => f x
|}.

Unset Implicit Arguments.

(* ===================================================================== *)
(** * Lists and results *)
(* ===================================================================== *)

Lemma mapE_Forall2 {A B : Type} (f : A -> Exc B) (l : list A) (l' : list B) :
  mapE f l = Ok l' <-> Forall2 (fun a b => f a = Ok b) l l'.
Proof.
  revert l'. induction l as [|a l IH]; intros l'; simpl.
  - split; intros H.
    + injection H as <-. constructor.
    + inversion H. reflexivity.
  - destruct (f a) as [b|e] eqn:Ef.
    + destruct (mapE f l) as [bs|e] eqn:Em.
      * split; intros H.
        -- injection H as <-. constructor; [exact Ef | now apply IH].
        -- inversion H as [|? b' ? bs' Hb Hbs]; subst.
           apply IH in Hbs. congruence.
      * split; intros H; [discriminate|].
        inversion H as [|? b' ? bs' Hb Hbs]; subst.
        apply IH in Hbs. discriminate.
    + split; intros H; [discriminate|].
      inversion H; subst. congruence.
Qed.

Lemma mapE_length {A B : Type} (f : A -> Exc B) (l : list A) (l' : list B) :
  mapE f l = Ok l' -> length l' = length l.
Proof.
  intros H. apply mapE_Forall2 in H.
  symmetry. eapply Forall2_length; eassumption.
Qed.

Lemma mapE_total {A B : Type} (f : A -> Exc B) (g : A -> B) (l : list A) :
  (forall a, In a l -> f a = Ok (g a)) -> mapE f l = Ok (map g l).
Proof.
  induction l as [|a l IH]; intros H; simpl; [reflexivity|].
  rewrite (H a (or_introl eq_refl)), IH; [reflexivity|].
  intros b Hb. apply H. now right.
Qed.

Lemma map2_length {A B C : Type} (f : A -> B -> C) (l : list A) (l' : list B) :
  length l = length l' -> length (Torch.map2 f l l') = length l.
Proof.
  revert l'. induction l as [|a l IH]; intros [|b l'] H; simpl in *;
    try discriminate; auto.
Qed.

(* ===================================================================== *)
(** * Shapes through the tensor operations *)
(* ===================================================================== *)

Module TorchFacts.
Import Torch.
Local Open Scope R_scope.

Lemma bvec_same (f : R -> R -> R) (u v : list R) :
  length u = length v -> bvec f u v = Ok (map2 f u v).
Proof. intros H. unfold bvec. rewrite H, Nat.eqb_refl. reflexivity. Qed.

Lemma mapE2_bvec_same (f : R -> R -> R) (a b : list (list R)) :
  map (@length R) a = map (@length R) b ->
  mapE2 (bvec f) a b = Ok (map2 (map2 f) a b).
Proof.
  revert b. induction a as [|u a IH]; intros [|v b] H; simpl in *;
    try discriminate; [reflexivity|].
  injection H as Hl Hr.
  rewrite (bvec_same f u v Hl), (IH b Hr). reflexivity.
Qed.

Lemma map2_map2_shape (f : R -> R -> R) (a b : list (list R)) :
  map (@length R) a = map (@length R) b ->
  map (@length R) (map2 (map2 f) a b) = map (@length R) a.
Proof.
  revert b. induction a as [|u a IH]; intros [|v b] H; simpl in *;
    try discriminate; [reflexivity|].
  injection H as Hl Hr.
  rewrite (map2_length f u v Hl), (IH b Hr). reflexivity.
Qed.

Lemma brows_same (f : R -> R -> R) (a b : list (list R)) :
  map (@length R) a = map (@length R) b ->
  brows f a b = Ok (map2 (map2 f) a b).
Proof.
  intros H. unfold brows.
  assert (Hl : length a = length b).
  { rewrite <- (length_map (@length R) a), H. apply length_map. }
  rewrite Hl, Nat.eqb_refl. now apply mapE2_bvec_same.
Qed.

(** Two matrices of the same shape combine entry by entry. *)
Lemma binop_same_shape (f : R -> R -> R) (a b : list (list R)) :
  map (@length R) a = map (@length R) b ->
  binop f (T2 a) (T2 b) = Ok (T2 (map2 (map2 f) a b)).
Proof. intros H. simpl. rewrite (brows_same f a b H). reflexivity. Qed.

Lemma tmap_shape (f : R -> R) (t : Tensor) : shape (tmap f t) = shape t.
Proof.
  destruct t as [x|v|m]; simpl; try reflexivity.
  - now rewrite length_map.
  - f_equal. rewrite map_map. apply map_ext. intros r. apply length_map.
Qed.

Lemma shape_T2_inv (t : Tensor) (m : list (list R)) :
  shape t = shape (T2 m) -> exists m', t = T2 m' /\ map (@length R) m' = map (@length R) m.
Proof.
  destruct t as [x|v|m']; simpl; intros H; try discriminate.
  injection H as H. eauto.
Qed.

Lemma gather_Ok {A : Type} (l : list A) (idx : Long1) (r : list A) :
  gather l idx = Ok r -> length r = length idx /\ Forall (fun a => In a l) r.
Proof.
  unfold gather. intros H. apply mapE_Forall2 in H.
  split; [symmetry; eapply Forall2_length; eassumption|].
  induction H as [|i a idx r Hi _ IH]; constructor; [|exact IH].
  destruct (norm_index (length l) i) as [k|]; [|discriminate].
  destruct (nth_error l k) as [a'|] eqn:E; [|discriminate].
  injection Hi as <-. eapply nth_error_In; eassumption.
Qed.

Lemma chunk2_list_even {A : Type} (l : list A) (n : nat) :
  length l = (2 * n)%nat -> chunk2_list l = Ok (firstn n l, skipn n l).
Proof.
  intros H. unfold chunk2_list. rewrite H.
  destruct n as [|n].
  - destruct l; [reflexivity | discriminate].
  - replace (2 * S n =? 0)%nat with false by (symmetry; apply Nat.eqb_neq; lia).
    replace (2 * S n =? 1)%nat with false by (symmetry; apply Nat.eqb_neq; lia).
    replace ((2 * S n + 1) / 2)%nat with (S n); [reflexivity|].
    apply Nat.div_unique with (r := 1%nat); lia.
Qed.

Lemma map_vsum_map2 (S D : list (list R)) :
  map vsum (map2 (map2 Rmult) S D) = map2 dot S D.
Proof.
  revert D. induction S as [|u S IH]; intros [|v D]; simpl; try reflexivity.
  now rewrite IH.
Qed.

(** A vector of [n] scores plus an [n x 1] column: the sum is broadcast to
    an [n x n] matrix, whose row [i] is the whole vector shifted by the
    [i]-th entry of the column. *)
Lemma add_vector_column (ps : list R) (Bp : list (list R)) :
  Forall (fun r => length r = 1%nat) Bp -> length Bp = length ps ->
  add (T1 ps) (T2 Bp) =
  Ok (T2 (map (fun r => map (fun x => x + hd 0 r) ps) Bp)).
Proof.
  intros Hcol Hlen. unfold add. simpl. unfold brows. simpl length.
  destruct Bp as [|r Bp]; [reflexivity|].
  destruct Bp as [|r' Bp].
  - simpl. inversion Hcol as [|? ? Hr _]; subst.
    destruct r as [|b [|? ?]]; try discriminate.
    destruct ps as [|p [|? ?]]; try discriminate.
    reflexivity.
  - simpl Nat.eqb. cbv iota.
    rewrite (mapE_total (bvec Rplus ps) (fun r => map (fun x => x + hd 0 r) ps));
      [reflexivity|].
    intros c Hc. rewrite Forall_forall in Hcol. specialize (Hcol c Hc).
    destruct c as [|b [|? ?]]; try discriminate.
    unfold bvec. simpl length in *.
    destruct ps as [|p [|p' ps]]; try discriminate.
    reflexivity.
Qed.

End TorchFacts.

(* ===================================================================== *)
(** * The methods by value *)
(* ===================================================================== *)

(** A loop invariant for [for_each] in the error monad. *)
Lemma for_each_invariant {A S : Type} (Inv : S -> Prop)
  (body : A -> S -> Exc S) (l : list A) :
  (forall a s s', In a l -> Inv s -> body a s = Ok s' -> Inv s') ->
  forall s s', Inv s -> for_each l body s = Ok s' -> Inv s'.
Proof.
  induction l as [|a l IH]; intros Hb s s' Hs H; simpl in H.
  - injection H as <-. exact Hs.
  - destruct (body a s) as [s1|e] eqn:E; [|discriminate].
    apply (IH (fun a0 t t' Ha => Hb a0 t t' (or_intror Ha)) s1 s'); [|exact H].
    eapply Hb; [left; reflexivity | exact Hs | exact E].
Qed.

(** Unfolding of the monad and of the tensor interface at the by-value
    instance, leaving the tensor operations folded. *)
Ltac by_value_in H :=
  cbn [bind ret raise Exc_monad new1 new2 new_pair peek by_value liftE] in H.
Ltac by_value :=
  cbn [bind ret raise Exc_monad new1 new2 new_pair peek by_value liftE].

(** One step of a by-value run that is known to succeed. *)
Ltac exc_step H x E :=
  match type of H with
  | match ?X with Ok _ => _ | Raise _ => _ end = Ok _ =>
      destruct X as [x|] eqn:E; [|discriminate H]
  end.

Section ByValue.
Import Torch TorchFacts.
Variable LGConv : LGConv_t.

Lemma mul_scalar_shape (x a y : Tensor) (m : list (list R)) (al : list R) (i : nat) :
  shape x = shape (T2 m) ->
  getitem_int i (T1 al) = Ok a ->
  mul x a = Ok y ->
  shape y = shape (T2 m).
Proof.
  intros Hx Ha Hy.
  destruct (shape_T2_inv x _ Hx) as (m' & -> & Hm').
  simpl in Ha. destruct (nth_error al i) as [c|]; [|discriminate].
  injection Ha as <-. simpl in Hy. injection Hy as <-.
  rewrite <- Hx. apply (tmap_shape (fun a => (a * c)%R) (T2 m')).
Qed.

Lemma add_same_shape (x y z : Tensor) (m : list (list R)) :
  shape x = shape (T2 m) -> shape y = shape (T2 m) ->
  add x y = Ok z -> shape z = shape (T2 m).
Proof.
  intros Hx Hy Hz.
  destruct (shape_T2_inv x _ Hx) as (mx & -> & Hmx).
  destruct (shape_T2_inv y _ Hy) as (my & -> & Hmy).
  unfold add in Hz. rewrite binop_same_shape in Hz by congruence.
  injection Hz as <-. simpl. f_equal.
  rewrite map2_map2_shape by congruence. exact Hmx.
Qed.

(** Lines 46-51 return a table of the shape of the embedding table. *)
Lemma get_embedding_layers_shape (self : AIM_LightGCN Tensor) g w out :
  shape_preserving LGConv -> wf_model self ->
  get_embedding_layers LGConv self g w = Ok out ->
  shape out = shape (embedding_weight self).
Proof.
  intros Hconv ((E & HE & HEn & HEd) & _ & (al & Hal & Hall)) H.
  unfold get_embedding_layers in H. rewrite HE, Hal in H. by_value_in H.
  exc_step H a0 Ea0. exc_step H out0 Eo. exc_step H p Eloop.
  destruct p as [x1 out1]. injection H as <-. rewrite HE.
  pose (Inv := fun p : Tensor * Tensor =>
                 shape (fst p) = shape (T2 E) /\ shape (snd p) = shape (T2 E)).
  assert (HI : Inv (x1, out1)).
  { unfold for_range in Eloop.
    eapply (for_each_invariant Inv) in Eloop; [exact Eloop | | ].
    - intros i [x o] [x' o'] _ [Hx Ho] Hb. unfold Inv in *.
      cbn [fst snd] in *. by_value_in Hb.
      exc_step Hb xc Ec. exc_step Hb ai Eai. exc_step Hb xa Exa.
      exc_step Hb o2 Eadd. injection Hb as <- <-.
      assert (Hxc : shape xc = shape (T2 E)) by (rewrite <- Hx; eauto).
      split; [exact Hxc|].
      eapply add_same_shape; [exact Ho | | exact Eadd].
      eapply mul_scalar_shape; [exact Hxc | exact Eai | exact Exa].
    - split; [reflexivity|]. simpl fst; simpl snd.
      eapply mul_scalar_shape; [reflexivity | exact Ea0 | exact Eo]. }
  apply HI.
Qed.

(** What [get_embedding] returns, when it returns: the users' rows of the
    mixed table, then the items' rows, normalised and scaled. *)
Lemma get_embedding_Ok (self : AIM_LightGCN Tensor) g w nu ni sf out :
  get_embedding LGConv self g w nu ni sf = Ok out ->
  exists acc a b s,
    get_embedding_layers LGConv self g w = Ok (T2 acc) /\
    nu = Some a /\ ni = Some b /\ sf = Some s /\
    (0 <= a)%Z /\ (0 <= b)%Z /\ (a + b = Z.of_nat (length acc))%Z /\
    out = T2 (firstn (Z.to_nat a) acc ++
              map (fun v => map (fun x => (x * s)%R) (normalize_row v))
                  (skipn (Z.to_nat a) acc)).
Proof.
  intros H. unfold get_embedding in H. by_value_in H.
  exc_step H acc Eacc. exc_step H p Esplit. destruct p as [user_emb item_emb].
  exc_step H nrm Enrm. exc_step H sc Esc. exc_step H o Ecat.
  injection H as <-.
  unfold split in Esplit.
  destruct nu as [a|]; [|discriminate]. destruct ni as [b|]; [|discriminate].
  destruct item_emb as [x|v|items]; try discriminate. injection Enrm as <-.
  destruct sf as [s|]; [|discriminate]. injection Esc as <-.
  destruct acc as [x|v|acc]; try discriminate.
  - destruct (split_sizes v (Some a) (Some b)); simpl in Esplit; discriminate.
  - unfold split_sizes in Esplit.
    destruct ((a <? 0)%Z || (b <? 0)%Z) eqn:Eneg; [discriminate|].
    destruct (a + b =? Z.of_nat (length acc))%Z eqn:Esum; [|discriminate].
    simpl in Esplit. injection Esplit as <- <-.
    apply orb_false_iff in Eneg. destruct Eneg as [Ha Hb].
    apply Z.ltb_ge in Ha, Hb. apply Z.eqb_eq in Esum.
    exists acc, a, b, s. repeat split; try assumption.
    simpl in Ecat. rewrite map_map in Ecat.
    destruct (firstn (Z.to_nat a) acc) as [|r u]; [congruence|].
    destruct (map _ (skipn (Z.to_nat a) acc)) as [|r' i'] eqn:Ei in Ecat.
    + rewrite Ei. congruence.
    + destruct (length r =? length r')%nat; [|discriminate].
      rewrite Ei. congruence.
Qed.

(** Without the two sizes, [get_embedding] raises: [torch.split] does not
    accept [None]. *)
Lemma get_embedding_no_sizes (self : AIM_LightGCN Tensor) g w ni sf :
  (exists e, get_embedding LGConv self g w None ni sf = Raise e) /\
  (forall out, get_embedding_layers LGConv self g w = Ok out ->
               get_embedding LGConv self g w None ni sf = Raise TypeError).
Proof.
  unfold get_embedding.
  destruct (get_embedding_layers LGConv self g w) as [out|e]; by_value.
  - split; [eexists; reflexivity | intros; reflexivity].
  - split; [eexists; reflexivity | intros; discriminate].
Qed.

End ByValue.

Section ForwardByValue.
Import Torch TorchFacts.
Local Open Scope R_scope.
Variable LGConv : LGConv_t.

(** The table returned by [get_embedding] has the shape of the embedding
    table. *)
Lemma get_embedding_shape (self : AIM_LightGCN Tensor) g w nu ni sf out :
  shape_preserving LGConv -> wf_model self ->
  get_embedding LGConv self g w nu ni sf = Ok out ->
  exists E', out = T2 E' /\ length E' = num_nodes self /\
             Forall (fun r => length r = embedding_dim self) E'.
Proof.
  intros Hconv Hwf H.
  destruct (get_embedding_Ok _ _ _ _ _ _ _ _ H)
    as (acc & a & b & s & Hl & -> & -> & -> & Ha & Hb & Hab & ->).
  pose proof (get_embedding_layers_shape _ _ _ _ _ Hconv Hwf Hl) as Hs.
  destruct Hwf as ((E & HE & HEn & HEd) & _).
  rewrite HE in Hs. simpl in Hs. injection Hs as Hs.
  eexists. split; [reflexivity|].
  assert (Hrows : map (@length R)
            (firstn (Z.to_nat a) acc ++
             map (fun v => map (fun x => x * s) (normalize_row v))
               (skipn (Z.to_nat a) acc)) = map (@length R) E).
  { rewrite map_app, map_map.
    rewrite (map_ext (fun v => length (map (fun x => x * s) (normalize_row v)))
               (@length R)).
    - rewrite <- map_app, firstn_skipn. exact Hs.
    - intros v. unfold normalize_row. now rewrite !length_map. }
  split.
  - rewrite <- HEn, <- (length_map (@length R) E), <- Hrows. symmetry. apply length_map.
  - apply Forall_forall. intros r Hr.
    apply (in_map (@length R)) in Hr. rewrite Hrows in Hr.
    apply in_map_iff in Hr. destruct Hr as (r' & <- & Hr').
    rewrite Forall_forall in HEd. now apply HEd.
Qed.

(** What [forward] returns, when it returns, on a label index of [2 * n]
    edges [(src, dst)]: with [scores] the [2 * n] dot products of the
    edges and [Bp], [Bn] the bias rows of the destinations of each half, the
    entry [(i, j)] of [pos_rank] is the score of edge [j] plus the bias of
    the destination of edge [i], and likewise for [neg_rank]. *)
Lemma forward_Ok (self : AIM_LightGCN Tensor) g src dst nu ni sf w n P Q B :
  shape_preserving LGConv -> wf_model self ->
  beta_weight self = T2 B ->
  length src = (2 * n)%nat -> length dst = (2 * n)%nat ->
  forward LGConv self g (Some [src; dst]) nu ni sf w = Ok (P, Q) ->
  exists E' S D Bp Bn,
    get_embedding LGConv self g w nu ni sf = Ok (T2 E') /\
    gather E' src = Ok S /\ gather E' dst = Ok D /\
    gather B (firstn n dst) = Ok Bp /\ gather B (skipn n dst) = Ok Bn /\
    P = T2 (map (fun r => map (fun x => x + hd 0 r) (firstn n (map2 dot S D))) Bp) /\
    Q = T2 (map (fun r => map (fun x => x + hd 0 r) (skipn n (map2 dot S D))) Bn).
Proof.
  intros Hconv Hwf HB Hsrc Hdst H.
  unfold forward in H. by_value_in H.
  exc_step H out Eout.
  destruct (get_embedding_shape _ _ _ _ _ _ _ Hconv Hwf Eout) as (E' & -> & HEn & HEd).
  cbn [long_getitem_int nth_error] in H. by_value_in H.
  exc_step H out_src Esrc. exc_step H out_dst Edst.
  exc_step H sd Eprod. exc_step H pnr Epnr.
  exc_step H pr Echunk. destruct pr as [pos_rank neg_rank].
  exc_step H items Eitems. destruct items as [pos_item neg_item].
  by_value_in H.
  exc_step H bp Ebp. exc_step H rp Epos. exc_step H bn Ebn. exc_step H rn Eneg.
  injection H as <- <-.
  (* the gathered rows *)
  simpl in Esrc, Edst.
  destruct (gather E' src) as [S|] eqn:ES; [|discriminate]. injection Esrc as <-.
  destruct (gather E' dst) as [D|] eqn:ED; [|discriminate]. injection Edst as <-.
  destruct (gather_Ok _ _ _ ES) as [HSl HSin].
  destruct (gather_Ok _ _ _ ED) as [HDl HDin].
  assert (Hshape : map (@length R) S = map (@length R) D).
  { assert (HS : map (@length R) S = repeat (embedding_dim self) (length S)).
    { clear - HSin HEd. induction HSin as [|r S Hr _ IH]; simpl; [reflexivity|].
      rewrite Forall_forall in HEd. rewrite (HEd r Hr). now rewrite IH. }
    assert (HD : map (@length R) D = repeat (embedding_dim self) (length D)).
    { clear - HDin HEd. induction HDin as [|r D Hr _ IH]; simpl; [reflexivity|].
      rewrite Forall_forall in HEd. rewrite (HEd r Hr). now rewrite IH. }
    rewrite HS, HD. congruence. }
  (* the dot products *)
  unfold mul in Eprod. rewrite (binop_same_shape Rmult S D Hshape) in Eprod.
  injection Eprod as <-. simpl in Epnr. injection Epnr as <-.
  rewrite map_vsum_map2 in Echunk.
  assert (Hscores : length (map2 dot S D) = (2 * n)%nat).
  { rewrite map2_length; congruence. }
  simpl in Echunk. rewrite (chunk2_list_even _ n Hscores) in Echunk.
  simpl in Echunk. injection Echunk as <- <-.
  rewrite (chunk2_list_even _ n Hdst) in Eitems. injection Eitems as <- <-.
  (* the bias columns *)
  destruct Hwf as (_ & (B' & HB' & _ & HBcol) & _).
  rewrite HB in HB'. injection HB' as <-.
  rewrite HB in Ebp, Ebn. simpl in Ebp, Ebn.
  destruct (gather B (firstn n dst)) as [Bp|] eqn:EBp; [|discriminate].
  destruct (gather B (skipn n dst)) as [Bn|] eqn:EBn; [|discriminate].
  injection Ebp as <-. injection Ebn as <-.
  destruct (gather_Ok _ _ _ EBp) as [HBpl HBpin].
  destruct (gather_Ok _ _ _ EBn) as [HBnl HBnin].
  assert (HcolP : Forall (fun r => length r = 1%nat) Bp).
  { rewrite Forall_forall in *. auto. }
  assert (HcolN : Forall (fun r => length r = 1%nat) Bn).
  { rewrite Forall_forall in *. auto. }
  rewrite add_vector_column in Epos, Eneg; try assumption.
  - injection Epos as <-. injection Eneg as <-.
    exists E', S, D, Bp, Bn. repeat split; reflexivity || assumption.
  - rewrite HBnl, !length_skipn. lia.
  - rewrite HBpl, !length_firstn. lia.
Qed.

End ForwardByValue.

(* ===================================================================== *)
(** * The propagation layer of the specification keeps shapes *)
(* ===================================================================== *)

Lemma map_snd_combine_seq {A : Type} (l : list A) (start : nat) :
  map snd (combine (seq start (length l)) l) = l.
Proof.
  revert start. induction l as [|a l IH]; intros start; simpl; [reflexivity|].
  now rewrite IH.
Qed.

Lemma propagate_shape_preserving : shape_preserving Propagation.propagate.
Proof.
  intros x g w y H. unfold Propagation.propagate in H.
  destruct x as [?|?|m]; try discriminate.
  destruct (Propagation.edges_of g w) as [es|]; [|discriminate].
  destruct (forallb _ es); [|discriminate].
  injection H as <-. simpl. f_equal.
  rewrite map_map.
  rewrite (map_ext _ (fun ir => length (snd ir))).
  - rewrite <- (map_map snd (@length R)). now rewrite map_snd_combine_seq.
  - intros [i r]. now rewrite length_map, length_seq.
Qed.

Lemma demo_wf : wf_model Demo.model.
Proof.
  unfold wf_model, Demo.model, Demo.table, Demo.bias; simpl.
  repeat split.
  - eexists. repeat split; repeat constructor.
  - eexists. repeat split; repeat constructor.
  - eexists. repeat split.
Qed.

(** Evaluation of the list structure of a result, leaving its real entries
    as they are written. *)
Ltac tensor_compute :=
  cbv -[Rplus Rmult Rminus Rdiv Rinv Ropp Rabs sqrt Rmax IZR INR exp ln
        Rlt_dec Req_dec_T Rle_dec pow].

(* ===================================================================== *)
(** * The shape of the ranks returned by [forward] *)
(* ===================================================================== *)

(** C1.  On a label index of [2 * n] edges, [forward] does not return two
    vectors of length [n]: whenever it returns, each of [pos_rank] and
    [neg_rank] is a 2-dimensional tensor of [n] rows of [n] entries.  The
    sum of the [n] scores (shape [(n,)]) and of the gathered bias (shape
    [(n, 1)]) is broadcast to shape [(n, n)]. *)
Theorem forward_ranks_are_square_matrices
  (LGConv : LGConv_t) (self : AIM_LightGCN Tensor) (g : Adj)
  (src dst : Long1) (nu ni : option Z) (sf : option R) (w : option Tensor)
  (n : nat) (P Q : Tensor) :
  shape_preserving LGConv -> wf_model self ->
  length src = (2 * n)%nat -> length dst = (2 * n)%nat ->
  forward LGConv self g (Some [src; dst]) nu ni sf w = Ok (P, Q) ->
  Torch.shape P = (2%nat, repeat n n) /\ Torch.shape Q = (2%nat, repeat n n).
Proof.
  intros Hconv Hwf Hsrc Hdst H.
  destruct Hwf as (HE & (B & HB & HBn & HBc) & Ha).
  assert (Hwf : wf_model self) by (split; [exact HE | split; [eauto | exact Ha]]).
  destruct (forward_Ok LGConv self g src dst nu ni sf w n P Q B
              Hconv Hwf HB Hsrc Hdst H)
    as (E' & S & D & Bp & Bn & _ & HS & HD & HBp & HBn' & -> & ->).
  destruct (TorchFacts.gather_Ok _ _ _ HS) as [HSl _].
  destruct (TorchFacts.gather_Ok _ _ _ HD) as [HDl _].
  destruct (TorchFacts.gather_Ok _ _ _ HBp) as [HBpl _].
  destruct (TorchFacts.gather_Ok _ _ _ HBn') as [HBnl _].
  assert (Hsc : length (Torch.map2 Torch.dot S D) = (2 * n)%nat).
  { rewrite map2_length; congruence. }
  assert (Hrep : forall (X : list (list R)) (v : list R) (k : nat),
             length X = k -> length v = k ->
             map (@length R) (map (fun r => map (fun x => (x + hd 0 r)%R) v) X)
             = repeat k k).
  { intros X v k HX Hv. rewrite map_map.
    rewrite (map_ext _ (fun _ => k)) by (intros; now rewrite length_map).
    rewrite <- HX at 2. clear. induction X; simpl; congruence. }
  simpl. split; f_equal; apply Hrep.
  - rewrite HBpl, length_firstn. lia.
  - rewrite length_firstn. lia.
  - rewrite HBnl, length_skipn. lia.
  - rewrite length_skipn. lia.
Qed.

Lemma forward_ranks_are_square_matrices_witness :
  exists P Q,
    forward Propagation.propagate Demo.model Demo.graph (Some Demo.labels)
      (Some 2%Z) (Some 2%Z) (Some 1%R) None = Ok (P, Q) /\
    Torch.shape P = (2%nat, [2%nat; 2%nat]) /\
    Torch.shape Q = (2%nat, [2%nat; 2%nat]).
Proof.
  eexists. eexists. split.
  - tensor_compute. reflexivity.
  - apply (forward_ranks_are_square_matrices Propagation.propagate Demo.model
             Demo.graph [0; 1; 0; 1]%Z [2; 3; 3; 2]%Z (Some 2%Z) (Some 2%Z)
             (Some 1%R) None 2).
    + exact propagate_shape_preserving.
    + exact demo_wf.
    + reflexivity.
    + reflexivity.
    + tensor_compute. reflexivity.
Defined.

(* ===================================================================== *)
(** * The entries of the ranks returned by [forward] *)
(* ===================================================================== *)

Lemma entry_outer_sum (X : list (list R)) (v : list R) (i j : nat) :
  (i < length X)%nat -> (j < length v)%nat ->
  entry (T2 (map (fun r => map (fun x => (x + hd 0 r)%R) v) X)) i j
  = Some (nth j v 0 + hd 0 (nth i X []))%R.
Proof.
  intros Hi Hj. unfold entry.
  rewrite nth_error_map.
  rewrite (nth_error_nth' X [] Hi). simpl.
  rewrite nth_error_map.
  rewrite (nth_error_nth' v 0%R Hj). reflexivity.
Qed.

Lemma nth_map2_dot (S D : list (list R)) (k : nat) :
  length S = length D -> (k < length S)%nat ->
  nth k (Torch.map2 Torch.dot S D) 0%R = Torch.dot (nth k S []) (nth k D []).
Proof.
  revert D k. induction S as [|u S IH]; intros [|v D] k Hl Hk; simpl in *;
    try lia; try discriminate.
  destruct k as [|k]; [reflexivity|].
  apply IH; lia.
Qed.

(** C3.  The scores that [forward] computes are not one score per labeled
    edge.  With [S] and [D] the rows of the final embedding at the sources
    and destinations of the [2 * n] labeled edges, and [Bp], [Bn] the bias
    rows of the destinations of the positive and of the negative half,
    entry [(i, j)] of [pos_rank] is the dot product of edge [j] plus the
    bias of the destination of edge [i]; the same holds for [neg_rank] and
    the edges [n + j] and [n + i].  Only on the diagonal is the bias that of
    the edge's own destination. *)
Theorem forward_rank_entries
  (LGConv : LGConv_t) (self : AIM_LightGCN Tensor) (g : Adj)
  (src dst : Long1) (nu ni : option Z) (sf : option R) (w : option Tensor)
  (n : nat) (P Q : Tensor) (B : list (list R)) :
  shape_preserving LGConv -> wf_model self ->
  beta_weight self = T2 B ->
  length src = (2 * n)%nat -> length dst = (2 * n)%nat ->
  forward LGConv self g (Some [src; dst]) nu ni sf w = Ok (P, Q) ->
  exists E' S D Bp Bn,
    get_embedding LGConv self g w nu ni sf = Ok (T2 E') /\
    Torch.gather E' src = Ok S /\ Torch.gather E' dst = Ok D /\
    Torch.gather B (firstn n dst) = Ok Bp /\
    Torch.gather B (skipn n dst) = Ok Bn /\
    forall i j, (i < n)%nat -> (j < n)%nat ->
      entry P i j
      = Some (Torch.dot (nth j S []) (nth j D []) + hd 0 (nth i Bp []))%R /\
      entry Q i j
      = Some (Torch.dot (nth (n + j) S []) (nth (n + j) D [])
              + hd 0 (nth i Bn []))%R.
Proof.
  intros Hconv Hwf HB Hsrc Hdst H.
  destruct (forward_Ok LGConv self g src dst nu ni sf w n P Q B
              Hconv Hwf HB Hsrc Hdst H)
    as (E' & S & D & Bp & Bn & HE & HS & HD & HBp & HBn & -> & ->).
  exists E', S, D, Bp, Bn. repeat (split; [assumption|]).
  destruct (TorchFacts.gather_Ok _ _ _ HS) as [HSl _].
  destruct (TorchFacts.gather_Ok _ _ _ HD) as [HDl _].
  destruct (TorchFacts.gather_Ok _ _ _ HBp) as [HBpl _].
  destruct (TorchFacts.gather_Ok _ _ _ HBn) as [HBnl _].
  assert (Hsc : length (Torch.map2 Torch.dot S D) = (2 * n)%nat).
  { rewrite map2_length; congruence. }
  rewrite length_firstn in HBpl. rewrite length_skipn in HBnl.
  intros i j Hi Hj. split.
  - rewrite entry_outer_sum; [| lia | rewrite length_firstn; lia].
    rewrite nth_firstn.
    replace (j <? n)%nat with true by (symmetry; apply Nat.ltb_lt; exact Hj).
    rewrite nth_map2_dot; [reflexivity | congruence | lia].
  - rewrite entry_outer_sum; [| lia | rewrite length_skipn; lia].
    rewrite nth_skipn.
    rewrite nth_map2_dot; [reflexivity | congruence | lia].
Qed.

Lemma forward_rank_entries_witness :
  exists P Q a b,
    forward Propagation.propagate Demo.model Demo.graph (Some Demo.labels)
      (Some 2%Z) (Some 2%Z) (Some 1%R) None = Ok (P, Q) /\
    entry P 0 1 = Some a /\ entry P 1 1 = Some b /\ (b = a + 1)%R.
Proof.
  destruct (forward Propagation.propagate Demo.model Demo.graph
              (Some Demo.labels) (Some 2%Z) (Some 2%Z) (Some 1%R) None)
    as [[P Q]|e] eqn:Hrun.
  - destruct (forward_rank_entries Propagation.propagate Demo.model
                Demo.graph [0; 1; 0; 1]%Z [2; 3; 3; 2]%Z (Some 2%Z) (Some 2%Z)
                (Some 1%R) None 2 P Q Demo.bias
                propagate_shape_preserving demo_wf eq_refl eq_refl eq_refl Hrun)
      as (E' & S & D & Bp & Bn & _ & _ & _ & HBp & _ & Hent).
    injection HBp as <-.
    destruct (Hent 0%nat 1%nat) as [H01 _]; [lia | lia |].
    destruct (Hent 1%nat 1%nat) as [H11 _]; [lia | lia |].
    exists P, Q. eexists. eexists.
    split; [reflexivity|]. split; [exact H01|]. split; [exact H11|].
    simpl. ring.
  - exfalso. revert Hrun. tensor_compute. discriminate.
Defined.

(* ===================================================================== *)
(** * The norm of the item rows returned by [get_embedding] *)
(* ===================================================================== *)

Module NormFacts.
Import Torch.
Local Open Scope R_scope.

Lemma sum_squares_nonneg (v : list R) : 0 <= vsum (map (fun x => x * x) v).
Proof.
  induction v as [|x v IH]; simpl; [lra|].
  pose proof (Rle_0_sqr x) as Hx. unfold Rsqr in Hx. lra.
Qed.

Lemma sum_squares_scale (c : R) (v : list R) :
  vsum (map (fun x => x * x) (map (fun x => x * c) v))
  = (c * c) * vsum (map (fun x => x * x) v).
Proof.
  induction v as [|x v IH]; simpl; [ring|]. rewrite IH. ring.
Qed.

Lemma norm2_scale (c : R) (v : list R) :
  norm2 (map (fun x => x * c) v) = Rabs c * norm2 v.
Proof.
  unfold norm2. rewrite sum_squares_scale.
  rewrite sqrt_mult; [| apply Rle_0_sqr | apply sum_squares_nonneg].
  f_equal. apply sqrt_Rsqr_abs.
Qed.

Lemma eps_pos : 0 < eps.
Proof. unfold eps. lra. Qed.

(** A row, normalised and scaled by [s]: the row times [s / max(norm, eps)]. *)
Lemma scaled_normalize_row (s : R) (v : list R) :
  map (fun x => x * s) (normalize_row v)
  = map (fun x => x * (s / Rmax (norm2 v) eps)) v.
Proof.
  unfold normalize_row. rewrite map_map. apply map_ext. intros x.
  unfold Rdiv. ring.
Qed.

Lemma norm2_scaled_normalize_row (s : R) (v : list R) :
  0 <= s ->
  norm2 (map (fun x => x * s) (normalize_row v))
  = s * (norm2 v / Rmax (norm2 v) eps).
Proof.
  intros Hs. rewrite scaled_normalize_row, norm2_scale.
  assert (Hm : 0 < Rmax (norm2 v) eps).
  { eapply Rlt_le_trans; [apply eps_pos | apply Rmax_r]. }
  rewrite Rabs_pos_eq.
  - unfold Rdiv. ring.
  - apply Rmult_le_pos; [exact Hs|]. left. now apply Rinv_0_lt_compat.
Qed.

(** At or above [eps], the normalised and scaled row has norm [s]. *)
Lemma norm2_scaled_normalize_row_regular (s : R) (v : list R) :
  0 <= s -> eps <= norm2 v ->
  norm2 (map (fun x => x * s) (normalize_row v)) = s.
Proof.
  intros Hs Hv. rewrite norm2_scaled_normalize_row by exact Hs.
  rewrite Rmax_left by exact Hv.
  pose proof eps_pos. field. lra.
Qed.

(** A zero row stays zero. *)
Lemma norm2_scaled_normalize_row_zero (s : R) (v : list R) :
  norm2 v = 0 -> norm2 (map (fun x => x * s) (normalize_row v)) = 0.
Proof.
  intros Hv. rewrite scaled_normalize_row, norm2_scale, Hv. ring.
Qed.

Lemma sqrt_lower_bound (c x : R) : 0 <= c -> c * c <= x -> c <= sqrt x.
Proof.
  intros Hc Hx. rewrite <- (sqrt_square c Hc). now apply sqrt_le_1_alt.
Qed.

Lemma sqrt_upper_bound (c x : R) : 0 <= c -> x <= c * c -> sqrt x <= c.
Proof.
  intros Hc Hx. rewrite <- (sqrt_square c Hc). now apply sqrt_le_1_alt.
Qed.

(** Below [eps], the row is divided by [eps]. *)
Lemma scaled_normalize_row_small (s : R) (v : list R) :
  0 <= s -> norm2 v < eps ->
  map (fun x => x * s) (normalize_row v) = map (fun x => x / eps * s) v /\
  norm2 (map (fun x => x * s) (normalize_row v)) = s * norm2 v / eps.
Proof.
  intros Hs Hv. split.
  - unfold normalize_row. rewrite map_map, Rmax_right by lra. reflexivity.
  - rewrite norm2_scaled_normalize_row by exact Hs.
    rewrite Rmax_right by lra. unfold Rdiv. ring.
Qed.

Lemma big_ge_1 : 1 <= 2 ^ 63.
Proof. apply pow_R1_Rle. lra. Qed.

Lemma safe_pos (x : R) : Float32.safe x -> 0 < x.
Proof.
  intros [H _]. eapply Rlt_le_trans; [|exact H].
  apply Rinv_0_lt_compat. pose proof big_ge_1. lra.
Qed.

Lemma safe_1 : Float32.safe 1.
Proof.
  pose proof big_ge_1 as H. split; [|exact H].
  rewrite <- Rinv_1. apply Rinv_le_contravar; lra.
Qed.

End NormFacts.

Section ItemNorm.
Import Torch NormFacts.
Local Open Scope R_scope.
Variable LGConv : LGConv_t.

(** The rows of the result of [get_embedding] from the item block on. *)
Lemma get_embedding_item_row (self : AIM_LightGCN Tensor) g w nu ni s
  (acc out : list (list R)) (j : nat) (v : list R) :
  get_embedding_layers LGConv self g w = Ok (T2 acc) ->
  get_embedding LGConv self g w (Some nu) (Some ni) (Some s) = Ok (T2 out) ->
  (Z.to_nat nu <= j)%nat -> nth_error acc j = Some v ->
  nth_error out j = Some (map (fun x => x * s) (normalize_row v)).
Proof.
  intros Hl H Hj Hv.
  destruct (get_embedding_Ok _ _ _ _ _ _ _ _ H)
    as (acc' & a & b & s' & Hl' & Ha & Hb & Hs & Ha0 & Hb0 & Hab & Hout).
  rewrite Hl in Hl'. injection Hl' as <-.
  injection Ha as <-. injection Hs as <-. injection Hout as ->.
  assert (Hlen : length (firstn (Z.to_nat nu) acc) = Z.to_nat nu).
  { apply firstn_length_le. lia. }
  rewrite nth_error_app2 by lia. rewrite Hlen.
  rewrite nth_error_map, nth_error_skipn.
  replace (Z.to_nat nu + (j - Z.to_nat nu))%nat with j by lia.
  rewrite Hv. reflexivity.
Qed.

End ItemNorm.

(** C4 (as amended).  For a scaling factor [s], every item row of the
    table returned by [get_embedding] whose norm before normalisation is at
    least [eps] (1e-12, the clamp of [F.normalize]) has Euclidean norm [s];
    an item row of norm [n] below [eps] is divided by [eps] instead, and
    comes out with norm [s * n / eps], so that a zero row stays zero.  The
    statement is for a scaling factor and, in its first part, a norm that
    are far from both ends of the float32 range, where float32 computes
    the norm, the quotient and the product without overflow and without
    underflow; the exact reals of the model do not need the restriction. *)
Theorem get_embedding_item_rows_norm
  (LGConv : LGConv_t) (self : AIM_LightGCN Tensor) (g : Adj)
  (w : option Tensor) (nu ni : Z) (s : R)
  (acc out : list (list R)) (j : nat) (v : list R) :
  Float32.safe s ->
  get_embedding_layers LGConv self g w = Ok (T2 acc) ->
  get_embedding LGConv self g w (Some nu) (Some ni) (Some s) = Ok (T2 out) ->
  (Z.to_nat nu <= j)%nat -> nth_error acc j = Some v ->
  exists r,
    nth_error out j = Some r /\
    ((Torch.eps <= Torch.norm2 v <= 2 ^ 63)%R -> Torch.norm2 r = s) /\
    ((Torch.norm2 v < Torch.eps)%R ->
     r = map (fun x => (x / Torch.eps * s)%R) v /\
     Torch.norm2 r = (s * Torch.norm2 v / Torch.eps)%R).
Proof.
  intros Hsafe Hl H Hj Hv.
  pose proof (NormFacts.safe_pos s Hsafe) as Hs.
  eexists. split; [|split].
  - eapply get_embedding_item_row; eassumption.
  - intros [Hn _].
    apply NormFacts.norm2_scaled_normalize_row_regular; [lra | exact Hn].
  - intros Hn.
    assert (Hs0 : (0 <= s)%R) by lra.
    exact (NormFacts.scaled_normalize_row_small s v Hs0 Hn).
Qed.

Lemma get_embedding_item_rows_norm_witness :
  (exists out r,
     get_embedding Propagation.propagate Demo.model Demo.graph None
       (Some 2%Z) (Some 2%Z) (Some 1%R) = Ok (T2 out) /\
     nth_error out 2 = Some r /\ Torch.norm2 r = 1%R) /\
  (exists out r,
     get_embedding Propagation.propagate ColdItem.model ColdItem.graph None
       (Some 1%Z) (Some 2%Z) (Some 1%R) = Ok (T2 out) /\
     nth_error out 2 = Some r /\ Torch.norm2 r = (1 * 0 / Torch.eps)%R).
Proof.
  pose proof NormFacts.safe_1 as Hs.
  split.
  - eassert (Hl : get_embedding_layers Propagation.propagate Demo.model
                    Demo.graph None = Ok (T2 _))
      by (tensor_compute; reflexivity).
    eassert (Hrun : get_embedding Propagation.propagate Demo.model Demo.graph
                      None (Some 2%Z) (Some 2%Z) (Some 1%R) = Ok (T2 _))
      by (tensor_compute; reflexivity).
    eexists. eexists. split; [exact Hrun|].
    assert (Hj : (Z.to_nat 2 <= 2)%nat) by (simpl; lia).
    pose proof (fun v => get_embedding_item_rows_norm Propagation.propagate
                           Demo.model Demo.graph None 2%Z 2%Z 1%R _ _ 2%nat v
                           Hs Hl Hrun Hj) as H.
    edestruct H as (r & Hr & Hn & _).
    + simpl. reflexivity.
    + injection Hr as <-. split; [reflexivity|]. apply Hn.
      split.
      * apply NormFacts.sqrt_lower_bound; unfold Torch.eps; simpl; lra.
      * apply Rle_trans with 4%R; [|pose proof NormFacts.big_ge_1; lra].
        apply NormFacts.sqrt_upper_bound; simpl; lra.
  - eassert (Hl : get_embedding_layers Propagation.propagate ColdItem.model
                    ColdItem.graph None = Ok (T2 _))
      by (tensor_compute; reflexivity).
    eassert (Hrun : get_embedding Propagation.propagate ColdItem.model
                      ColdItem.graph None (Some 1%Z) (Some 2%Z) (Some 1%R)
                    = Ok (T2 _))
      by (tensor_compute; reflexivity).
    eexists. eexists. split; [exact Hrun|].
    assert (Hj : (Z.to_nat 1 <= 2)%nat) by (simpl; lia).
    pose proof (fun v => get_embedding_item_rows_norm Propagation.propagate
                           ColdItem.model ColdItem.graph None 1%Z 2%Z 1%R _ _
                           2%nat v Hs Hl Hrun Hj) as H.
    edestruct H as (r & Hr & _ & Hsmall).
    + simpl. reflexivity.
    + injection Hr as <-. split; [reflexivity|].
      assert (Hz : Torch.norm2
                     [(0 * (1 / 2) + (0 + (0 + 0)) * (1 / 2))%R;
                      (0 * (1 / 2) + (0 + (0 + 0)) * (1 / 2))%R] = 0%R).
      { unfold Torch.norm2. simpl.
        replace (_ + _)%R with 0%R by lra. apply sqrt_0. }
      destruct Hsmall as [_ Hnorm].
      * rewrite Hz. apply NormFacts.eps_pos.
      * rewrite Hnorm, Hz. reflexivity.
Defined.

(** C4, as stated, fails: the zero row of an item that no edge reaches
    stays zero through [F.normalize], whose divisor is clamped at [eps], so
    that its norm is 0 and not the scaling factor 1. *)
Lemma get_embedding_zero_item_row :
  exists out r,
    get_embedding Propagation.propagate ColdItem.model ColdItem.graph None
      (Some 1%Z) (Some 2%Z) (Some 1%R) = Ok (T2 out) /\
    nth_error out 2 = Some r /\ Torch.norm2 r = 0%R /\ Torch.norm2 r <> 1%R.
Proof.
  eassert (Hl : get_embedding_layers Propagation.propagate ColdItem.model
                  ColdItem.graph None = Ok (T2 _))
    by (tensor_compute; reflexivity).
  eassert (Hrun : get_embedding Propagation.propagate ColdItem.model
                    ColdItem.graph None (Some 1%Z) (Some 2%Z) (Some 1%R)
                  = Ok (T2 _))
    by (tensor_compute; reflexivity).
  eexists. eexists. split; [exact Hrun|].
  pose proof (get_embedding_item_row Propagation.propagate ColdItem.model
                ColdItem.graph None 1%Z 2%Z 1%R _ _ 2%nat _ Hl Hrun
                ltac:(simpl; lia) eq_refl) as Hrow.
  split; [exact Hrow|].
  assert (Hz : Torch.norm2
                 (map (fun x => (x * 1)%R)
                    (Torch.normalize_row
                       [(0 * (1 / 2) + (0 + (0 + 0)) * (1 / 2))%R;
                        (0 * (1 / 2) + (0 + (0 + 0)) * (1 / 2))%R])) = 0%R).
  { apply NormFacts.norm2_scaled_normalize_row_zero.
    unfold Torch.norm2. simpl.
    replace (_ + _)%R with 0%R by lra. apply sqrt_0. }
  split; [exact Hz | rewrite Hz; lra].
Qed.

(* ===================================================================== *)
(** * [recommend] *)
(* ===================================================================== *)

Lemma get_embedding_by_reference_no_sizes
  (LGConv : LGConv_t) (self : AIM_LightGCN loc) g w ni sf (s : Store) :
  exists e s', get_embedding LGConv self g w None ni sf s = (Raise e, s').
Proof.
  unfold get_embedding. cbn [bind HM_monad].
  destruct (get_embedding_layers (M := HM) LGConv self g w s) as [[acc|e] s1].
  - cbn [new_pair by_reference bind HM_monad]. unfold read.
    destruct (nth_error (cells s1) acc) as [t|]; simpl; eauto.
  - eauto.
Qed.

(** C2.  [recommend] never returns.  It calls [get_embedding] without
    [num_users], [num_items] and [scaling_factor], which are then [None],
    and [torch.split(out, [None, None])] raises; this holds for every
    model, graph, index subsets and [k], by value and by reference.  When
    the layers themselves succeed, the exception is the [TypeError] of the
    split. *)
Theorem recommend_never_returns
  (LGConv : LGConv_t) (g : Adj) (w : option Tensor)
  (src dst : option Long1) (k : nat) (sorted : bool) :
  (forall self : AIM_LightGCN Tensor,
     recommend LGConv self g w src dst k sorted = Raise TypeError \/
     exists e, get_embedding_layers LGConv self g w = Raise e /\
               recommend LGConv self g w src dst k sorted = Raise e) /\
  (forall (self : AIM_LightGCN loc) (s : Store),
     exists e s', recommend LGConv self g w src dst k sorted s = (Raise e, s')).
Proof.
  split.
  - intros self.
    destruct (get_embedding_no_sizes LGConv self g w None None) as [_ H].
    destruct (get_embedding_layers LGConv self g w) as [acc|e] eqn:El.
    + left. unfold recommend. now rewrite (H acc eq_refl).
    + right. exists e. split; [reflexivity|].
      unfold recommend, get_embedding. now rewrite El.
  - intros self s.
    destruct (get_embedding_by_reference_no_sizes LGConv self g w None None s)
      as (e & s' & He).
    exists e, s'. unfold recommend. cbn [bind HM_monad]. now rewrite He.
Qed.

(** On the demo model, with [k = 1] and no index subset, the exception is
    the [TypeError] of the split. *)
Lemma recommend_demo_raises :
  recommend Propagation.propagate Demo.model Demo.graph None None None 1 true
  = Raise TypeError.
Proof. tensor_compute. reflexivity. Qed.

(* ===================================================================== *)
(** * The partition check of [get_embedding] *)
(* ===================================================================== *)

(** C5.  For a layer that keeps shapes and a model as [__init__] builds it,
    a call of [get_embedding] with [num_users + num_items] different from
    the number of nodes raises: the exception reaches the caller as the
    result of the call, and, when the layers succeed, it is the
    [RuntimeError] of [torch.split], the first use of the two sizes. *)
Theorem get_embedding_partition_mismatch
  (LGConv : LGConv_t) (self : AIM_LightGCN Tensor) (g : Adj)
  (w : option Tensor) (nu ni : Z) (sf : option R) :
  shape_preserving LGConv -> wf_model self ->
  (nu + ni <> Z.of_nat (num_nodes self))%Z ->
  (exists e, get_embedding LGConv self g w (Some nu) (Some ni) sf = Raise e) /\
  (forall acc, get_embedding_layers LGConv self g w = Ok acc ->
     get_embedding LGConv self g w (Some nu) (Some ni) sf = Raise RuntimeError).
Proof.
  intros Hconv Hwf Hne.
  assert (Hacc : forall acc, get_embedding_layers LGConv self g w = Ok acc ->
     get_embedding LGConv self g w (Some nu) (Some ni) sf = Raise RuntimeError).
  { intros acc Hl.
    pose proof (get_embedding_layers_shape LGConv self g w acc Hconv Hwf Hl) as Hs.
    destruct Hwf as ((E & HE & HEn & _) & _).
    rewrite HE in Hs.
    destruct (TorchFacts.shape_T2_inv acc _ Hs) as (m & -> & Hm).
    assert (Hlen : length m = num_nodes self).
    { rewrite <- HEn, <- (length_map (@length R) m), Hm. apply length_map. }
    unfold get_embedding. rewrite Hl. by_value.
    unfold Torch.split, Torch.split_sizes. rewrite Hlen.
    destruct ((nu <? 0)%Z || (ni <? 0)%Z); [reflexivity|].
    destruct (nu + ni =? Z.of_nat (num_nodes self))%Z eqn:Esum; [|reflexivity].
    apply Z.eqb_eq in Esum. contradiction. }
  split; [|exact Hacc].
  destruct (get_embedding_layers LGConv self g w) as [acc|e] eqn:El.
  - eexists. now apply (Hacc acc).
  - exists e. unfold get_embedding. rewrite El. reflexivity.
Qed.

Lemma get_embedding_partition_mismatch_witness :
  (2 + 3 <> Z.of_nat (num_nodes Demo.model))%Z /\
  get_embedding Propagation.propagate Demo.model Demo.graph None
    (Some 2%Z) (Some 3%Z) (Some 1%R) = Raise RuntimeError.
Proof.
  assert (Hne : (2 + 3 <> Z.of_nat (num_nodes Demo.model))%Z) by (simpl; lia).
  split; [exact Hne|].
  destruct (get_embedding_partition_mismatch Propagation.propagate Demo.model
              Demo.graph None 2%Z 3%Z (Some 1%R)
              propagate_shape_preserving demo_wf Hne) as [_ H].
  eapply H. tensor_compute. reflexivity.
Defined.

(* ===================================================================== *)
(** * The ranking loss *)
(* ===================================================================== *)

Module LossFacts.
Import Torch LossSpec.
Local Open Scope R_scope.

Lemma logsigmoid_increasing (x y : R) : x < y -> logsigmoid_R x < logsigmoid_R y.
Proof.
  intros H. unfold logsigmoid_R.
  pose proof (exp_pos (- x)) as Hx. pose proof (exp_pos (- y)) as Hy.
  assert (He : exp (- y) < exp (- x)) by (apply exp_increasing; lra).
  apply ln_increasing.
  - apply Rdiv_lt_0_compat; lra.
  - unfold Rdiv. rewrite !Rmult_1_l.
    apply Rinv_lt_contravar; [apply Rmult_lt_0_compat; lra | lra].
Qed.

Lemma bump_length (i : nat) (d : R) (p : list R) : length (bump i d p) = length p.
Proof.
  revert i. induction p as [|x p IH]; intros [|i]; simpl; auto.
Qed.

(** Raising one positive rank raises the sum of the log-sigmoids. *)
Lemma sum_logsigmoid_bump (i : nat) (d : R) (p q : list R) :
  length p = length q -> (i < length p)%nat -> 0 < d ->
  vsum (map logsigmoid_R (map2 Rminus p q))
  < vsum (map logsigmoid_R (map2 Rminus (bump i d p) q)).
Proof.
  revert i q. induction p as [|x p IH]; intros i [|y q] Hl Hi Hd; simpl in *;
    try lia; try discriminate.
  destruct i as [|i]; simpl.
  - apply Rplus_lt_compat_r. apply logsigmoid_increasing. lra.
  - apply Rplus_lt_compat_l. apply IH; [lia | lia | exact Hd].
Qed.

Lemma sub_vectors (p q : list R) :
  length p = length q -> sub (T1 p) (T1 q) = Ok (T1 (map2 Rminus p q)).
Proof.
  intros H. unfold sub. simpl. rewrite (TorchFacts.bvec_same Rminus p q H).
  reflexivity.
Qed.

(** The value of [BPRLoss.forward] on two vectors of the same length. *)
Lemma BPRLoss_forward_value (lambda_reg : R) (p q : list R) (params : option Tensor) :
  length p = length q ->
  BPRLoss_forward lambda_reg (T1 p) (T1 q) params =
  if Req_dec_T lambda_reg 0 then Ok (T0 (bpr p q + 0))
  else match params with
       | Some emb => Ok (T0 (bpr p q + reg lambda_reg emb (length p)))
       | None => Raise AttributeError
       end.
Proof.
  intros H. unfold BPRLoss_forward. by_value.
  rewrite (sub_vectors p q H). cbn [logsigmoid mean tmap entries neg].
  destruct (Req_dec_T lambda_reg 0) as [Hz|Hnz]; by_value.
  - reflexivity.
  - destruct params as [emb|]; [|reflexivity]. by_value.
    cbn [norm pow2 rmul_float tmap size0 div_int add binop]. reflexivity.
Qed.

Lemma exp_INR_mult (n : nat) (y : R) : exp (INR n * y) = exp y ^ n.
Proof.
  induction n as [|n IH].
  - simpl. rewrite Rmult_0_l. apply exp_0.
  - rewrite S_INR, Rmult_plus_distr_r, Rmult_1_l, exp_plus, IH. simpl. ring.
Qed.

(** [(1 + y)^n <= exp (n * y)], from [1 + y <= exp y]. *)
Lemma exp_lower (n : nat) (y : R) : 0 <= 1 + y -> (1 + y) ^ n <= exp (INR n * y).
Proof.
  intros H. rewrite exp_INR_mult. apply pow_incr.
  split; [exact H | apply exp_ineq1_le].
Qed.





End LossFacts.

(* ===================================================================== *)
(** * The loss on float32 tensors *)
(* ===================================================================== *)

Module Float32Facts.
Import Torch Float32.
Local Open Scope R_scope.

Lemma tiny_pos : 0 < tiny.
Proof. unfold tiny. apply Rinv_0_lt_compat. apply pow_lt. lra. Qed.

Lemma tiny_below_1 : tiny < 1.
Proof.
  unfold tiny. rewrite <- Rinv_1. apply Rinv_lt_contravar.
  - rewrite Rmult_1_l. apply pow_lt. lra.
  - apply Rlt_pow_R1; [lra | lia].
Qed.

Lemma round_small (x : R) : Rabs x <= tiny -> round x = 0.
Proof. intros H. unfold round. destruct (Rle_dec (Rabs x) tiny); [reflexivity | contradiction]. Qed.

Lemma round_large (x : R) : tiny < Rabs x -> round x = x.
Proof. intros H. unfold round. destruct (Rle_dec (Rabs x) tiny); [lra | reflexivity]. Qed.

Lemma round_0 : round 0 = 0.
Proof. apply round_small. rewrite Rabs_R0. left. apply tiny_pos. Qed.

Lemma round_monotone (x y : R) : x <= y -> round x <= round y.
Proof.
  intros H. pose proof tiny_pos as Ht. unfold round.
  destruct (Rle_dec (Rabs x) tiny) as [Hx|Hx],
           (Rle_dec (Rabs y) tiny) as [Hy|Hy];
    revert Hx Hy; unfold Rabs;
    destruct (Rcase_abs x), (Rcase_abs y); intros; lra.
Qed.

Lemma round_opp (x : R) : round (- x) = - round x.
Proof.
  unfold round. rewrite Rabs_Ropp.
  destruct (Rle_dec (Rabs x) tiny); lra.
Qed.

Lemma round_nonneg (x : R) : 0 <= x -> 0 <= round x.
Proof. intros H. rewrite <- round_0. now apply round_monotone. Qed.

Lemma round_nonpos (x : R) : x <= 0 -> round x <= 0.
Proof. intros H. rewrite <- round_0. now apply round_monotone. Qed.

Lemma logsigmoid_monotone (x y : R) : x <= y -> logsigmoid_R x <= logsigmoid_R y.
Proof.
  intros [H| ->]; [left; now apply LossFacts.logsigmoid_increasing | right; reflexivity].
Qed.

Lemma logsigmoid_nonpos (x : R) : logsigmoid_R x <= 0.
Proof.
  unfold logsigmoid_R. pose proof (exp_pos (- x)) as He.
  rewrite <- ln_1. left. apply ln_increasing.
  - apply Rdiv_lt_0_compat; lra.
  - apply (Rmult_lt_reg_r (1 + exp (- x))); [lra|].
    unfold Rdiv. rewrite Rmult_assoc, Rinv_l by lra. lra.
Qed.

(** [exp 150] is beyond [2^150]. *)
Lemma exp_150 : 2 ^ 150 <= exp 150.
Proof.
  pose proof (LossFacts.exp_lower 150 1) as H.
  assert (E : INR 150 * 1 = 150) by (rewrite INR_IZR_INZ; simpl; lra).
  rewrite E in H. replace (1 + 1) with 2 in H by lra. apply H. lra.
Qed.

(** From 150 on, [F.logsigmoid] is stored as 0: [exp (- x)] is below
    every positive float32. *)
Lemma logsigmoid_saturates (x : R) : 150 <= x -> round (logsigmoid_R x) = 0.
Proof.
  intros Hx. apply round_small.
  pose proof (logsigmoid_nonpos x) as Hn.
  rewrite Rabs_left1 by exact Hn.
  unfold logsigmoid_R. pose proof (exp_pos (- x)) as He.
  replace (1 / (1 + exp (- x))) with (/ (1 + exp (- x))) by (unfold Rdiv; ring).
  rewrite ln_Rinv by lra. rewrite Ropp_involutive.
  apply Rle_trans with (exp (- x)).
  - apply Rle_trans with (ln (exp (exp (- x)))).
    + destruct (exp_ineq1_le (exp (- x))) as [Hlt|Heq].
      * left. apply ln_increasing; lra.
      * rewrite <- Heq. right. reflexivity.
    + rewrite ln_exp. right. reflexivity.
  - unfold tiny. rewrite exp_Ropp.
    apply Rinv_le_contravar; [apply pow_lt; lra|].
    apply Rle_trans with (exp 150); [apply exp_150|].
    destruct Hx as [Hx| <-]; [left; now apply exp_increasing | right; reflexivity].
Qed.

Lemma vsum_monotone (u v : list R) : Forall2 Rle u v -> vsum u <= vsum v.
Proof.
  induction 1 as [|x y u v Hxy _ IH]; unfold vsum; cbn [fold_right]; [lra|].
  unfold vsum in IH. lra.
Qed.

Lemma vsum_nonpos (u : list R) : Forall (fun x => x <= 0) u -> vsum u <= 0.
Proof.
  induction 1 as [|x u Hx _ IH]; unfold vsum; cbn [fold_right]; [lra|].
  unfold vsum in IH. lra.
Qed.

Lemma Forall2_map_monotone (f : R -> R) (u v : list R) :
  (forall x y, x <= y -> f x <= f y) ->
  Forall2 Rle u v -> Forall2 Rle (map f u) (map f v).
Proof. intros Hf. induction 1; simpl; constructor; auto. Qed.

Lemma Forall2_length_R (u v : list R) : Forall2 Rle u v -> length u = length v.
Proof. induction 1; simpl; congruence. Qed.

(** The ranking term does not decrease when the differences grow. *)
Lemma log_prob_monotone (p q p' q' : list R) :
  Forall2 Rle (map2 Rminus p q) (map2 Rminus p' q') ->
  log_prob p q <= log_prob p' q'.
Proof.
  intros H. unfold log_prob. apply round_monotone.
  assert (H3 : Forall2 Rle
                 (map round (map logsigmoid_R (map round (map2 Rminus p q))))
                 (map round (map logsigmoid_R (map round (map2 Rminus p' q'))))).
  { apply Forall2_map_monotone; [exact round_monotone|].
    apply Forall2_map_monotone; [exact logsigmoid_monotone|].
    apply Forall2_map_monotone; [exact round_monotone | exact H]. }
  rewrite <- (Forall2_length_R _ _ H3).
  pose proof (vsum_monotone _ _ H3) as Hs.
  unfold Rdiv. apply Rmult_le_compat_r; [|exact Hs].
  destruct (length (map round (map logsigmoid_R (map round (map2 Rminus p q)))))
    as [|n].
  - simpl. rewrite Rinv_0. lra.
  - left. apply Rinv_0_lt_compat. apply lt_0_INR. lia.
Qed.

Lemma log_prob_nonpos (p q : list R) : log_prob p q <= 0.
Proof.
  unfold log_prob. apply round_nonpos.
  set (ls := map round (map logsigmoid_R (map round (map2 Rminus p q)))).
  assert (Hs : vsum ls <= 0).
  { apply vsum_nonpos. unfold ls. apply Forall_forall. intros y Hy.
    apply in_map_iff in Hy. destruct Hy as (z & <- & Hz).
    apply in_map_iff in Hz. destruct Hz as (x & <- & _).
    apply round_nonpos, logsigmoid_nonpos. }
  destruct (length ls) as [|n].
  - simpl. unfold Rdiv. rewrite Rinv_0. lra.
  - assert (Hn : 0 < / INR (S n)) by (apply Rinv_0_lt_compat, lt_0_INR; lia).
    unfold Rdiv. rewrite <- (Rmult_0_l (/ INR (S n))).
    apply Rmult_le_compat_r; [lra | exact Hs].
Qed.

Lemma float32_reg_nonneg (lambda_reg : R) (emb : Tensor) (n : nat) :
  0 <= lambda_reg -> 0 <= reg lambda_reg emb n.
Proof.
  intros Hl. unfold reg. apply round_nonneg.
  assert (Hsq : 0 <= round (round (norm2 (entries emb)) ^ 2))
    by (apply round_nonneg, pow2_ge_0).
  assert (Hm : 0 <= round (lambda_reg * round (round (norm2 (entries emb)) ^ 2)))
    by (apply round_nonneg, Rmult_le_pos; assumption).
  unfold Rdiv. apply Rmult_le_pos; [exact Hm|].
  destruct n as [|n].
  - simpl. rewrite Rinv_0. lra.
  - left. apply Rinv_0_lt_compat, lt_0_INR. lia.
Qed.

(** The differences against a raised positive rank, and against a raised
    negative rank. *)
Lemma diffs_bump_pos (i : nat) (d : R) (p q : list R) :
  0 <= d ->
  Forall2 Rle (map2 Rminus p q) (map2 Rminus (LossSpec.bump i d p) q).
Proof.
  intros Hd. revert i q. induction p as [|x p IH]; intros i [|y q];
    destruct i as [|i]; simpl; constructor; try lra; try apply IH.
  clear. revert q. induction p as [|x p IH]; intros [|y q]; simpl; constructor;
    [lra | apply IH].
Qed.

Lemma diffs_bump_neg (i : nat) (d : R) (p q : list R) :
  0 <= d ->
  Forall2 Rle (map2 Rminus p (LossSpec.bump i d q)) (map2 Rminus p q).
Proof.
  intros Hd. revert i q. induction p as [|x p IH]; intros i [|y q];
    destruct i as [|i]; simpl; constructor; try lra; try apply IH.
  clear. revert q. induction p as [|x p IH]; intros [|y q]; simpl; constructor;
    [lra | apply IH].
Qed.

(** The value of [BPRLoss.forward] on two float32 vectors of the same
    length. *)
Lemma BPRLoss_forward_float32_value (lambda_reg : R) (p q : list R) (params : option Tensor) :
  length p = length q ->
  BPRLoss_forward (Api := float32) lambda_reg (T1 p) (T1 q) params =
  if Req_dec_T lambda_reg 0
  then Ok (T0 (round (round (- log_prob p q) + 0)))
  else match params with
       | Some emb =>
           Ok (T0 (round (round (- log_prob p q) + reg lambda_reg emb (length p))))
       | None => Raise AttributeError
       end.
Proof.
  intros H. unfold BPRLoss_forward.
  cbn [bind ret raise Exc_monad new1 new2 new_pair peek float32 liftE].
  rewrite (LossFacts.sub_vectors p q H).
  cbn [bind ret raise Exc_monad logsigmoid mean tmap entries neg].
  destruct (Req_dec_T lambda_reg 0) as [Hz|Hnz];
    cbn [bind ret raise Exc_monad new1 new2 new_pair peek float32 liftE].
  - reflexivity.
  - destruct params as [emb|]; [|reflexivity].
    cbn [bind ret raise Exc_monad new1 new2 new_pair peek float32 liftE
         norm pow2 rmul_float tmap size0 div_int add binop].
    reflexivity.
Qed.

(** Where every difference is at least 150, the ranking term is stored
    as 0. *)
Lemma log_prob_saturated (p q : list R) :
  Forall (fun x => 150 <= x) (map2 Rminus p q) -> log_prob p q = 0.
Proof.
  intros H. unfold log_prob.
  assert (Hls : map round (map logsigmoid_R (map round (map2 Rminus p q)))
                = map (fun _ => 0) (map2 Rminus p q)).
  { rewrite !map_map. apply map_ext_in. intros x Hx.
    rewrite Forall_forall in H. specialize (H x Hx).
    rewrite (round_large x).
    - now apply logsigmoid_saturates.
    - pose proof tiny_below_1. rewrite Rabs_right by lra. lra. }
  rewrite Hls. clear Hls H. generalize (map2 Rminus p q). intros l.
  assert (Hz : vsum (map (fun _ : R => 0) l) = 0).
  { induction l as [|x l IH]; unfold vsum; cbn [map fold_right]; [reflexivity|].
    unfold vsum in IH. rewrite IH. lra. }
  rewrite Hz. unfold Rdiv. rewrite Rmult_0_l. apply round_0.
Qed.

Lemma loss_saturated (p q : list R) :
  Forall (fun x => 150 <= x) (map2 Rminus p q) ->
  round (round (- log_prob p q) + 0) = 0.
Proof.
  intros H. rewrite (log_prob_saturated p q H).
  rewrite Ropp_0, round_0, Rplus_0_r. apply round_0.
Qed.

End Float32Facts.



(** C8 (as amended).  On two ranks of the same length, increasing one
    entry of [pos_rank] by [d > 0], all else fixed, does not increase the
    value of [BPRLoss.forward] (which is computed whenever [lambda_reg] is
    zero or the parameters are given): in exact arithmetic the value
    strictly decreases, and on float32 tensors it does not increase. *)
Theorem BPRLoss_does_not_increase_in_pos_rank
  (lambda_reg : R) (params : option Tensor) (pos neg : list R)
  (i : nat) (d : R) :
  length pos = length neg -> (i < length pos)%nat -> (0 < d)%R ->
  lambda_reg = 0%R \/ params <> None ->
  (exists a b,
     BPRLoss_forward lambda_reg (T1 pos) (T1 neg) params = Ok (T0 a) /\
     BPRLoss_forward lambda_reg (T1 (LossSpec.bump i d pos)) (T1 neg) params
       = Ok (T0 b) /\
     (b < a)%R) /\
  (exists a b,
     BPRLoss_forward (Api := float32) lambda_reg (T1 pos) (T1 neg) params
       = Ok (T0 a) /\
     BPRLoss_forward (Api := float32) lambda_reg
       (T1 (LossSpec.bump i d pos)) (T1 neg) params = Ok (T0 b) /\
     (b <= a)%R).
Proof.
  intros Hlen Hi Hd Hreg.
  assert (Hlen' : length (LossSpec.bump i d pos) = length neg)
    by (rewrite LossFacts.bump_length; exact Hlen).
  split.
  - rewrite (LossFacts.BPRLoss_forward_value lambda_reg pos neg params Hlen).
    rewrite (LossFacts.BPRLoss_forward_value lambda_reg _ neg params Hlen').
    rewrite LossFacts.bump_length.
    assert (Hbpr : (LossSpec.bpr (LossSpec.bump i d pos) neg
                    < LossSpec.bpr pos neg)%R).
    { unfold LossSpec.bpr, LossSpec.mean.
      pose proof (LossFacts.sum_logsigmoid_bump i d pos neg Hlen Hi Hd) as Hsum.
      rewrite !length_map, !map2_length by assumption.
      rewrite LossFacts.bump_length.
      assert (Hn : (0 < INR (length pos))%R) by (apply lt_0_INR; lia).
      apply Ropp_lt_contravar. unfold Rdiv.
      apply Rmult_lt_compat_r; [now apply Rinv_0_lt_compat | exact Hsum]. }
    destruct (Req_dec_T lambda_reg 0) as [Hz|Hnz].
    + eexists. eexists. split; [reflexivity|]. split; [reflexivity|]. lra.
    + destruct params as [emb|].
      * eexists. eexists. split; [reflexivity|]. split; [reflexivity|]. lra.
      * destruct Hreg as [Hz|Hp]; [contradiction | now elim Hp].
  - rewrite (Float32Facts.BPRLoss_forward_float32_value lambda_reg pos neg params Hlen).
    rewrite (Float32Facts.BPRLoss_forward_float32_value lambda_reg _ neg params Hlen').
    rewrite LossFacts.bump_length.
    assert (Hlp : (Float32.round (- Float32.log_prob (LossSpec.bump i d pos) neg)
                   <= Float32.round (- Float32.log_prob pos neg))%R).
    { apply Float32Facts.round_monotone, Ropp_le_contravar.
      apply Float32Facts.log_prob_monotone, Float32Facts.diffs_bump_pos. lra. }
    destruct (Req_dec_T lambda_reg 0) as [Hz|Hnz].
    + eexists. eexists. split; [reflexivity|]. split; [reflexivity|].
      apply Float32Facts.round_monotone. lra.
    + destruct params as [emb|].
      * eexists. eexists. split; [reflexivity|]. split; [reflexivity|].
        apply Float32Facts.round_monotone. lra.
      * destruct Hreg as [Hz|Hp]; [contradiction | now elim Hp].
Qed.

Lemma BPRLoss_does_not_increase_in_pos_rank_witness :
  (exists a b,
     BPRLoss_forward (1 / 10000) (T1 [2; 1]%R) (T1 [0; 0]%R)
       (Some (T2 Demo.table)) = Ok (T0 a) /\
     BPRLoss_forward (1 / 10000) (T1 [2 + 1; 1]%R) (T1 [0; 0]%R)
       (Some (T2 Demo.table)) = Ok (T0 b) /\
     (b < a)%R) /\
  (exists a b,
     BPRLoss_forward (Api := float32) (1 / 10000) (T1 [2; 1]%R) (T1 [0; 0]%R)
       (Some (T2 Demo.table)) = Ok (T0 a) /\
     BPRLoss_forward (Api := float32) (1 / 10000) (T1 [2 + 1; 1]%R)
       (T1 [0; 0]%R) (Some (T2 Demo.table)) = Ok (T0 b) /\
     (b <= a)%R).
Proof.
  apply (BPRLoss_does_not_increase_in_pos_rank (1 / 10000)
           (Some (T2 Demo.table)) [2; 1]%R [0; 0]%R 0 1 eq_refl).
  - simpl. lia.
  - lra.
  - right. discriminate.
Defined.

(** C8, as stated, fails on float32 tensors: against the negative rank 0,
    the positive rank 200 and the positive rank 200 + 1 both give the loss
    0, because [F.logsigmoid] of 200 and of 201 is stored as 0: the
    increase by 1 does not decrease the loss. *)
Lemma BPRLoss_float32_saturates :
  exists a b,
    BPRLoss_forward (Api := float32) 0 (T1 [200%R]) (T1 [0%R]) None
      = Ok (T0 a) /\
    BPRLoss_forward (Api := float32) 0 (T1 (LossSpec.bump 0 1 [200%R]))
      (T1 [0%R]) None = Ok (T0 b) /\
    a = 0%R /\ b = 0%R /\ ~ (b < a)%R.
Proof.
  rewrite (Float32Facts.BPRLoss_forward_float32_value 0 [200%R] [0%R] None eq_refl).
  rewrite (Float32Facts.BPRLoss_forward_float32_value 0 (LossSpec.bump 0 1 [200%R])
             [0%R] None eq_refl).
  destruct (Req_dec_T 0 0) as [_|Hnz]; [|now elim Hnz].
  eexists. eexists. split; [reflexivity|]. split; [reflexivity|].
  assert (Ha : Float32.round
                 (Float32.round (- Float32.log_prob [200%R] [0%R]) + 0) = 0%R).
  { apply Float32Facts.loss_saturated. simpl. constructor; [lra | constructor]. }
  assert (Hb : Float32.round
                 (Float32.round
                    (- Float32.log_prob (LossSpec.bump 0 1 [200%R]) [0%R]) + 0)
               = 0%R).
  { apply Float32Facts.loss_saturated. simpl. constructor; [lra | constructor]. }
  rewrite Ha, Hb. split; [reflexivity|]. split; [reflexivity | lra].
Qed.

(* ===================================================================== *)
(** * The methods by reference: what they leave unchanged *)
(* ===================================================================== *)

Module HeapFacts.

Lemma extends_refl (s : Store) : extends s s.
Proof. split; [exists []; now rewrite app_nil_r | reflexivity]. Qed.

Lemma extends_trans (s1 s2 s3 : Store) :
  extends s1 s2 -> extends s2 s3 -> extends s1 s3.
Proof.
  intros [[n1 H1] R1] [[n2 H2] R2]. split.
  - exists (n1 ++ n2). rewrite H2, H1. now rewrite app_assoc.
  - congruence.
Qed.

Lemma extends_lookup (s s' : Store) (l : loc) :
  extends s s' -> (l < length (cells s))%nat -> lookup s' l = lookup s l.
Proof.
  intros [[new H] _] Hl. unfold lookup. rewrite H. now apply nth_error_app1.
Qed.

Lemma ao_ret {A : Type} (a : A) : allocates_only (ret a).
Proof. intros s. apply extends_refl. Qed.

Lemma ao_raise {A : Type} (e : PyError) : allocates_only (raise (A := A) e).
Proof. intros s. apply extends_refl. Qed.

Lemma ao_liftE {A : Type} (m : Exc A) : allocates_only (liftE m).
Proof. destruct m; [apply ao_ret | apply ao_raise]. Qed.

Lemma ao_bind {A B : Type} (m : HM A) (f : A -> HM B) :
  allocates_only m -> (forall a, allocates_only (f a)) ->
  allocates_only (bind m f).
Proof.
  intros Hm Hf s. specialize (Hm s). cbn [bind HM_monad].
  destruct (m s) as [[a|e] s1]; simpl in Hm.
  - eapply extends_trans; [exact Hm | apply Hf].
  - exact Hm.
Qed.

Lemma ao_read (l : loc) : allocates_only (read l).
Proof.
  intros s. unfold read. destruct (nth_error (cells s) l); apply extends_refl.
Qed.

Lemma ao_alloc (t : Tensor) : allocates_only (alloc t).
Proof. intros s. split; [exists [t]; reflexivity | reflexivity]. Qed.

Lemma ao_new1 (f : Tensor -> Exc Tensor) (x : loc) : allocates_only (new1 f x).
Proof.
  cbn [new1 by_reference]. apply ao_bind; [apply ao_read|]. intros t.
  apply ao_bind; [apply ao_liftE|]. intros v. apply ao_alloc.
Qed.

Lemma ao_new2 (f : Tensor -> Tensor -> Exc Tensor) (x y : loc) :
  allocates_only (new2 f x y).
Proof.
  cbn [new2 by_reference]. apply ao_bind; [apply ao_read|]. intros t.
  apply ao_bind; [apply ao_read|]. intros u.
  apply ao_bind; [apply ao_liftE|]. intros v. apply ao_alloc.
Qed.

Lemma ao_new_pair (f : Tensor -> Exc (Tensor * Tensor)) (x : loc) :
  allocates_only (new_pair f x).
Proof.
  cbn [new_pair by_reference]. apply ao_bind; [apply ao_read|]. intros t.
  apply ao_bind; [apply ao_liftE|]. intros p.
  apply ao_bind; [apply ao_alloc|]. intros a.
  apply ao_bind; [apply ao_alloc|]. intros b. apply ao_ret.
Qed.

Lemma ao_peek {A : Type} (f : Tensor -> Exc A) (x : loc) : allocates_only (peek f x).
Proof.
  cbn [peek by_reference]. apply ao_bind; [apply ao_read|]. intros t.
  apply ao_liftE.
Qed.

Lemma ao_for_each {A S : Type} (l : list A) (body : A -> S -> HM S) (s0 : S) :
  (forall a s, allocates_only (body a s)) -> allocates_only (for_each l body s0).
Proof.
  intros Hb. revert s0. induction l as [|a l IH]; intros s0; simpl.
  - apply ao_ret.
  - apply ao_bind; [apply Hb | exact IH].
Qed.

Create HintDb alloc_only.
#[global] Hint Resolve ao_ret ao_raise ao_liftE ao_read ao_alloc ao_new1 ao_new2
  ao_new_pair ao_peek : alloc_only.

(** Step through a computation written with the operations above. *)
Ltac ao_step :=
  match goal with
  | |- allocates_only (bind _ _) => apply ao_bind; [|intros ?]
  | |- allocates_only (for_range _ _ _) => apply ao_for_each; intros ? ?
  | |- allocates_only (match ?x with (_, _) => _ end) => destruct x
  | |- allocates_only (match ?x with Some _ => _ | None => _ end) => destruct x
  | |- allocates_only (match ?x with EdgeIndex _ => _ | SparseAdj _ _ _ => _ end) =>
      destruct x
  | |- allocates_only (if ?b then _ else _) => destruct b
  | |- allocates_only _ => solve [auto with alloc_only]
  end.

Section Methods.
Variable LGConv : LGConv_t.

Lemma ao_get_embedding_layers (self : AIM_LightGCN loc) g w :
  allocates_only (get_embedding_layers LGConv self g w).
Proof. unfold get_embedding_layers. repeat ao_step. Qed.

Lemma ao_get_embedding (self : AIM_LightGCN loc) g w nu ni sf :
  allocates_only (get_embedding LGConv self g w nu ni sf).
Proof.
  unfold get_embedding.
  apply ao_bind; [apply ao_get_embedding_layers | intros ?].
  repeat ao_step.
Qed.

Lemma ao_forward (self : AIM_LightGCN loc) g eli nu ni sf w :
  allocates_only (forward LGConv self g eli nu ni sf w).
Proof.
  unfold forward.
  apply ao_bind; [repeat ao_step | intros ?].
  apply ao_bind; [apply ao_get_embedding | intros ?].
  repeat ao_step.
Qed.

Lemma ao_recommend (self : AIM_LightGCN loc) g w src dst k sorted :
  allocates_only (recommend LGConv self g w src dst k sorted).
Proof.
  unfold recommend.
  apply ao_bind; [apply ao_get_embedding | intros ?].
  repeat ao_step.
Qed.

End Methods.

Lemma ao_BPRLoss_forward (lambda_reg : R) (p n : loc) (params : option loc) :
  allocates_only (BPRLoss_forward lambda_reg p n params).
Proof. unfold BPRLoss_forward. repeat ao_step. Qed.

Lemma ao_recommendation_loss (self : AIM_LightGCN loc) (p n : loc) node_id lambda_reg :
  allocates_only (recommendation_loss self p n node_id lambda_reg).
Proof.
  unfold recommendation_loss.
  apply ao_bind; [repeat ao_step | intros ?]. apply ao_BPRLoss_forward.
Qed.

Lemma extends_model_state (s s' : Store) (self : AIM_LightGCN loc) :
  allocated s self -> extends s s' -> model_state s' self = model_state s self.
Proof.
  intros (He & Hb & Ha) Hext. unfold model_state.
  now rewrite !(extends_lookup s s' _ Hext) by assumption.
Qed.

End HeapFacts.

(** C10.  [get_embedding], [forward] and [recommendation_loss] only
    allocate new tensors: whatever their arguments and whether they return
    or raise, the store after the call is the store before it followed by
    the new tensors, and the embedding table, the bias table and the alpha
    vector of the model are what they were. *)
Theorem methods_leave_the_model_unchanged
  (LGConv : LGConv_t) (self : AIM_LightGCN loc) (s : Store)
  (g : Adj) (w : option Tensor) (eli : option Long2)
  (nu ni : option Z) (sf : option R)
  (pos neg : loc) (node_id : option Long1) (lambda_reg : R) :
  allocated s self ->
  let s1 := snd (get_embedding LGConv self g w nu ni sf s) in
  let s2 := snd (forward LGConv self g eli nu ni sf w s) in
  let s3 := snd (recommendation_loss self pos neg node_id lambda_reg s) in
  (extends s s1 /\ model_state s1 self = model_state s self) /\
  (extends s s2 /\ model_state s2 self = model_state s self) /\
  (extends s s3 /\ model_state s3 self = model_state s self).
Proof.
  intros Hall s1 s2 s3.
  assert (H1 : extends s s1) by apply HeapFacts.ao_get_embedding.
  assert (H2 : extends s s2) by apply HeapFacts.ao_forward.
  assert (H3 : extends s s3) by apply HeapFacts.ao_recommendation_loss.
  repeat split; try assumption; try (apply H1 || apply H2 || apply H3);
    now apply HeapFacts.extends_model_state.
Qed.

Lemma methods_leave_the_model_unchanged_witness :
  allocated DemoRef.store DemoRef.model /\
  model_state
    (snd (get_embedding Propagation.propagate DemoRef.model Demo.graph None
            (Some 2%Z) (Some 2%Z) (Some 1%R) DemoRef.store)) DemoRef.model
  = model_state DemoRef.store DemoRef.model /\
  model_state
    (snd (forward Propagation.propagate DemoRef.model Demo.graph
            (Some Demo.labels) (Some 2%Z) (Some 2%Z) (Some 1%R) None
            DemoRef.store)) DemoRef.model
  = model_state DemoRef.store DemoRef.model /\
  model_state
    (snd (recommendation_loss DemoRef.model 3%nat 4%nat None (1 / 10000)%R
            DemoRef.store)) DemoRef.model
  = model_state DemoRef.store DemoRef.model.
Proof.
  assert (Hall : allocated DemoRef.store DemoRef.model)
    by (unfold allocated; simpl; lia).
  split; [exact Hall|].
  destruct (methods_leave_the_model_unchanged Propagation.propagate
              DemoRef.model DemoRef.store Demo.graph None (Some Demo.labels)
              (Some 2%Z) (Some 2%Z) (Some 1%R) 3%nat 4%nat None (1 / 10000)%R
              Hall) as ((_ & H1) & (_ & H2) & (_ & H3)).
  split; [exact H1|]. split; [exact H2 | exact H3].
Defined.

(* ===================================================================== *)
(** * Construction *)
(* ===================================================================== *)

Module InitFacts.

Lemma nth_error_write {A : Type} (c : list A) (w l : nat) (t : A) :
  (w < length c)%nat -> l <> w ->
  nth_error (firstn w c ++ t :: skipn (S w) c) l = nth_error c l.
Proof.
  intros Hw Hl.
  assert (Hf : length (firstn w c) = w) by (apply firstn_length_le; lia).
  destruct (Nat.lt_ge_cases l w) as [Hlt|Hge].
  - rewrite nth_error_app1 by lia. rewrite nth_error_firstn.
    now replace (l <? w)%nat with true by (symmetry; now apply Nat.ltb_lt).
  - rewrite nth_error_app2 by lia. rewrite Hf.
    destruct (l - w)%nat as [|k] eqn:Ek; [lia|]. cbn [nth_error].
    rewrite nth_error_skipn. f_equal. lia.
Qed.

Lemma nth_error_write_same {A : Type} (c : list A) (w : nat) (t : A) :
  (w < length c)%nat ->
  nth_error (firstn w c ++ t :: skipn (S w) c) w = Some t.
Proof.
  intros Hw.
  assert (Hf : length (firstn w c) = w) by (apply firstn_length_le; lia).
  rewrite nth_error_app2 by lia. rewrite Hf, Nat.sub_diag. reflexivity.
Qed.

Lemma length_write {A : Type} (c : list A) (w : nat) (t : A) :
  (w < length c)%nat -> length (firstn w c ++ t :: skipn (S w) c) = length c.
Proof.
  intros Hw. rewrite length_app, firstn_length_le by lia. cbn [length].
  rewrite length_skipn. lia.
Qed.

Lemma nth_error_past {A : Type} (c ext : list A) (k : nat) :
  nth_error (c ++ ext) (length c + k) = nth_error ext k.
Proof. induction c as [|a c IH]; simpl; [reflexivity | exact IH]. Qed.

Lemma sample_matrix_rows (g : nat -> nat -> nat -> R) (seed rows cols : nat) :
  length (sample_matrix g seed rows cols) = rows.
Proof. unfold sample_matrix. now rewrite length_map, length_seq. Qed.

Section Init.
Local Open Scope R_scope.
Variables normal_sample xavier_sample : nat -> nat -> nat -> R.

(** In-place initialisation of a table: the table is replaced, every
    other tensor is kept. *)
Lemma xavier_uniform_run (fan_in : nat) (w : loc) (m : list (list R)) (s : Store) :
  lookup s w = Some (T2 m) -> (0 < fan_in + length m)%nat ->
  exists s',
    xavier_uniform_ xavier_sample fan_in w s = (Ok tt, s') /\
    length (cells s') = length (cells s) /\
    lookup s' w = Some (T2 (sample_matrix xavier_sample (rng s) (length m) fan_in)) /\
    forall l, l <> w -> lookup s' l = lookup s l.
Proof.
  intros Hw Hfan. unfold xavier_uniform_, read, lookup in *.
  cbn [bind HM_monad]. rewrite Hw.
  destruct (fan_in + length m =? 0)%nat eqn:E; [apply Nat.eqb_eq in E; lia|].
  unfold next_rng, write. cbn [bind HM_monad]. cbn [cells rng].
  assert (Hlt : (w < length (cells s))%nat).
  { apply nth_error_Some. congruence. }
  replace (w <? length (cells s))%nat with true
    by (symmetry; now apply Nat.ltb_lt).
  eexists. split; [reflexivity|]. cbn [cells]. split; [|split].
  - now apply length_write.
  - now apply nth_error_write_same.
  - intros l Hl. now apply nth_error_write.
Qed.

Lemma init_split (nn d L : nat) (alpha : AlphaArg) :
  AIM_LightGCN_init normal_sample xavier_sample nn d L alpha
  = (a <- init_alpha L alpha ;;
     init_tables normal_sample xavier_sample nn d L a).
Proof. reflexivity. Qed.

Lemma bind_run_ok {A B : Type} (m : HM A) (f : A -> HM B) (s s1 : Store) (a : A) :
  m s = (Ok a, s1) -> bind m f s = f a s1.
Proof. intros H. cbn [bind HM_monad]. now rewrite H. Qed.

Lemma bind_run_raise {A B : Type} (m : HM A) (f : A -> HM B) (s s1 : Store) e :
  m s = (Raise e, s1) -> bind m f s = (Raise e, s1).
Proof. intros H. cbn [bind HM_monad]. now rewrite H. Qed.

(** The tables are created after every existing tensor, and initialised
    in place. *)
Lemma init_tables_run (nn d L : nat) (a : loc) (s : Store) :
  (0 < nn + d)%nat ->
  exists e b s',
    init_tables normal_sample xavier_sample nn d L a s
    = (Ok {| num_nodes := nn; embedding_dim := d; num_layers := L;
             alpha := a; embedding_weight := e; beta_weight := b |}, s') /\
    e = length (cells s) /\ b = S (length (cells s)) /\
    (forall l, (l < length (cells s))%nat -> lookup s' l = lookup s l) /\
    lookup s' e = Some (T2 (sample_matrix xavier_sample (S (S (rng s))) nn d)) /\
    lookup s' b = Some (T2 (sample_matrix xavier_sample (S (S (S (rng s)))) nn 1)).
Proof.
  intros Hpos.
  unfold init_tables, Embedding. cbn [bind HM_monad next_rng alloc cells rng ret].
  set (s2 := {| cells := (cells s ++ [T2 (sample_matrix normal_sample (rng s) nn d)])
                         ++ [T2 (sample_matrix normal_sample (S (rng s)) nn 1)];
                rng := S (S (rng s)) |}).
  rewrite length_app. cbn [length]. rewrite Nat.add_1_r.
  unfold reset_parameters.
  cbn [bind HM_monad embedding_weight beta_weight embedding_dim num_layers].
  assert (He : lookup s2 (length (cells s))
               = Some (T2 (sample_matrix normal_sample (rng s) nn d))).
  { unfold lookup, s2. cbn [cells]. rewrite <- app_assoc.
    rewrite <- (Nat.add_0_r (length (cells s))).
    now rewrite nth_error_past. }
  destruct (xavier_uniform_run d (length (cells s)) _ s2 He)
    as (s3 & Hrun3 & Hlen3 & Hnew3 & Hkeep3).
  { rewrite sample_matrix_rows. lia. }
  fold s2. rewrite Hrun3.
  assert (Hb : lookup s3 (S (length (cells s)))
               = Some (T2 (sample_matrix normal_sample (S (rng s)) nn 1))).
  { rewrite Hkeep3 by lia. unfold lookup, s2. cbn [cells]. rewrite <- app_assoc.
    rewrite <- (Nat.add_1_r (length (cells s))).
    now rewrite nth_error_past. }
  assert (Hrng3 : rng s3 = S (S (S (rng s)))).
  { revert Hrun3. unfold xavier_uniform_, read. cbn [bind HM_monad].
    unfold lookup in He. rewrite He.
    destruct (d + _ =? 0)%nat; [discriminate|].
    unfold next_rng, write. cbn [bind HM_monad]. cbn [cells rng].
    destruct (_ <? _)%nat; [|discriminate].
    intros Heq. injection Heq as <-. reflexivity. }
  destruct (xavier_uniform_run 1 (S (length (cells s))) _ s3 Hb)
    as (s4 & Hrun4 & Hlen4 & Hnew4 & Hkeep4).
  { lia. }
  rewrite Hrun4.
  assert (Hloop : for_range L (fun (_ : nat) (u : unit) => ret (M := HM) u) tt s4
                  = (Ok tt, s4)).
  { unfold for_range. generalize (seq 0 L). intros l.
    induction l as [|x l IH]; simpl; [reflexivity | exact IH]. }
  rewrite Hloop.
  eexists. eexists. eexists. split; [reflexivity|].
  split; [reflexivity|]. split; [reflexivity|]. split; [|split].
  - intros l Hl. rewrite Hkeep4, Hkeep3 by lia.
    unfold lookup, s2. cbn [cells]. rewrite <- app_assoc. now apply nth_error_app1.
  - rewrite Hkeep4 by lia. rewrite Hnew3, sample_matrix_rows. reflexivity.
  - rewrite Hnew4, sample_matrix_rows, Hrng3. reflexivity.
Qed.

End Init.
End InitFacts.

(** C6.  An alpha tensor whose length differs from [num_layers + 1] makes
    [__init__] fail, on its assertion and before anything is created; an
    alpha tensor of length [num_layers + 1] is accepted and is the very
    tensor that the model keeps (the tables being of a size that the
    initialiser accepts, that is, not 0 x 0). *)
Theorem init_checks_alpha_length
  (normal_sample xavier_sample : nat -> nat -> nat -> R)
  (nn d L : nat) (t : loc) (v : list R) (s : Store) :
  lookup s t = Some (T1 v) ->
  (length v <> (L + 1)%nat ->
   AIM_LightGCN_init normal_sample xavier_sample nn d L (AlphaTensor t) s
   = (Raise AssertionError, s)) /\
  (length v = (L + 1)%nat -> (0 < nn + d)%nat ->
   exists self s',
     AIM_LightGCN_init normal_sample xavier_sample nn d L (AlphaTensor t) s
     = (Ok self, s') /\
     alpha self = t /\ lookup s' t = Some (T1 v)).
Proof.
  intros Ht. rewrite InitFacts.init_split.
  assert (Hsize : peek Torch.size0 t s = (Ok (length v), s)).
  { cbn [peek by_reference bind HM_monad]. unfold read.
    unfold lookup in Ht. now rewrite Ht. }
  split.
  - intros Hne. apply InitFacts.bind_run_raise.
    unfold init_alpha. rewrite (InitFacts.bind_run_ok _ _ _ _ _ Hsize).
    apply Nat.eqb_neq in Hne. now rewrite Hne.
  - intros Heq Hpos.
    destruct (InitFacts.init_tables_run normal_sample xavier_sample nn d L t s Hpos)
      as (e & b & s' & Hrun & _ & _ & Hkeep & _ & _).
    assert (Halpha : init_alpha L (AlphaTensor t) s = (Ok t, s)).
    { unfold init_alpha. rewrite (InitFacts.bind_run_ok _ _ _ _ _ Hsize).
      apply Nat.eqb_eq in Heq. now rewrite Heq. }
    rewrite (InitFacts.bind_run_ok _ _ _ _ _ Halpha), Hrun.
    eexists. eexists. split; [reflexivity|].
    split; [reflexivity|]. rewrite Hkeep; [exact Ht|].
    apply nth_error_Some. unfold lookup in Ht. congruence.
Qed.

Lemma init_checks_alpha_length_witness :
  AIM_LightGCN_init InitDemo.normal_sample InitDemo.xavier_sample 4 2 1
    (AlphaTensor 0%nat) InitDemo.store = (Raise AssertionError, InitDemo.store) /\
  exists self s',
    AIM_LightGCN_init InitDemo.normal_sample InitDemo.xavier_sample 4 2 2
      (AlphaTensor 0%nat) InitDemo.store = (Ok self, s') /\
    alpha self = 0%nat /\
    lookup s' 0%nat = Some (T1 [1 / 2; 3 / 10; 1 / 5]%R).
Proof.
  split.
  - apply (init_checks_alpha_length InitDemo.normal_sample
             InitDemo.xavier_sample 4 2 1 0%nat _ InitDemo.store eq_refl).
    simpl. lia.
  - apply (init_checks_alpha_length InitDemo.normal_sample
             InitDemo.xavier_sample 4 2 2 0%nat _ InitDemo.store eq_refl).
    + reflexivity.
    + lia.
Defined.

Lemma vsum_repeat (c : R) (n : nat) : Torch.vsum (repeat c n) = (INR n * c)%R.
Proof.
  induction n as [|n IH].
  - simpl. ring.
  - rewrite S_INR. cbn [repeat Torch.vsum fold_right].
    unfold Torch.vsum in IH. rewrite IH. ring.
Qed.

(** C9.  When no alpha is given, the alpha vector of the constructed model
    has [num_layers + 1] entries, each of them [1 / (num_layers + 1)], and
    they sum to 1 (the tables being of a size that the initialiser
    accepts). *)
Theorem init_default_alpha
  (normal_sample xavier_sample : nat -> nat -> nat -> R)
  (nn d L : nat) (s : Store) :
  (0 < nn + d)%nat ->
  exists self s' a,
    AIM_LightGCN_init normal_sample xavier_sample nn d L AlphaNone s
    = (Ok self, s') /\
    lookup s' (alpha self) = Some (T1 a) /\
    length a = (L + 1)%nat /\
    Forall (fun x => x = (1 / INR (L + 1))%R) a /\
    Torch.vsum a = 1%R.
Proof.
  intros Hpos. rewrite InitFacts.init_split.
  set (a := repeat (1 / INR (L + 1))%R (L + 1)).
  set (s1 := {| cells := cells s ++ [T1 a]; rng := rng s |}).
  destruct (InitFacts.init_tables_run normal_sample xavier_sample nn d L
              (length (cells s)) s1 Hpos)
    as (e & b & s' & Hrun & _ & _ & Hkeep & _ & _).
  assert (Halpha : init_alpha L AlphaNone s = (Ok (length (cells s)), s1))
    by reflexivity.
  rewrite (InitFacts.bind_run_ok _ _ _ _ _ Halpha), Hrun.
  eexists. eexists. exists a. split; [reflexivity|].
  cbn [alpha]. split; [|split; [|split]].
  - rewrite Hkeep by (unfold s1; cbn [cells]; rewrite length_app; simpl; lia).
    unfold lookup, s1. cbn [cells].
    rewrite <- (Nat.add_0_r (length (cells s))).
    now rewrite InitFacts.nth_error_past.
  - apply repeat_length.
  - apply Forall_forall. intros x Hx. now apply repeat_spec in Hx.
  - unfold a. rewrite vsum_repeat.
    assert (Hn : INR (L + 1) <> 0%R) by (apply not_0_INR; lia).
    now field.
Qed.

Lemma init_default_alpha_witness :
  exists self s',
    AIM_LightGCN_init InitDemo.normal_sample InitDemo.xavier_sample 4 2 1
      AlphaNone InitDemo.store = (Ok self, s') /\
    lookup s' (alpha self) = Some (T1 [1 / INR 2; 1 / INR 2]%R) /\
    Torch.vsum [1 / INR 2; 1 / INR 2]%R = 1%R.
Proof.
  destruct (init_default_alpha InitDemo.normal_sample InitDemo.xavier_sample
              4 2 1 InitDemo.store) as (self & s' & a & Hrun & Ha & Hl & Hall & Hsum).
  - lia.
  - exists self, s'. split; [exact Hrun|].
    assert (Hv : a = [1 / INR 2; 1 / INR 2]%R).
    { destruct a as [|x [|y [|z a]]]; try discriminate.
      inversion Hall as [|? ? Hx Hall']; subst.
      inversion Hall' as [|? ? Hy _]; subst. reflexivity. }
    rewrite <- Hv. split; [exact Ha | exact Hsum].
Defined.

(* ===================================================================== *)
(** * What [__init__] builds, and [reset_parameters] *)
(* ===================================================================== *)

Lemma sample_matrix_cols (g : nat -> nat -> nat -> R) (seed rows cols : nat) :
  Forall (fun r => length r = cols) (sample_matrix g seed rows cols).
Proof.
  unfold sample_matrix. apply Forall_forall. intros r Hr.
  apply in_map_iff in Hr. destruct Hr as (i & <- & _).
  now rewrite length_map, length_seq.
Qed.

(** The model that [__init__] builds without an [alpha] is well formed:
    read from the store, it is a model to which the results by value
    apply. *)
Lemma init_builds_well_formed_model
  (normal_sample xavier_sample : nat -> nat -> nat -> R)
  (nn d L : nat) (s : Store) :
  (0 < nn + d)%nat ->
  exists self s' v,
    AIM_LightGCN_init normal_sample xavier_sample nn d L AlphaNone s
    = (Ok self, s') /\
    model_holds s' self v /\ wf_model v /\
    num_nodes v = nn /\ embedding_dim v = d /\ num_layers v = L.
Proof.
  intros Hpos. rewrite InitFacts.init_split.
  set (a := repeat (1 / INR (L + 1))%R (L + 1)).
  set (s1 := {| cells := cells s ++ [T1 a]; rng := rng s |}).
  destruct (InitFacts.init_tables_run normal_sample xavier_sample nn d L
              (length (cells s)) s1 Hpos)
    as (e & b & s' & Hrun & _ & _ & Hkeep & He & Hb).
  assert (Halpha : init_alpha L AlphaNone s = (Ok (length (cells s)), s1))
    by reflexivity.
  rewrite (InitFacts.bind_run_ok _ _ _ _ _ Halpha), Hrun.
  eexists. eexists.
  exists {| num_nodes := nn; embedding_dim := d; num_layers := L;
            alpha := T1 a;
            embedding_weight :=
              T2 (sample_matrix xavier_sample (S (S (rng s1))) nn d);
            beta_weight :=
              T2 (sample_matrix xavier_sample (S (S (S (rng s1)))) nn 1) |}.
  split; [reflexivity|]. split; [|split].
  - unfold model_holds, holds. cbn [num_layers alpha embedding_weight beta_weight].
    split; [reflexivity|]. split; [|split; assumption].
    rewrite Hkeep by (unfold s1; cbn [cells]; rewrite length_app; simpl; lia).
    unfold lookup, s1. cbn [cells].
    rewrite <- (Nat.add_0_r (length (cells s))).
    now rewrite InitFacts.nth_error_past.
  - unfold wf_model.
    cbn [num_nodes embedding_dim num_layers alpha embedding_weight beta_weight].
    split; [|split].
    + eexists. split; [reflexivity|].
      split; [apply InitFacts.sample_matrix_rows | apply sample_matrix_cols].
    + eexists. split; [reflexivity|].
      split; [apply InitFacts.sample_matrix_rows | apply sample_matrix_cols].
    + exists a. split; [reflexivity | apply repeat_length].
  - repeat split.
Qed.

(** [reset_parameters], by contrast, works in place: it allocates nothing
    and replaces both tables by fresh draws. *)
Lemma reset_parameters_in_place
  (xavier_sample : nat -> nat -> nat -> R)
  (self : AIM_LightGCN loc) (s : Store) (E B : list (list R)) :
  lookup s (embedding_weight self) = Some (T2 E) ->
  lookup s (beta_weight self) = Some (T2 B) ->
  embedding_weight self <> beta_weight self ->
  (0 < embedding_dim self + length E)%nat ->
  exists s',
    reset_parameters xavier_sample self s = (Ok tt, s') /\
    length (cells s') = length (cells s) /\
    lookup s' (embedding_weight self)
    = Some (T2 (sample_matrix xavier_sample (rng s) (length E) (embedding_dim self))) /\
    lookup s' (beta_weight self)
    = Some (T2 (sample_matrix xavier_sample (S (rng s)) (length B) 1)).
Proof.
  intros HE HB Hne Hpos. unfold reset_parameters.
  destruct (InitFacts.xavier_uniform_run xavier_sample (embedding_dim self)
              (embedding_weight self) E s HE Hpos)
    as (s1 & Hrun1 & Hlen1 & Hnew1 & Hkeep1).
  assert (Hrng1 : rng s1 = S (rng s)).
  { revert Hrun1. unfold xavier_uniform_, read. cbn [bind HM_monad].
    unfold lookup in HE. rewrite HE.
    destruct (_ + _ =? 0)%nat; [discriminate|].
    unfold next_rng, write. cbn [bind HM_monad]. cbn [cells rng].
    destruct (_ <? _)%nat; [|discriminate].
    intros Heq. injection Heq as <-. reflexivity. }
  assert (HB1 : lookup s1 (beta_weight self) = Some (T2 B)).
  { rewrite Hkeep1; [exact HB | congruence]. }
  destruct (InitFacts.xavier_uniform_run xavier_sample 1
              (beta_weight self) B s1 HB1)
    as (s2 & Hrun2 & Hlen2 & Hnew2 & Hkeep2); [lia|].
  rewrite (InitFacts.bind_run_ok _ _ _ _ _ Hrun1).
  rewrite (InitFacts.bind_run_ok _ _ _ _ _ Hrun2).
  assert (Hloop : for_range (num_layers self)
                    (fun (_ : nat) (u : unit) => ret (M := HM) u) tt s2
                  = (Ok tt, s2)).
  { unfold for_range. generalize (seq 0 (num_layers self)). intros l.
    induction l as [|x l IH]; simpl; [reflexivity | exact IH]. }
  rewrite Hloop. exists s2. split; [reflexivity|].
  split; [congruence|]. split.
  - rewrite Hkeep2 by exact Hne. exact Hnew1.
  - rewrite Hnew2, Hrng1. reflexivity.
Qed.

(* ===================================================================== *)
(** * By reference, the methods compute what they compute by value *)
(* ===================================================================== *)

Module Refinement.
Import HeapFacts.

Lemma holds_stable : stable holds.
Proof.
  intros s s' l t Hext H. unfold holds in *.
  rewrite (extends_lookup s s' l Hext); [exact H|].
  apply nth_error_Some. unfold lookup in H. congruence.
Qed.

Lemma holds2_stable : stable holds2.
Proof.
  intros s s' p q Hext [H1 H2]. split; eapply holds_stable; eassumption.
Qed.

Lemma holds_opt_stable : stable holds_opt.
Proof.
  intros s s' [x|] [x'|] Hext H; try exact H.
  eapply holds_stable; eassumption.
Qed.

Lemma model_holds_stable : stable model_holds.
Proof.
  intros s s' h v Hext (Hn & Ha & He & Hb).
  repeat split; try assumption; eapply holds_stable; eassumption.
Qed.

Lemma refines_ret {A B : Type} (Rel : Store -> A -> B -> Prop) s (a : A) (b : B) :
  Rel s a b -> refines Rel s (ret a) (ret b).
Proof.
  intros H. exists a, s. split; [reflexivity|].
  split; [apply extends_refl | exact H].
Qed.

Lemma refines_raise {A B : Type} (Rel : Store -> A -> B -> Prop) s (e : PyError) :
  refines Rel s (raise e) (raise e).
Proof. exists s. split; [reflexivity | apply extends_refl]. Qed.

Lemma refines_liftE {A : Type} s (m : Exc A) : refines same s (liftE m) (liftE m).
Proof.
  destruct m as [a|e]; [apply refines_ret; reflexivity | apply refines_raise].
Qed.

Lemma refines_bind {A A' B B' : Type}
  (Rel : Store -> A -> A' -> Prop) (Rel' : Store -> B -> B' -> Prop)
  s (m : HM A) (v : Exc A') (f : A -> HM B) (g : A' -> Exc B') :
  refines Rel s m v ->
  (forall s' a a', extends s s' -> Rel s' a a' -> refines Rel' s' (f a) (g a')) ->
  refines Rel' s (bind m f) (bind v g).
Proof.
  intros Hm Hf. destruct v as [a'|e]; cbn [bind Exc_monad].
  - destruct Hm as (a & s1 & Hrun & Hext & Hrel).
    specialize (Hf s1 a a' Hext Hrel).
    assert (Hb : bind m f s = f a s1) by (cbn [bind HM_monad]; now rewrite Hrun).
    unfold refines in *. destruct (g a') as [b'|e].
    + destruct Hf as (b & s2 & Hrun2 & Hext2 & Hrel2).
      exists b, s2. rewrite Hb. split; [exact Hrun2|].
      split; [eapply extends_trans; eassumption | exact Hrel2].
    + destruct Hf as (s2 & Hrun2 & Hext2).
      exists s2. rewrite Hb. split; [assumption | eapply extends_trans; eassumption].
  - destruct Hm as (s1 & Hrun & Hext).
    exists s1. cbn [bind HM_monad]. rewrite Hrun. split; [reflexivity | exact Hext].
Qed.

Lemma run_read s l t : holds s l t -> read l s = (Ok t, s).
Proof. intros H. unfold read. unfold holds, lookup in H. now rewrite H. Qed.

Lemma holds_alloc s t :
  holds {| cells := cells s ++ [t]; rng := rng s |} (length (cells s)) t.
Proof.
  unfold holds, lookup. cbn [cells].
  rewrite nth_error_app2 by lia. now rewrite Nat.sub_diag.
Qed.

Lemma extends_push s t : extends s (push s t).
Proof. apply (ao_alloc t s). Qed.

Lemma run_new1 s (f : Tensor -> Exc Tensor) (x : loc) (t : Tensor) :
  holds s x t ->
  new1 f x s = match f t with
               | Ok v => (Ok (length (cells s)), push s v)
               | Raise e => (Raise e, s)
               end.
Proof.
  intros H. cbn [new1 by_reference bind HM_monad]. rewrite (run_read s x t H).
  destruct (f t); reflexivity.
Qed.

Lemma run_new2 s (f : Tensor -> Tensor -> Exc Tensor) (x y : loc) (t u : Tensor) :
  holds s x t -> holds s y u ->
  new2 f x y s = match f t u with
                 | Ok v => (Ok (length (cells s)), push s v)
                 | Raise e => (Raise e, s)
                 end.
Proof.
  intros Hx Hy. cbn [new2 by_reference bind HM_monad].
  rewrite (run_read s x t Hx), (run_read s y u Hy).
  destruct (f t u); reflexivity.
Qed.

Lemma run_new_pair s (f : Tensor -> Exc (Tensor * Tensor)) (x : loc) (t : Tensor) :
  holds s x t ->
  new_pair f x s = match f t with
                   | Ok p => (Ok (length (cells s), S (length (cells s))),
                              push (push s (fst p)) (snd p))
                   | Raise e => (Raise e, s)
                   end.
Proof.
  intros H. cbn [new_pair by_reference bind HM_monad]. rewrite (run_read s x t H).
  destruct (f t) as [[a b]|e]; [|reflexivity].
  cbn [liftE ret HM_monad alloc fst snd cells rng]. unfold push. cbn [cells rng].
  rewrite length_app. cbn [length]. now rewrite Nat.add_1_r.
Qed.

Lemma run_peek {A : Type} s (f : Tensor -> Exc A) (x : loc) (t : Tensor) :
  holds s x t -> peek f x s = liftE (f t) s.
Proof.
  intros H. cbn [peek by_reference bind HM_monad]. now rewrite (run_read s x t H).
Qed.

Lemma refines_new1 s (f : Tensor -> Exc Tensor) (x : loc) (t : Tensor) :
  holds s x t -> refines holds s (new1 f x) (new1 f t).
Proof.
  intros H. unfold refines. rewrite (run_new1 s f x t H).
  cbn [new1 by_value]. destruct (f t) as [v|e].
  - eexists. eexists. split; [reflexivity|].
    split; [apply extends_push | apply holds_alloc].
  - eexists. split; [reflexivity | apply extends_refl].
Qed.

Lemma refines_new2 s (f : Tensor -> Tensor -> Exc Tensor) (x y : loc) (t u : Tensor) :
  holds s x t -> holds s y u -> refines holds s (new2 f x y) (new2 f t u).
Proof.
  intros Hx Hy. unfold refines. rewrite (run_new2 s f x y t u Hx Hy).
  cbn [new2 by_value]. destruct (f t u) as [v|e].
  - eexists. eexists. split; [reflexivity|].
    split; [apply extends_push | apply holds_alloc].
  - eexists. split; [reflexivity | apply extends_refl].
Qed.

Lemma refines_new_pair s (f : Tensor -> Exc (Tensor * Tensor)) (x : loc) (t : Tensor) :
  holds s x t -> refines holds2 s (new_pair f x) (new_pair f t).
Proof.
  intros H. unfold refines. rewrite (run_new_pair s f x t H).
  cbn [new_pair by_value]. destruct (f t) as [[a b]|e].
  - eexists. eexists. split; [reflexivity|]. cbn [fst snd]. split.
    + eapply extends_trans; apply extends_push.
    + split; cbn [fst snd].
      * eapply holds_stable; [apply extends_push | apply holds_alloc].
      * replace (S (length (cells s))) with (length (cells (push s a)))
          by (unfold push; cbn [cells]; rewrite length_app; simpl; lia).
        apply (holds_alloc (push s a) b).
  - eexists. split; [reflexivity | apply extends_refl].
Qed.

Lemma refines_peek {A : Type} s (f : Tensor -> Exc A) (x : loc) (t : Tensor) :
  holds s x t -> refines same s (peek f x) (peek f t).
Proof.
  intros H. unfold refines. rewrite (run_peek s f x t H).
  cbn [peek by_value]. destruct (f t) as [a|e].
  - exists a, s. split; [reflexivity|]. split; [apply extends_refl | reflexivity].
  - exists s. split; [reflexivity | apply extends_refl].
Qed.

Lemma refines_for_each {A S S' : Type} (Rel : Store -> S -> S' -> Prop)
  (l : list A) (bh : A -> S -> HM S) (bv : A -> S' -> Exc S') :
  (forall a s x y, Rel s x y -> refines Rel s (bh a x) (bv a y)) ->
  forall s x y, Rel s x y -> refines Rel s (for_each l bh x) (for_each l bv y).
Proof.
  intros Hb. induction l as [|a l IH]; intros s x y Hxy; simpl.
  - now apply refines_ret.
  - eapply refines_bind; [apply Hb; exact Hxy|].
    intros s' x' y' _ Hxy'. now apply IH.
Qed.

(** Carry what is known of the store across an extension. *)
Ltac carry Hext :=
  repeat match goal with
         | H : holds ?s _ _ |- _ =>
             match type of Hext with extends s _ =>
               apply (holds_stable _ _ _ _ Hext) in H end
         | H : holds2 ?s _ _ |- _ =>
             match type of Hext with extends s _ =>
               apply (holds2_stable _ _ _ _ Hext) in H end
         | H : holds_opt ?s _ _ |- _ =>
             match type of Hext with extends s _ =>
               apply (holds_opt_stable _ _ _ _ Hext) in H end
         | H : model_holds ?s _ _ |- _ =>
             match type of Hext with extends s _ =>
               apply (model_holds_stable _ _ _ _ Hext) in H end
         end.

(** One more statement of the method. *)
Tactic Notation "step" uconstr(Rel) ident(s') ident(x) ident(y) ident(H) :=
  eapply (refines_bind Rel);
  [ | let Hext := fresh "Hext" in
      intros s' x y Hext H; carry Hext; clear Hext ].

Section Methods.
Variable LGConv : LGConv_t.

Lemma get_embedding_layers_refines s h v g w :
  model_holds s h v ->
  refines holds s (get_embedding_layers LGConv h g w)
                  (get_embedding_layers LGConv v g w).
Proof.
  intros Hm. unfold get_embedding_layers.
  step holds s1 a0 a0' Ha0.
  { apply refines_new1. apply Hm. }
  step holds s2 out out' Hout.
  { apply refines_new2; [apply Hm | exact Ha0]. }
  eapply (refines_bind (loop_rel h v)).
  - replace (num_layers h) with (num_layers v) by (symmetry; apply Hm).
    unfold for_range. apply (refines_for_each (loop_rel h v)).
    + intros i s3 [x o] [x' o'] [Hmod [Hx Ho]]. cbn [fst snd] in Hx, Ho.
      step holds s4 xc xc' Hxc.
      { apply refines_new1. exact Hx. }
      step holds s5 ai ai' Hai.
      { apply refines_new1. apply Hmod. }
      step holds s6 xa xa' Hxa.
      { apply refines_new2; assumption. }
      step holds s7 o2 o2' Ho2.
      { apply refines_new2; assumption. }
      apply refines_ret. split; [exact Hmod | split; assumption].
    + split; [exact Hm|]. split; [apply Hm | exact Hout].
  - intros s3 [x o] [x' o'] _ [_ [_ Ho]]. apply refines_ret. exact Ho.
Qed.

Lemma get_embedding_refines s h v g w nu ni sf :
  model_holds s h v ->
  refines holds s (get_embedding LGConv h g w nu ni sf)
                  (get_embedding LGConv v g w nu ni sf).
Proof.
  intros Hm. unfold get_embedding.
  step holds s1 acc acc' Hacc.
  { now apply get_embedding_layers_refines. }
  step holds2 s2 p p' Hp.
  { now apply refines_new_pair. }
  destruct p as [user_emb item_emb], p' as [user_emb' item_emb'].
  destruct Hp as [Hu Hi]. cbn [fst snd] in Hu, Hi.
  step holds s3 nrm nrm' Hnrm.
  { now apply refines_new1. }
  step holds s4 sc sc' Hsc.
  { now apply refines_new1. }
  step holds s5 out out' Hout.
  { now apply refines_new2. }
  now apply refines_ret.
Qed.

Lemma forward_refines s h v g eli nu ni sf w :
  model_holds s h v ->
  refines holds2 s (forward LGConv h g eli nu ni sf w)
                   (forward LGConv v g eli nu ni sf w).
Proof.
  intros Hm. unfold forward.
  step same s1 e e' He.
  { destruct eli as [e|]; [apply refines_ret; reflexivity|].
    destruct (is_sparse g).
    - eapply refines_bind; [apply refines_liftE|].
      intros s1 [e1 x1] [e2 x2] _ Hsame. injection Hsame as <- <-.
      apply refines_ret. reflexivity.
    - destruct g; [apply refines_ret; reflexivity | apply refines_raise]. }
  unfold same in He. subst e'.
  step holds s2 out out' Hout.
  { now apply get_embedding_refines. }
  step same s3 i0 i0' Hi0.
  { apply refines_liftE. }
  unfold same in Hi0. subst i0'.
  step holds s4 out_src out_src' Hsrc.
  { now apply refines_new1. }
  step same s5 i1 i1' Hi1.
  { apply refines_liftE. }
  unfold same in Hi1. subst i1'.
  step holds s6 out_dst out_dst' Hdst.
  { now apply refines_new1. }
  step holds s7 sd sd' Hsd.
  { now apply refines_new2. }
  step holds s8 pnr pnr' Hpnr.
  { now apply refines_new1. }
  step holds2 s9 pr pr' Hpr.
  { now apply refines_new_pair. }
  destruct pr as [pos_rank neg_rank], pr' as [pos_rank' neg_rank'].
  destruct Hpr as [Hpos Hneg]. cbn [fst snd] in Hpos, Hneg.
  step same s10 j1 j1' Hj1.
  { apply refines_liftE. }
  unfold same in Hj1. subst j1'.
  step same s11 items items' Hitems.
  { apply refines_liftE. }
  unfold same in Hitems. subst items'. destruct items as [pos_item neg_item].
  step holds s12 bp bp' Hbp.
  { apply refines_new1. apply Hm. }
  step holds s13 rp rp' Hrp.
  { now apply refines_new2. }
  step holds s14 bn bn' Hbn.
  { apply refines_new1. apply Hm. }
  step holds s15 rn rn' Hrn.
  { now apply refines_new2. }
  apply refines_ret. split; assumption.
Qed.

Lemma recommend_refines s h v g w src dst k sorted :
  model_holds s h v ->
  refines same s (recommend LGConv h g w src dst k sorted)
                 (recommend LGConv v g w src dst k sorted).
Proof.
  intros Hm. unfold recommend.
  step holds s1 out out' Hout.
  { now apply get_embedding_refines. }
  step holds s2 out_src out_src' Hsrc.
  { destruct src; [now apply refines_new1 | now apply refines_ret]. }
  step holds s3 out_dst out_dst' Hdst.
  { destruct dst; [now apply refines_new1 | now apply refines_ret]. }
  step holds s4 dt dt' Hdt.
  { now apply refines_new1. }
  step holds s5 pred pred' Hpred.
  { now apply refines_new2. }
  step same s6 top top' Htop.
  { now apply refines_peek. }
  unfold same in Htop. subst top'.
  step same s7 top2 top2' Htop2.
  { destruct dst; [apply refines_liftE | apply refines_ret; reflexivity]. }
  apply refines_ret. exact Htop2.
Qed.

End Methods.

Lemma BPRLoss_forward_refines s lambda_reg p n p' n' params params' :
  holds s p p' -> holds s n n' -> holds_opt s params params' ->
  refines holds s (BPRLoss_forward lambda_reg p n params)
                  (BPRLoss_forward lambda_reg p' n' params').
Proof.
  intros Hp Hn Hparams. unfold BPRLoss_forward.
  step holds s1 diff diff' Hdiff.
  { now apply refines_new2. }
  step holds s2 ls ls' Hls.
  { now apply refines_new1. }
  step holds s3 lp lp' Hlp.
  { now apply refines_new1. }
  step holds_opt s4 r r' Hr.
  { destruct (Req_dec_T lambda_reg 0); [apply refines_ret; exact I|].
    step holds s4 x x' Hx.
    { destruct params as [x|], params' as [x'|]; try contradiction.
      - apply refines_ret. exact Hparams.
      - apply refines_raise. }
    step holds s5 nrm nrm' Hnrm.
    { now apply refines_new1. }
    step holds s6 sq sq' Hsq.
    { now apply refines_new1. }
    step holds s7 reg reg' Hreg.
    { now apply refines_new1. }
    step same s8 k k' Hk.
    { now apply refines_peek. }
    unfold same in Hk. subst k'.
    step holds s9 reg2 reg2' Hreg2.
    { now apply refines_new1. }
    apply refines_ret. exact Hreg2. }
  step holds s5 nl nl' Hnl.
  { now apply refines_new1. }
  destruct r as [x|], r' as [x'|]; try contradiction.
  - now apply refines_new2.
  - now apply refines_new1.
Qed.

Lemma recommendation_loss_refines s h v p n p' n' node_id lambda_reg :
  model_holds s h v -> holds s p p' -> holds s n n' ->
  refines holds s (recommendation_loss h p n node_id lambda_reg)
                  (recommendation_loss v p' n' node_id lambda_reg).
Proof.
  intros Hm Hp Hn. unfold recommendation_loss.
  step holds s1 emb emb' Hemb.
  { destruct node_id; [apply refines_new1 | apply refines_ret]; apply Hm. }
  now apply BPRLoss_forward_refines.
Qed.

End Refinement.

(* ===================================================================== *)
(** * More on [get_embedding] *)
(* ===================================================================== *)

(** X1.  For a layer that keeps shapes and a model as [__init__] builds
    it, the table that [get_embedding] returns has the shape of the
    embedding table: one row per node, [embedding_dim] entries per row. *)
Theorem get_embedding_keeps_the_table_shape
  (LGConv : LGConv_t) (self : AIM_LightGCN Tensor) (g : Adj)
  (w : option Tensor) (nu ni : option Z) (sf : option R) (out : Tensor) :
  shape_preserving LGConv -> wf_model self ->
  get_embedding LGConv self g w nu ni sf = Ok out ->
  Torch.shape out = Torch.shape (embedding_weight self) /\
  Torch.shape out = (2%nat, repeat (embedding_dim self) (num_nodes self)).
Proof.
  intros Hconv Hwf H.
  destruct (get_embedding_shape LGConv self g w nu ni sf out Hconv Hwf H)
    as (E' & -> & Hn & Hd).
  destruct Hwf as ((E & HE & HEn & HEd) & _).
  assert (Hrep : forall (X : list (list R)) (n d : nat),
             length X = n -> Forall (fun r => length r = d) X ->
             map (@length R) X = repeat d n).
  { intros X n d <- HX. induction HX as [|r X Hr _ IH]; simpl; congruence. }
  rewrite HE. simpl.
  rewrite (Hrep E' _ _ Hn Hd), (Hrep E _ _ HEn HEd). split; reflexivity.
Qed.

Lemma get_embedding_keeps_the_table_shape_witness :
  exists out,
    get_embedding Propagation.propagate Demo.model Demo.graph None
      (Some 2%Z) (Some 2%Z) (Some 1%R) = Ok out /\
    Torch.shape out = (2%nat, [2%nat; 2%nat; 2%nat; 2%nat]).
Proof.
  eexists. split.
  - tensor_compute. reflexivity.
  - apply (get_embedding_keeps_the_table_shape Propagation.propagate Demo.model
             Demo.graph None (Some 2%Z) (Some 2%Z) (Some 1%R) _
             propagate_shape_preserving demo_wf).
    tensor_compute. reflexivity.
Defined.

Section GetEmbeddingFacts.
Import Torch.
Local Open Scope R_scope.
Variable LGConv : LGConv_t.

(** [torch.cat] of the two blocks of a table splits nothing off: the rows
    of a table all have the same length. *)
Lemma cat_blocks (d : nat) (u i : list (list R)) :
  Forall (fun r => length r = d) u -> Forall (fun r => length r = d) i ->
  cat (T2 u) (T2 i) = Ok (T2 (u ++ i)).
Proof.
  intros Hu Hi. unfold cat.
  destruct u as [|r u]; [reflexivity|]. destruct i as [|r' i]; [reflexivity|].
  inversion Hu; inversion Hi; subst.
  replace (length r =? length r')%nat with true
    by (symmetry; apply Nat.eqb_eq; congruence).
  reflexivity.
Qed.

Lemma layers_table (self : AIM_LightGCN Tensor) g w acc_t :
  shape_preserving LGConv -> wf_model self ->
  get_embedding_layers LGConv self g w = Ok acc_t ->
  exists acc, acc_t = T2 acc /\ length acc = num_nodes self /\
              Forall (fun r => length r = embedding_dim self) acc.
Proof.
  intros Hconv Hwf Hl.
  pose proof (get_embedding_layers_shape LGConv self g w acc_t Hconv Hwf Hl) as Hs.
  destruct Hwf as ((E & HE & HEn & HEd) & _).
  rewrite HE in Hs. destruct (TorchFacts.shape_T2_inv acc_t _ Hs) as (m & -> & Hm).
  exists m. split; [reflexivity|]. split.
  - rewrite <- HEn, <- (length_map (@length R) m), Hm. apply length_map.
  - apply Forall_forall. intros r Hr.
    apply (in_map (@length R)) in Hr. rewrite Hm in Hr.
    apply in_map_iff in Hr. destruct Hr as (r' & <- & Hr').
    rewrite Forall_forall in HEd. now apply HEd.
Qed.

Lemma in_firstn_in {A : Type} (n : nat) (l : list A) (a : A) :
  In a (firstn n l) -> In a l.
Proof.
  intros H. rewrite <- (firstn_skipn n l). apply in_or_app. now left.
Qed.

Lemma in_skipn_in {A : Type} (n : nat) (l : list A) (a : A) :
  In a (skipn n l) -> In a l.
Proof.
  intros H. rewrite <- (firstn_skipn n l). apply in_or_app. now right.
Qed.

Lemma split_valid (acc : list (list R)) (nu ni : Z) :
  (0 <= nu)%Z -> (0 <= ni)%Z -> (nu + ni = Z.of_nat (length acc))%Z ->
  split (Some nu) (Some ni) (T2 acc)
  = Ok (T2 (firstn (Z.to_nat nu) acc), T2 (skipn (Z.to_nat nu) acc)).
Proof.
  intros Hu Hi Hsum. unfold split, split_sizes.
  replace ((nu <? 0)%Z || (ni <? 0)%Z) with false
    by (symmetry; apply orb_false_iff; split; apply Z.ltb_ge; assumption).
  replace (nu + ni =? Z.of_nat (length acc))%Z with true
    by (symmetry; now apply Z.eqb_eq).
  reflexivity.
Qed.

End GetEmbeddingFacts.

(** X2.  When the layers succeed, the two sizes are non-negative and sum
    to the number of nodes, and a scaling factor [s] is given,
    [get_embedding] returns: the first [num_users] rows of the mixed table
    as they are, then the other rows, each divided by the larger of its
    norm and [eps] and multiplied by [s]. *)
Theorem get_embedding_returns
  (LGConv : LGConv_t) (self : AIM_LightGCN Tensor) (g : Adj)
  (w : option Tensor) (nu ni : Z) (s : R) (acc_t : Tensor) :
  shape_preserving LGConv -> wf_model self ->
  get_embedding_layers LGConv self g w = Ok acc_t ->
  (0 <= nu)%Z -> (0 <= ni)%Z -> (nu + ni = Z.of_nat (num_nodes self))%Z ->
  exists acc,
    acc_t = T2 acc /\
    get_embedding LGConv self g w (Some nu) (Some ni) (Some s)
    = Ok (T2 (firstn (Z.to_nat nu) acc ++
              map (fun v => map (fun x => (x * s)%R) (Torch.normalize_row v))
                  (skipn (Z.to_nat nu) acc))).
Proof.
  intros Hconv Hwf Hl Hu Hi Hsum.
  destruct (layers_table LGConv self g w acc_t Hconv Hwf Hl)
    as (acc & -> & Hn & Hd).
  exists acc. split; [reflexivity|].
  unfold get_embedding. rewrite Hl. by_value.
  rewrite split_valid by (try assumption; congruence).
  cbn [Torch.normalize Torch.mul_float Torch.tmap]. by_value.
  rewrite map_map.
  rewrite (cat_blocks (embedding_dim self)); [reflexivity | |].
  - apply Forall_forall. intros r Hr. rewrite Forall_forall in Hd.
    apply Hd. eapply in_firstn_in; eassumption.
  - apply Forall_forall. intros r Hr. apply in_map_iff in Hr.
    destruct Hr as (v & <- & Hv). unfold Torch.normalize_row.
    rewrite !length_map. rewrite Forall_forall in Hd.
    apply Hd. eapply in_skipn_in; eassumption.
Qed.

Lemma get_embedding_returns_witness :
  exists acc,
    get_embedding_layers Propagation.propagate Demo.model Demo.graph None
    = Ok (T2 acc) /\
    get_embedding Propagation.propagate Demo.model Demo.graph None
      (Some 2%Z) (Some 2%Z) (Some 3%R)
    = Ok (T2 (firstn 2 acc ++
              map (fun v => map (fun x => (x * 3)%R) (Torch.normalize_row v))
                  (skipn 2 acc))).
Proof.
  destruct (get_embedding_layers Propagation.propagate Demo.model Demo.graph None)
    as [acc_t|e] eqn:Hl.
  - destruct (get_embedding_returns Propagation.propagate Demo.model Demo.graph
                None 2%Z 2%Z 3%R acc_t propagate_shape_preserving demo_wf Hl)
      as (acc & -> & H); [lia | lia | reflexivity |].
    exists acc. split; [reflexivity | exact H].
  - exfalso. revert Hl. tensor_compute. discriminate.
Defined.

(** X3.  The users' rows are not normalised and not scaled: every row of
    the result before position [num_users] is the row of the mixed table. *)
Theorem get_embedding_leaves_user_rows
  (LGConv : LGConv_t) (self : AIM_LightGCN Tensor) (g : Adj)
  (w : option Tensor) (nu ni : option Z) (sf : option R)
  (acc out : list (list R)) (nu_ : Z) (j : nat) :
  get_embedding_layers LGConv self g w = Ok (T2 acc) ->
  get_embedding LGConv self g w nu ni sf = Ok (T2 out) ->
  nu = Some nu_ -> (j < Z.to_nat nu_)%nat ->
  nth_error out j = nth_error acc j.
Proof.
  intros Hl H Hnu Hj.
  destruct (get_embedding_Ok LGConv self g w nu ni sf _ H)
    as (acc' & a & b & s' & Hl' & Ha & Hb & Hs & Ha0 & Hb0 & Hab & Hout).
  rewrite Hl in Hl'. injection Hl' as <-.
  rewrite Hnu in Ha. injection Ha as <-. injection Hout as ->.
  assert (Hlen : length (firstn (Z.to_nat nu_) acc) = Z.to_nat nu_).
  { apply firstn_length_le. lia. }
  rewrite nth_error_app1 by lia.
  rewrite nth_error_firstn.
  now replace (j <? Z.to_nat nu_)%nat with true by (symmetry; now apply Nat.ltb_lt).
Qed.

Lemma get_embedding_leaves_user_rows_witness :
  exists acc out,
    get_embedding_layers Propagation.propagate Demo.model Demo.graph None
    = Ok (T2 acc) /\
    get_embedding Propagation.propagate Demo.model Demo.graph None
      (Some 2%Z) (Some 2%Z) (Some 3%R) = Ok (T2 out) /\
    nth_error out 1 = nth_error acc 1.
Proof.
  eexists. eexists.
  eassert (Hl : get_embedding_layers Propagation.propagate Demo.model
                  Demo.graph None = Ok (T2 _))
    by (tensor_compute; reflexivity).
  eassert (Hrun : get_embedding Propagation.propagate Demo.model Demo.graph
                    None (Some 2%Z) (Some 2%Z) (Some 3%R) = Ok (T2 _))
    by (tensor_compute; reflexivity).
  split; [exact Hl|]. split; [exact Hrun|].
  apply (get_embedding_leaves_user_rows Propagation.propagate Demo.model
           Demo.graph None (Some 2%Z) (Some 2%Z) (Some 3%R) _ _ 2%Z 1%nat
           Hl Hrun eq_refl).
  simpl. lia.
Defined.

(** X4.  The scaling factor has no usable default: with sizes that fit
    and [scaling_factor] left at [None], [get_embedding] raises the
    [TypeError] of the product of a tensor and [None], once the layers have
    succeeded. *)
Theorem get_embedding_without_scaling_factor
  (LGConv : LGConv_t) (self : AIM_LightGCN Tensor) (g : Adj)
  (w : option Tensor) (nu ni : Z) (acc_t : Tensor) :
  shape_preserving LGConv -> wf_model self ->
  get_embedding_layers LGConv self g w = Ok acc_t ->
  (0 <= nu)%Z -> (0 <= ni)%Z -> (nu + ni = Z.of_nat (num_nodes self))%Z ->
  get_embedding LGConv self g w (Some nu) (Some ni) None = Raise TypeError.
Proof.
  intros Hconv Hwf Hl Hu Hi Hsum.
  destruct (layers_table LGConv self g w acc_t Hconv Hwf Hl)
    as (acc & -> & Hn & Hd).
  unfold get_embedding. rewrite Hl. by_value.
  rewrite split_valid by (try assumption; congruence).
  reflexivity.
Qed.

Lemma get_embedding_without_scaling_factor_witness :
  get_embedding Propagation.propagate Demo.model Demo.graph None
    (Some 2%Z) (Some 2%Z) None = Raise TypeError.
Proof.
  destruct (get_embedding_layers Propagation.propagate Demo.model Demo.graph None)
    as [acc_t|e] eqn:Hl.
  - apply (get_embedding_without_scaling_factor Propagation.propagate
             Demo.model Demo.graph None 2%Z 2%Z acc_t
             propagate_shape_preserving demo_wf Hl); [lia | lia | reflexivity].
  - exfalso. revert Hl. tensor_compute. discriminate.
Defined.

(** X5.  A negative size is refused even when the two sizes sum to the
    number of nodes: [get_embedding] raises, and what it raises once the
    layers have succeeded is the [RuntimeError] of [torch.split]. *)
Theorem get_embedding_negative_size
  (LGConv : LGConv_t) (self : AIM_LightGCN Tensor) (g : Adj)
  (w : option Tensor) (nu ni : Z) (sf : option R) :
  (nu < 0)%Z \/ (ni < 0)%Z ->
  get_embedding LGConv self g w (Some nu) (Some ni) sf = Raise RuntimeError \/
  exists e, get_embedding_layers LGConv self g w = Raise e /\
            get_embedding LGConv self g w (Some nu) (Some ni) sf = Raise e.
Proof.
  intros Hneg. unfold get_embedding.
  destruct (get_embedding_layers LGConv self g w) as [acc|e]; by_value.
  - left. unfold Torch.split, Torch.split_sizes.
    replace ((nu <? 0)%Z || (ni <? 0)%Z) with true.
    + destruct acc; reflexivity.
    + symmetry. apply orb_true_iff.
      destruct Hneg; [left | right]; now apply Z.ltb_lt.
  - right. exists e. split; reflexivity.
Qed.

Lemma get_embedding_negative_size_witness :
  get_embedding Propagation.propagate Demo.model Demo.graph None
    (Some (-1)%Z) (Some 5%Z) (Some 1%R) = Raise RuntimeError.
Proof.
  destruct (get_embedding_negative_size Propagation.propagate Demo.model
              Demo.graph None (-1)%Z 5%Z (Some 1%R)) as [H|(e & He & _)].
  - left. lia.
  - exact H.
  - exfalso. revert He. tensor_compute. discriminate.
Defined.

(** X6.  Below [eps] the normalisation does not reach the scaling factor:
    an item row whose norm [n] before normalisation is less than [eps]
    comes out with norm [s * n / eps], which is less than [s]. *)
Theorem get_embedding_small_item_rows
  (LGConv : LGConv_t) (self : AIM_LightGCN Tensor) (g : Adj)
  (w : option Tensor) (nu ni : Z) (s : R)
  (acc out : list (list R)) (j : nat) (v : list R) :
  (0 < s)%R ->
  get_embedding_layers LGConv self g w = Ok (T2 acc) ->
  get_embedding LGConv self g w (Some nu) (Some ni) (Some s) = Ok (T2 out) ->
  (Z.to_nat nu <= j)%nat -> nth_error acc j = Some v ->
  (Torch.norm2 v < Torch.eps)%R ->
  exists r, nth_error out j = Some r /\
            Torch.norm2 r = (s * Torch.norm2 v / Torch.eps)%R /\
            (Torch.norm2 r < s)%R.
Proof.
  intros Hs Hl H Hj Hv Hn.
  eexists. split.
  - eapply get_embedding_item_row; eassumption.
  - rewrite NormFacts.norm2_scaled_normalize_row by lra.
    rewrite Rmax_right by lra.
    pose proof NormFacts.eps_pos as He.
    split; [unfold Rdiv; ring|].
    rewrite <- (Rmult_1_r s) at 2. apply Rmult_lt_compat_l; [exact Hs|].
    apply (Rmult_lt_reg_r Torch.eps); [exact He|].
    unfold Rdiv. rewrite Rmult_assoc, Rinv_l by lra. lra.
Qed.

Lemma get_embedding_small_item_rows_witness :
  exists out r,
    get_embedding Propagation.propagate ColdItem.model ColdItem.graph None
      (Some 1%Z) (Some 2%Z) (Some 1%R) = Ok (T2 out) /\
    nth_error out 2 = Some r /\ (Torch.norm2 r < 1)%R.
Proof.
  eassert (Hl : get_embedding_layers Propagation.propagate ColdItem.model
                  ColdItem.graph None = Ok (T2 _))
    by (tensor_compute; reflexivity).
  eassert (Hrun : get_embedding Propagation.propagate ColdItem.model
                    ColdItem.graph None (Some 1%Z) (Some 2%Z) (Some 1%R)
                  = Ok (T2 _))
    by (tensor_compute; reflexivity).
  eexists. eexists. split; [exact Hrun|].
  assert (Hs : (0 < 1)%R) by lra.
  assert (Hj : (Z.to_nat 1 <= 2)%nat) by (simpl; lia).
  pose proof (fun v => get_embedding_small_item_rows Propagation.propagate
                         ColdItem.model ColdItem.graph None 1%Z 2%Z 1%R _ _
                         2%nat v Hs Hl Hrun Hj) as H.
  edestruct H as (r & Hr & _ & Hn).
  - simpl. reflexivity.
  - unfold Torch.norm2. simpl.
    replace (_ + _)%R with 0%R by lra. rewrite sqrt_0. apply NormFacts.eps_pos.
  - injection Hr as <-. split; [reflexivity | exact Hn].
Defined.

(** X7.  Without layers the graph is not looked at: for [num_layers = 0]
    and sizes that fit, [get_embedding] returns the embedding table times
    [alpha[0]], its item rows normalised and scaled, whatever the layer,
    the graph and the edge weights are, even for a layer that raises. *)
Theorem get_embedding_without_layers
  (LGConv : LGConv_t) (self : AIM_LightGCN Tensor) (g : Adj)
  (w : option Tensor) (nu ni : Z) (s : R)
  (E : list (list R)) (a0 : R) (al : list R) :
  num_layers self = 0%nat -> wf_model self ->
  embedding_weight self = T2 E -> alpha self = T1 (a0 :: al) ->
  (0 <= nu)%Z -> (0 <= ni)%Z -> (nu + ni = Z.of_nat (num_nodes self))%Z ->
  let acc := map (map (fun x => (x * a0)%R)) E in
  get_embedding LGConv self g w (Some nu) (Some ni) (Some s)
  = Ok (T2 (firstn (Z.to_nat nu) acc ++
            map (fun v => map (fun x => (x * s)%R) (Torch.normalize_row v))
                (skipn (Z.to_nat nu) acc))).
Proof.
  intros HL Hwf HE Ha Hu Hi Hsum acc.
  assert (Hl : get_embedding_layers LGConv self g w = Ok (T2 acc)).
  { unfold get_embedding_layers. rewrite HL, HE, Ha. reflexivity. }
  destruct Hwf as ((E0 & HE0 & HEn & HEd) & _).
  rewrite HE in HE0. injection HE0 as <-.
  assert (Hd : Forall (fun r => length r = embedding_dim self) acc).
  { unfold acc. apply Forall_forall. intros r Hr. apply in_map_iff in Hr.
    destruct Hr as (r0 & <- & Hr0). rewrite length_map.
    rewrite Forall_forall in HEd. now apply HEd. }
  unfold get_embedding. rewrite Hl. by_value.
  rewrite split_valid
    by (try assumption; unfold acc; rewrite length_map; congruence).
  cbn [Torch.normalize Torch.mul_float Torch.tmap]. by_value.
  rewrite map_map.
  rewrite (cat_blocks (embedding_dim self)); [reflexivity | |].
  - apply Forall_forall. intros r Hr. rewrite Forall_forall in Hd.
    apply Hd. eapply in_firstn_in; eassumption.
  - apply Forall_forall. intros r Hr. apply in_map_iff in Hr.
    destruct Hr as (v & <- & Hv). unfold Torch.normalize_row.
    rewrite !length_map. rewrite Forall_forall in Hd.
    apply Hd. eapply in_skipn_in; eassumption.
Qed.

Lemma get_embedding_without_layers_witness :
  get_embedding (fun _ _ _ => Raise RuntimeError)
    {| num_nodes := 2; embedding_dim := 1; num_layers := 0;
       alpha := T1 [2%R]; embedding_weight := T2 [[1%R]; [3%R]];
       beta_weight := T2 [[0%R]; [0%R]] |}
    (EdgeIndex []) None (Some 1%Z) (Some 1%Z) (Some 5%R)
  = Ok (T2 [[(1 * 2)%R];
            map (fun x => (x * 5)%R) (Torch.normalize_row [(3 * 2)%R])]).
Proof.
  apply (get_embedding_without_layers (fun _ _ _ => Raise RuntimeError)
           _ (EdgeIndex []) None 1%Z 1%Z 5%R [[1%R]; [3%R]] 2%R []);
    try reflexivity; try lia.
  unfold wf_model; simpl. repeat split.
  - eexists. repeat split; repeat constructor.
  - eexists. repeat split; repeat constructor.
  - eexists. repeat split.
Defined.

(* ===================================================================== *)
(** * More on [forward] *)
(* ===================================================================== *)

Section ForwardFacts.
Import Torch TorchFacts.
Local Open Scope R_scope.

Lemma chunk2_list_general {A : Type} (l : list A) :
  length l <> 1%nat ->
  chunk2_list l = Ok (firstn ((length l + 1) / 2) l, skipn ((length l + 1) / 2) l).
Proof.
  intros H. unfold chunk2_list.
  destruct (length l =? 0)%nat eqn:E0.
  - apply Nat.eqb_eq in E0. destruct l; [|discriminate].
    now rewrite firstn_nil, skipn_nil.
  - replace (length l =? 1)%nat with false; [reflexivity|].
    symmetry. now apply Nat.eqb_neq.
Qed.

Lemma chunk2_list_single {A : Type} (l : list A) :
  length l = 1%nat -> chunk2_list l = Raise ValueError.
Proof. intros H. unfold chunk2_list. now rewrite H. Qed.

Lemma norm_index_in_range (n : nat) (i : Z) :
  index_in_range n i -> exists k, norm_index n i = Ok k /\ (k < n)%nat.
Proof.
  intros [Hlo Hhi]. unfold norm_index.
  destruct (0 <=? i)%Z eqn:E0.
  - apply Z.leb_le in E0.
    replace (i <? Z.of_nat n)%Z with true by (symmetry; now apply Z.ltb_lt).
    simpl. exists (Z.to_nat i). split; [reflexivity | lia].
  - apply Z.leb_gt in E0. simpl.
    replace (- Z.of_nat n <=? i)%Z with true by (symmetry; now apply Z.leb_le).
    replace (i <? 0)%Z with true by (symmetry; now apply Z.ltb_lt).
    simpl. exists (Z.to_nat (i + Z.of_nat n)). split; [reflexivity | lia].
Qed.

Lemma norm_index_out_of_range (n : nat) (i : Z) :
  ~ index_in_range n i -> norm_index n i = Raise IndexError.
Proof.
  intros H. unfold norm_index, index_in_range in *.
  destruct ((0 <=? i)%Z && (i <? Z.of_nat n)%Z) eqn:E1.
  - apply andb_true_iff in E1. destruct E1 as [E1 E2].
    apply Z.leb_le in E1. apply Z.ltb_lt in E2. lia.
  - destruct ((- Z.of_nat n <=? i)%Z && (i <? 0)%Z) eqn:E2; [|reflexivity].
    apply andb_true_iff in E2. destruct E2 as [E2 E3].
    apply Z.leb_le in E2. apply Z.ltb_lt in E3. lia.
Qed.

Lemma gather_in_range {A : Type} (l : list A) (idx : Long1) :
  Forall (index_in_range (length l)) idx -> exists r, gather l idx = Ok r.
Proof.
  intros H. unfold gather. induction H as [|i idx Hi _ IH]; simpl.
  - eexists. reflexivity.
  - destruct (norm_index_in_range _ _ Hi) as (k & -> & Hk).
    destruct (nth_error l k) as [a|] eqn:Ea.
    + destruct IH as [r ->]. eexists. reflexivity.
    + apply nth_error_None in Ea. lia.
Qed.

Lemma gather_raises {A : Type} (l : list A) (idx : Long1) (e : PyError) :
  gather l idx = Raise e -> e = IndexError.
Proof.
  unfold gather. induction idx as [|i idx IH]; simpl; [discriminate|].
  destruct (norm_index (length l) i) as [k|e'] eqn:Ek.
  - destruct (nth_error l k) as [a|]; [|congruence].
    destruct (mapE _ idx) as [r|e'']; [discriminate|].
    intros H. injection H as <-. now apply IH.
  - unfold norm_index in Ek.
    destruct (_ && _); [discriminate|]. destruct (_ && _); [discriminate|].
    congruence.
Qed.

Lemma gather_out_of_range {A : Type} (l : list A) (idx : Long1) :
  Exists (fun i => ~ index_in_range (length l) i) idx ->
  gather l idx = Raise IndexError.
Proof.
  intros H. destruct (gather l idx) as [r|e] eqn:E.
  - exfalso. unfold gather in E. apply mapE_Forall2 in E.
    induction E as [|i a idx r Hi _ IH].
    + inversion H.
    + inversion H as [? ? Hbad|? ? Hrest]; subst.
      * rewrite (norm_index_out_of_range _ _ Hbad) in Hi. discriminate.
      * now apply IH.
  - f_equal. eapply gather_raises; eassumption.
Qed.

Variable LGConv : LGConv_t.

(** The run of [forward] after [get_embedding], on labels whose rows are
    in the tables. *)
Lemma forward_run (self : AIM_LightGCN Tensor) g src dst nu ni sf w
  (E' B S D Bp Bn : list (list R)) :
  get_embedding LGConv self g w nu ni sf = Ok (T2 E') ->
  Forall (fun r => length r = embedding_dim self) E' ->
  beta_weight self = T2 B -> Forall (fun r => length r = 1%nat) B ->
  length src = length dst -> length src <> 1%nat ->
  let c := ((length src + 1) / 2)%nat in
  gather E' src = Ok S -> gather E' dst = Ok D ->
  gather B (firstn c dst) = Ok Bp -> gather B (skipn c dst) = Ok Bn ->
  forward LGConv self g (Some [src; dst]) nu ni sf w
  = Ok (T2 (map (fun r => map (fun x => x + hd 0 r) (firstn c (map2 dot S D))) Bp),
        T2 (map (fun r => map (fun x => x + hd 0 r) (skipn c (map2 dot S D))) Bn)).
Proof.
  intros Hemb HEd HB HBc Hlen Hne c HS HD HBp HBn.
  destruct (gather_Ok _ _ _ HS) as [HSl HSin].
  destruct (gather_Ok _ _ _ HD) as [HDl HDin].
  destruct (gather_Ok _ _ _ HBp) as [HBpl HBpin].
  destruct (gather_Ok _ _ _ HBn) as [HBnl HBnin].
  assert (Hrows : forall X : list (list R),
             Forall (fun a => In a E') X ->
             map (@length R) X = repeat (embedding_dim self) (length X)).
  { intros X HX. induction HX as [|r X Hr _ IH]; simpl; [reflexivity|].
    rewrite Forall_forall in HEd. rewrite (HEd r Hr). now rewrite IH. }
  assert (Hshape : map (@length R) S = map (@length R) D).
  { rewrite (Hrows S HSin), (Hrows D HDin). congruence. }
  assert (Hscores : length (map2 dot S D) = length src).
  { rewrite map2_length; congruence. }
  unfold forward. by_value. rewrite Hemb.
  cbn [long_getitem_int nth_error]. by_value.
  cbn [getitem_long]. rewrite HS, HD. cbn [emap].
  unfold mul. rewrite (binop_same_shape Rmult S D Hshape).
  cbn [sum_last]. rewrite map_vsum_map2.
  cbn [chunk2]. rewrite chunk2_list_general by congruence.
  rewrite Hscores. fold c. cbn [emap fst snd].
  rewrite chunk2_list_general by congruence.
  rewrite <- Hlen. fold c. by_value.
  rewrite HB. cbn [getitem_long]. rewrite HBp, HBn. cbn [emap].
  assert (HcolP : Forall (fun r => length r = 1%nat) Bp).
  { rewrite Forall_forall in *. auto. }
  assert (HcolN : Forall (fun r => length r = 1%nat) Bn).
  { rewrite Forall_forall in *. auto. }
  rewrite add_vector_column; [| exact HcolP |].
  - rewrite add_vector_column; [reflexivity | exact HcolN |].
    rewrite HBnl, !length_skipn. lia.
  - rewrite HBpl, !length_firstn. lia.
Qed.

End ForwardFacts.

(** X8.  [forward] returns whenever [get_embedding] does, the two rows of
    the label index have the same length, other than 1, and every label
    is an index of the tables.  The scores are split after the first
    [ceil(L / 2)] of the [L] labeled edges: an odd number of edges, from 3
    on, raises nothing, and gives a [pos_rank] of one more row than
    [neg_rank]. *)
Theorem forward_returns
  (LGConv : LGConv_t) (self : AIM_LightGCN Tensor) (g : Adj)
  (src dst : Long1) (nu ni : option Z) (sf : option R) (w : option Tensor)
  (out : Tensor) :
  shape_preserving LGConv -> wf_model self ->
  get_embedding LGConv self g w nu ni sf = Ok out ->
  length src = length dst -> length src <> 1%nat ->
  Forall (index_in_range (num_nodes self)) src ->
  Forall (index_in_range (num_nodes self)) dst ->
  let c := ((length src + 1) / 2)%nat in
  exists P Q,
    forward LGConv self g (Some [src; dst]) nu ni sf w = Ok (P, Q) /\
    Torch.shape P = (2%nat, repeat c c) /\
    Torch.shape Q = (2%nat, repeat (length src - c) (length src - c)).
Proof.
  intros Hconv Hwf Hemb Hlen Hne Hsrc Hdst c.
  destruct (get_embedding_shape LGConv self g w nu ni sf out Hconv Hwf Hemb)
    as (E' & -> & HEn & HEd).
  destruct Hwf as (_ & (B & HB & HBn & HBc) & _).
  rewrite <- HEn in Hsrc. rewrite <- HEn in Hdst.
  destruct (gather_in_range E' src Hsrc) as [S HS].
  destruct (gather_in_range E' dst Hdst) as [D HD].
  rewrite HEn, <- HBn in Hdst.
  assert (Hc : (c <= length src)%nat).
  { unfold c. destruct (length src) as [|k]; [simpl; lia|].
    apply Nat.Div0.div_le_upper_bound. lia. }
  destruct (gather_in_range B (firstn c dst)) as [Bp HBp].
  { apply Forall_forall. intros i Hi. rewrite Forall_forall in Hdst.
    apply Hdst. eapply in_firstn_in; eassumption. }
  destruct (gather_in_range B (skipn c dst)) as [Bn HBn'].
  { apply Forall_forall. intros i Hi. rewrite Forall_forall in Hdst.
    apply Hdst. eapply in_skipn_in; eassumption. }
  pose proof (forward_run LGConv self g src dst nu ni sf w E' B S D Bp Bn
                Hemb HEd HB HBc Hlen Hne HS HD HBp HBn') as Hrun.
  fold c in Hrun.
  destruct (TorchFacts.gather_Ok _ _ _ HS) as [HSl _].
  destruct (TorchFacts.gather_Ok _ _ _ HD) as [HDl _].
  destruct (TorchFacts.gather_Ok _ _ _ HBp) as [HBpl _].
  destruct (TorchFacts.gather_Ok _ _ _ HBn') as [HBnl _].
  assert (Hsc : length (Torch.map2 Torch.dot S D) = length src).
  { rewrite map2_length; congruence. }
  assert (Hrep : forall (X : list (list R)) (v : list R) (k : nat),
             length X = k -> length v = k ->
             map (@length R) (map (fun r => map (fun x => (x + hd 0 r)%R) v) X)
             = repeat k k).
  { intros X v k HX Hv. rewrite map_map.
    rewrite (map_ext _ (fun _ => k)) by (intros; now rewrite length_map).
    rewrite <- HX at 2. clear. induction X; simpl; congruence. }
  eexists. eexists. split; [exact Hrun|].
  simpl. split; f_equal; apply Hrep.
  - rewrite HBpl, length_firstn. lia.
  - rewrite length_firstn. lia.
  - rewrite HBnl, length_skipn. lia.
  - rewrite length_skipn. lia.
Qed.

Lemma forward_returns_witness :
  exists P Q,
    forward Propagation.propagate Demo.model Demo.graph
      (Some [[0; 1; 0]; [2; 3; -1]]%Z) (Some 2%Z) (Some 2%Z) (Some 1%R) None
    = Ok (P, Q) /\
    Torch.shape P = (2%nat, [2%nat; 2%nat]) /\
    Torch.shape Q = (2%nat, [1%nat]).
Proof.
  destruct (get_embedding Propagation.propagate Demo.model Demo.graph None
              (Some 2%Z) (Some 2%Z) (Some 1%R)) as [out|e] eqn:Hemb.
  - apply (forward_returns Propagation.propagate Demo.model Demo.graph
             [0; 1; 0]%Z [2; 3; -1]%Z (Some 2%Z) (Some 2%Z) (Some 1%R) None out
             propagate_shape_preserving demo_wf Hemb eq_refl).
    + simpl. lia.
    + repeat constructor; simpl; lia.
    + repeat constructor; simpl; lia.
  - exfalso. revert Hemb. tensor_compute. discriminate.
Defined.

(** X9.  A single labeled edge cannot be split in two: [chunk(2)] of one
    score is one chunk, and its unpacking into [pos_rank] and [neg_rank]
    raises [ValueError]. *)
Theorem forward_on_one_edge
  (LGConv : LGConv_t) (self : AIM_LightGCN Tensor) (g : Adj)
  (s d : Z) (nu ni : option Z) (sf : option R) (w : option Tensor)
  (out : Tensor) :
  shape_preserving LGConv -> wf_model self ->
  get_embedding LGConv self g w nu ni sf = Ok out ->
  index_in_range (num_nodes self) s -> index_in_range (num_nodes self) d ->
  forward LGConv self g (Some [[s]; [d]]) nu ni sf w = Raise ValueError.
Proof.
  intros Hconv Hwf Hemb Hs Hd.
  destruct (get_embedding_shape LGConv self g w nu ni sf out Hconv Hwf Hemb)
    as (E' & -> & HEn & HEd).
  rewrite <- HEn in Hs, Hd.
  destruct (gather_in_range E' [s] (Forall_cons _ Hs (Forall_nil _))) as [S HS].
  destruct (gather_in_range E' [d] (Forall_cons _ Hd (Forall_nil _))) as [D HD].
  destruct (TorchFacts.gather_Ok _ _ _ HS) as [HSl HSin].
  destruct (TorchFacts.gather_Ok _ _ _ HD) as [HDl HDin].
  destruct S as [|u [|? ?]]; try discriminate.
  destruct D as [|v [|? ?]]; try discriminate.
  assert (Hshape : map (@length R) [u] = map (@length R) [v]).
  { inversion HSin; inversion HDin; subst. rewrite Forall_forall in HEd.
    simpl. rewrite (HEd u), (HEd v) by assumption. reflexivity. }
  unfold forward. by_value. rewrite Hemb.
  cbn [Torch.long_getitem_int nth_error]. by_value.
  cbn [Torch.getitem_long]. rewrite HS, HD. cbn [emap].
  unfold Torch.mul. rewrite (TorchFacts.binop_same_shape Rmult [u] [v] Hshape).
  reflexivity.
Qed.

Lemma forward_on_one_edge_witness :
  forward Propagation.propagate Demo.model Demo.graph
    (Some [[0]; [2]]%Z) (Some 2%Z) (Some 2%Z) (Some 1%R) None
  = Raise ValueError.
Proof.
  destruct (get_embedding Propagation.propagate Demo.model Demo.graph None
              (Some 2%Z) (Some 2%Z) (Some 1%R)) as [out|e] eqn:Hemb.
  - apply (forward_on_one_edge Propagation.propagate Demo.model Demo.graph
             0%Z 2%Z (Some 2%Z) (Some 2%Z) (Some 1%R) None out
             propagate_shape_preserving demo_wf Hemb);
      unfold index_in_range; simpl; lia.
  - exfalso. revert Hemb. tensor_compute. discriminate.
Defined.

(** X10.  A label that is not an index of the table, that is, outside
    [-num_nodes .. num_nodes - 1], makes [forward] raise [IndexError] once
    [get_embedding] has returned. *)
Theorem forward_label_out_of_range
  (LGConv : LGConv_t) (self : AIM_LightGCN Tensor) (g : Adj)
  (src dst : Long1) (nu ni : option Z) (sf : option R) (w : option Tensor)
  (out : Tensor) :
  shape_preserving LGConv -> wf_model self ->
  get_embedding LGConv self g w nu ni sf = Ok out ->
  Exists (fun i => ~ index_in_range (num_nodes self) i) (src ++ dst) ->
  forward LGConv self g (Some [src; dst]) nu ni sf w = Raise IndexError.
Proof.
  intros Hconv Hwf Hemb Hbad.
  destruct (get_embedding_shape LGConv self g w nu ni sf out Hconv Hwf Hemb)
    as (E' & -> & HEn & HEd).
  rewrite <- HEn in Hbad.
  unfold forward. by_value. rewrite Hemb.
  cbn [Torch.long_getitem_int nth_error]. by_value.
  cbn [Torch.getitem_long].
  destruct (Torch.gather E' src) as [S|e] eqn:HS.
  - cbn [emap]. apply Exists_app in Hbad. destruct Hbad as [Hbad|Hbad].
    + rewrite (gather_out_of_range E' src Hbad) in HS. discriminate.
    + rewrite (gather_out_of_range E' dst Hbad). reflexivity.
  - cbn [emap]. f_equal. eapply gather_raises; eassumption.
Qed.

Lemma forward_label_out_of_range_witness :
  forward Propagation.propagate Demo.model Demo.graph
    (Some [[0; 1; 0; 1]; [2; 3; 4; 2]]%Z) (Some 2%Z) (Some 2%Z) (Some 1%R) None
  = Raise IndexError.
Proof.
  destruct (get_embedding Propagation.propagate Demo.model Demo.graph None
              (Some 2%Z) (Some 2%Z) (Some 1%R)) as [out|e] eqn:Hemb.
  - apply (forward_label_out_of_range Propagation.propagate Demo.model
             Demo.graph [0; 1; 0; 1]%Z [2; 3; 4; 2]%Z (Some 2%Z) (Some 2%Z)
             (Some 1%R) None out propagate_shape_preserving demo_wf Hemb).
    apply Exists_app. right.
    apply Exists_cons_tl. apply Exists_cons_tl. apply Exists_cons_hd.
    unfold index_in_range. simpl. lia.
  - exfalso. revert Hemb. tensor_compute. discriminate.
Defined.

(** X11.  The partition check reaches the callers of [get_embedding]:
    for a layer that keeps shapes and a model as [__init__] builds it,
    [forward] raises when the two sizes do not sum to the number of nodes,
    and what it raises once the layers have succeeded is the [RuntimeError]
    of [torch.split]; nothing is caught on the way. *)
Theorem forward_partition_mismatch
  (LGConv : LGConv_t) (self : AIM_LightGCN Tensor) (g : Adj)
  (eli : option Long2) (nu ni : Z) (sf : option R) (w : option Tensor) :
  shape_preserving LGConv -> wf_model self ->
  (nu + ni <> Z.of_nat (num_nodes self))%Z ->
  forward LGConv self g eli (Some nu) (Some ni) sf w = Raise RuntimeError \/
  exists e, get_embedding_layers LGConv self g w = Raise e /\
            forward LGConv self g eli (Some nu) (Some ni) sf w = Raise e.
Proof.
  intros Hconv Hwf Hne.
  assert (Hprop : forall e,
             get_embedding LGConv self g w (Some nu) (Some ni) sf = Raise e ->
             forward LGConv self g eli (Some nu) (Some ni) sf w = Raise e).
  { intros e H. unfold forward.
    destruct eli as [l|]; by_value; [now rewrite H|].
    destruct g; cbn [is_sparse to_edge_index]; by_value; now rewrite H. }
  destruct (get_embedding_layers LGConv self g w) as [acc_t|e] eqn:Hl.
  - left. apply Hprop.
    destruct (layers_table LGConv self g w acc_t Hconv Hwf Hl)
      as (acc & -> & Hn & _).
    unfold get_embedding. rewrite Hl. by_value.
    unfold Torch.split, Torch.split_sizes. rewrite Hn.
    destruct ((nu <? 0)%Z || (ni <? 0)%Z); [reflexivity|].
    destruct (nu + ni =? Z.of_nat (num_nodes self))%Z eqn:Esum; [|reflexivity].
    apply Z.eqb_eq in Esum. contradiction.
  - right. exists e. split; [reflexivity|]. apply Hprop.
    unfold get_embedding. now rewrite Hl.
Qed.

Lemma forward_partition_mismatch_witness :
  forward Propagation.propagate Demo.model Demo.graph (Some Demo.labels)
    (Some 2%Z) (Some 3%Z) (Some 1%R) None = Raise RuntimeError.
Proof.
  destruct (forward_partition_mismatch Propagation.propagate Demo.model
              Demo.graph (Some Demo.labels) 2%Z 3%Z (Some 1%R) None
              propagate_shape_preserving demo_wf) as [H|(e & He & _)].
  - simpl. lia.
  - exact H.
  - exfalso. revert He. tensor_compute. discriminate.
Defined.

Section WrapFacts.
Import Torch.

Lemma norm_index_wrap (n : nat) (i : Z) :
  (- Z.of_nat n <= i)%Z -> norm_index n (wrap_index n i) = norm_index n i.
Proof.
  intros Hlo. unfold wrap_index.
  destruct (i <? 0)%Z eqn:Eneg; [|reflexivity].
  apply Z.ltb_lt in Eneg. unfold norm_index.
  replace (0 <=? i + Z.of_nat n)%Z with true by (symmetry; apply Z.leb_le; lia).
  replace (i + Z.of_nat n <? Z.of_nat n)%Z with true
    by (symmetry; apply Z.ltb_lt; lia).
  replace (0 <=? i)%Z with false by (symmetry; apply Z.leb_gt; lia).
  replace (- Z.of_nat n <=? i)%Z with true by (symmetry; apply Z.leb_le; lia).
  replace (i <? 0)%Z with true by (symmetry; apply Z.ltb_lt; lia).
  simpl. reflexivity.
Qed.

Lemma gather_wrap {A : Type} (l : list A) (idx : Long1) :
  Forall (fun i => (- Z.of_nat (length l) <= i)%Z) idx ->
  gather l (map (wrap_index (length l)) idx) = gather l idx.
Proof.
  intros H. unfold gather. induction H as [|i idx Hi _ IH]; simpl; [reflexivity|].
  rewrite (norm_index_wrap _ _ Hi), IH. reflexivity.
Qed.

Lemma chunk2_list_map {A B : Type} (f : A -> B) (l : list A) :
  chunk2_list (map f l)
  = emap (fun p => (map f (fst p), map f (snd p))) (chunk2_list l).
Proof.
  unfold chunk2_list. rewrite length_map.
  destruct (length l =? 0)%nat; [reflexivity|].
  destruct (length l =? 1)%nat; [reflexivity|].
  simpl. now rewrite firstn_map, skipn_map.
Qed.

Lemma chunk2_list_parts {A : Type} (l a b : list A) :
  chunk2_list l = Ok (a, b) -> a ++ b = l.
Proof.
  unfold chunk2_list. destruct (length l =? 0)%nat eqn:E0.
  - apply Nat.eqb_eq in E0. destruct l; [|discriminate].
    intros H. injection H as <- <-. reflexivity.
  - destruct (length l =? 1)%nat; [discriminate|].
    intros H. injection H as <- <-. apply firstn_skipn.
Qed.

End WrapFacts.

(** X12.  Negative labels count from the end of the table: as long as no
    label is below [-num_nodes], replacing every negative label [i] by
    [i + num_nodes] changes neither what [forward] returns nor what it
    raises. *)
Theorem forward_negative_labels
  (LGConv : LGConv_t) (self : AIM_LightGCN Tensor) (g : Adj)
  (src dst : Long1) (nu ni : option Z) (sf : option R) (w : option Tensor) :
  shape_preserving LGConv -> wf_model self ->
  Forall (fun i => (- Z.of_nat (num_nodes self) <= i)%Z) (src ++ dst) ->
  forward LGConv self g
    (Some [map (wrap_index (num_nodes self)) src;
           map (wrap_index (num_nodes self)) dst]) nu ni sf w
  = forward LGConv self g (Some [src; dst]) nu ni sf w.
Proof.
  intros Hconv Hwf Hlo. apply Forall_app in Hlo. destruct Hlo as [Hsrc Hdst].
  unfold forward. by_value.
  destruct (get_embedding LGConv self g w nu ni sf) as [out|e] eqn:Hemb;
    [|reflexivity].
  destruct (get_embedding_shape LGConv self g w nu ni sf out Hconv Hwf Hemb)
    as (E' & -> & HEn & HEd).
  destruct Hwf as (_ & (B & HB & HBn & HBc) & _).
  cbn [Torch.long_getitem_int nth_error]. by_value.
  cbn [Torch.getitem_long]. rewrite <- HEn.
  rewrite !gather_wrap by (rewrite HEn; assumption).
  destruct (Torch.gather E' src) as [S|]; [|reflexivity].
  destruct (Torch.gather E' dst) as [D|]; [|reflexivity]. cbn [emap].
  destruct (Torch.mul (T2 S) (T2 D)) as [sd|]; [|reflexivity].
  destruct (Torch.sum_last sd) as [pnr|]; [|reflexivity].
  destruct (Torch.chunk2 pnr) as [[pr nr]|]; [|reflexivity].
  rewrite chunk2_list_map.
  destruct (Torch.chunk2_list dst) as [[pos_item neg_item]|] eqn:Ech;
    [|reflexivity].
  cbn [emap fst snd]. by_value. rewrite HB. cbn [Torch.getitem_long].
  apply chunk2_list_parts in Ech. rewrite <- Ech in Hdst.
  apply Forall_app in Hdst. destruct Hdst as [Hpos Hneg].
  rewrite HEn, <- HBn.
  rewrite !gather_wrap by (rewrite HBn; assumption).
  reflexivity.
Qed.

Lemma forward_negative_labels_witness :
  forward Propagation.propagate Demo.model Demo.graph
    (Some [[0; 1; 0; 1]; [2; 3; 3; 2]]%Z) (Some 2%Z) (Some 2%Z) (Some 1%R) None
  = forward Propagation.propagate Demo.model Demo.graph
      (Some [[0; -3; -4; 1]; [-2; -1; 3; 2]]%Z) (Some 2%Z) (Some 2%Z)
      (Some 1%R) None.
Proof.
  apply (forward_negative_labels Propagation.propagate Demo.model Demo.graph
           [0; -3; -4; 1]%Z [-2; -1; 3; 2]%Z (Some 2%Z) (Some 2%Z) (Some 1%R)
           None propagate_shape_preserving demo_wf).
  repeat constructor; simpl; lia.
Defined.

(* ===================================================================== *)
(** * More on the ranking loss *)
(* ===================================================================== *)

Module BprFacts.
Import Torch LossSpec LossFacts.
Local Open Scope R_scope.

Lemma logsigmoid_negative (x : R) : logsigmoid_R x < 0.
Proof.
  unfold logsigmoid_R. pose proof (exp_pos (- x)) as He.
  rewrite <- ln_1. apply ln_increasing.
  - apply Rdiv_lt_0_compat; lra.
  - apply (Rmult_lt_reg_r (1 + exp (- x))); [lra|].
    unfold Rdiv. rewrite Rmult_assoc, Rinv_l by lra. lra.
Qed.

Lemma sum_negative (f : R -> R) (v : list R) :
  (forall x, f x < 0) -> v <> [] -> vsum (map f v) < 0.
Proof.
  intros Hf Hv. destruct v as [|x v]; [contradiction|]. clear Hv.
  revert x. induction v as [|y v IH]; intros x; simpl.
  - pose proof (Hf x). lra.
  - pose proof (Hf x). specialize (IH y). simpl in IH. lra.
Qed.

Lemma bpr_positive (p q : list R) :
  length p = length q -> p <> [] -> 0 < bpr p q.
Proof.
  intros Hl Hp. unfold bpr, mean.
  assert (Hd : map2 Rminus p q <> []).
  { destruct p as [|x p]; [contradiction|].
    destruct q as [|y q]; [discriminate Hl|]. simpl. discriminate. }
  pose proof (sum_negative logsigmoid_R _ logsigmoid_negative Hd) as Hs.
  assert (Hn : 0 < INR (length (map logsigmoid_R (map2 Rminus p q)))).
  { apply lt_0_INR. rewrite length_map, map2_length by exact Hl.
    destruct p; [contradiction | simpl; lia]. }
  assert (Hq : vsum (map logsigmoid_R (map2 Rminus p q))
               / INR (length (map logsigmoid_R (map2 Rminus p q))) < 0).
  { unfold Rdiv. rewrite <- (Rmult_0_l (/ INR (length (map logsigmoid_R (map2 Rminus p q))))).
    apply Rmult_lt_compat_r; [now apply Rinv_0_lt_compat | exact Hs]. }
  unfold logsigmoid_R in Hq. unfold sigmoid. lra.
Qed.

Lemma reg_nonneg (lambda_reg : R) (emb : Tensor) (n : nat) :
  0 <= lambda_reg -> 0 <= reg lambda_reg emb n.
Proof.
  intros Hl. unfold reg, Rdiv.
  apply Rmult_le_pos.
  - apply Rmult_le_pos; [exact Hl|]. apply pow2_ge_0.
  - destruct n as [|n].
    + simpl. rewrite Rinv_0. lra.
    + left. apply Rinv_0_lt_compat. apply lt_0_INR. lia.
Qed.

Lemma map2_minus_shift (c : R) (p q : list R) :
  map2 Rminus (map (fun x => x + c) p) (map (fun x => x + c) q)
  = map2 Rminus p q.
Proof.
  revert q. induction p as [|x p IH]; intros [|y q]; simpl; try reflexivity.
  rewrite IH. f_equal. ring.
Qed.

Lemma map2_minus_self (p : list R) : map2 Rminus p p = map (fun _ => 0) p.
Proof. induction p as [|x p IH]; simpl; [reflexivity|]. rewrite IH. f_equal. ring. Qed.

Lemma logsigmoid_0 : logsigmoid_R 0 = - ln 2.
Proof.
  unfold logsigmoid_R. rewrite Ropp_0, exp_0.
  replace (1 / (1 + 1)) with (/ 2) by lra. apply ln_Rinv. lra.
Qed.

Lemma vsum_const (c : R) (p : list R) :
  vsum (map (fun _ => c) p) = INR (length p) * c.
Proof.
  induction p as [|x p IH].
  - simpl. ring.
  - cbn [map vsum fold_right length]. unfold vsum in IH. rewrite IH, S_INR. ring.
Qed.

Lemma bpr_equal_ranks (p : list R) : p <> [] -> bpr p p = ln 2.
Proof.
  intros Hp. unfold bpr, mean. rewrite map2_minus_self, map_map.
  rewrite (map_ext _ (fun _ => - ln 2)).
  - rewrite vsum_const, length_map.
    assert (Hn : INR (length p) <> 0).
    { apply not_0_INR. destruct p; [contradiction | discriminate]. }
    field. exact Hn.
  - intros _. change (ln (sigmoid 0)) with (logsigmoid_R 0). apply logsigmoid_0.
Qed.

(** Raising one negative rank lowers the sum of the log-sigmoids. *)
Lemma sum_logsigmoid_bump_neg (i : nat) (d : R) (p q : list R) :
  length p = length q -> (i < length q)%nat -> 0 < d ->
  vsum (map logsigmoid_R (map2 Rminus p (bump i d q)))
  < vsum (map logsigmoid_R (map2 Rminus p q)).
Proof.
  revert i q. induction p as [|x p IH]; intros i [|y q] Hl Hi Hd; simpl in *;
    try lia; try discriminate.
  destruct i as [|i]; simpl.
  - apply Rplus_lt_compat_r. apply logsigmoid_increasing. lra.
  - apply Rplus_lt_compat_l. apply IH; [lia | lia | exact Hd].
Qed.

Lemma bvec_mismatch (f : R -> R -> R) (u v : list R) :
  length u <> length v -> length u <> 1%nat -> length v <> 1%nat ->
  bvec f u v = Raise RuntimeError.
Proof.
  intros Hne Hu Hv. unfold bvec.
  replace (length u =? length v)%nat with false
    by (symmetry; now apply Nat.eqb_neq).
  destruct u as [|a [|a' u]]; destruct v as [|b [|b' v]];
    simpl in *; try reflexivity; try lia.
Qed.

End BprFacts.

(** X13.  For every [lambda_reg], on two ranks of the same length [n] and
    a node-index subset (if any) that the embedding table has,
    [recommendation_loss] is the ranking term plus
    [lambda_reg * ||emb||^2 / n], where [emb] is the embedding table, or
    its rows at [node_id], and [||emb||] the 2-norm of all its entries. *)
Theorem recommendation_loss_value
  (self : AIM_LightGCN Tensor) (pos neg : list R) (node_id : option Long1)
  (lambda_reg : R) (emb : Tensor) :
  length pos = length neg ->
  match node_id with
  | None => emb = embedding_weight self
  | Some idx => Torch.getitem_long idx (embedding_weight self) = Ok emb
  end ->
  exists v,
    recommendation_loss self (T1 pos) (T1 neg) node_id lambda_reg = Ok (T0 v) /\
    v = (LossSpec.bpr pos neg + LossSpec.reg lambda_reg emb (length pos))%R.
Proof.
  intros Hlen Hemb.
  assert (Hsel : recommendation_loss self (T1 pos) (T1 neg) node_id lambda_reg
                 = BPRLoss_forward lambda_reg (T1 pos) (T1 neg) (Some emb)).
  { unfold recommendation_loss. destruct node_id as [idx|]; by_value.
    - now rewrite Hemb.
    - now rewrite Hemb. }
  rewrite Hsel, (LossFacts.BPRLoss_forward_value lambda_reg pos neg _ Hlen).
  destruct (Req_dec_T lambda_reg 0) as [Hz|Hnz].
  - eexists. split; [reflexivity|]. rewrite Hz. unfold LossSpec.reg, Rdiv. ring.
  - eexists. split; reflexivity.
Qed.

Lemma recommendation_loss_value_witness :
  exists v,
    recommendation_loss Demo.model (T1 [2; 1]%R) (T1 [0; 0]%R)
      (Some [0; 2]%Z) (1 / 10000)%R = Ok (T0 v) /\
    v = (LossSpec.bpr [2; 1] [0; 0]
         + LossSpec.reg (1 / 10000) (T2 [[1; 0]; [3; 4]]) 2)%R.
Proof.
  apply (recommendation_loss_value Demo.model [2; 1]%R [0; 0]%R
           (Some [0; 2]%Z) (1 / 10000)%R (T2 [[1; 0]; [3; 4]]%R) eq_refl).
  tensor_compute. reflexivity.
Defined.

(** X14.  The loss is never negative: for [lambda_reg >= 0] and non-empty
    ranks of the same length, [BPRLoss.forward] returns a number that is
    at least 0, in exact arithmetic and on float32 tensors. *)
Theorem BPRLoss_is_nonnegative
  (lambda_reg : R) (params : Tensor) (pos neg : list R) :
  length pos = length neg -> pos <> [] -> (0 <= lambda_reg)%R ->
  (exists v,
     BPRLoss_forward lambda_reg (T1 pos) (T1 neg) (Some params) = Ok (T0 v) /\
     (0 <= v)%R) /\
  (exists v,
     BPRLoss_forward (Api := float32) lambda_reg (T1 pos) (T1 neg)
       (Some params) = Ok (T0 v) /\
     (0 <= v)%R).
Proof.
  intros Hlen Hne Hl. split.
  - rewrite (LossFacts.BPRLoss_forward_value lambda_reg pos neg _ Hlen).
    pose proof (BprFacts.bpr_positive pos neg Hlen Hne) as Hb.
    pose proof (BprFacts.reg_nonneg lambda_reg params (length pos) Hl) as Hr.
    destruct (Req_dec_T lambda_reg 0);
      (eexists; split; [reflexivity | lra]).
  - rewrite (Float32Facts.BPRLoss_forward_float32_value lambda_reg pos neg _ Hlen).
    pose proof (Float32Facts.log_prob_nonpos pos neg) as Hb.
    pose proof (Float32Facts.float32_reg_nonneg lambda_reg params (length pos) Hl) as Hr.
    assert (Hn : (0 <= Float32.round (- Float32.log_prob pos neg))%R)
      by (apply Float32Facts.round_nonneg; lra).
    destruct (Req_dec_T lambda_reg 0);
      (eexists; split; [reflexivity | apply Float32Facts.round_nonneg; lra]).
Qed.

Lemma BPRLoss_is_nonnegative_witness :
  (exists v,
     BPRLoss_forward (1 / 10000) (T1 [100; 50]%R) (T1 [0; 0]%R)
       (Some (T2 Demo.table)) = Ok (T0 v) /\
     (0 <= v)%R) /\
  (exists v,
     BPRLoss_forward (Api := float32) (1 / 10000) (T1 [100; 50]%R)
       (T1 [0; 0]%R) (Some (T2 Demo.table)) = Ok (T0 v) /\
     (0 <= v)%R).
Proof.
  apply (BPRLoss_is_nonnegative (1 / 10000) (T2 Demo.table) [100; 50]%R
           [0; 0]%R eq_refl).
  - discriminate.
  - lra.
Defined.

(** X15.  Only the differences of the ranks count: adding the same number
    to every positive and every negative rank does not change what
    [BPRLoss.forward] returns or raises. *)
Theorem BPRLoss_shift_invariant
  (lambda_reg : R) (params : option Tensor) (pos neg : list R) (c : R) :
  length pos = length neg ->
  BPRLoss_forward lambda_reg (T1 (map (fun x => (x + c)%R) pos))
    (T1 (map (fun x => (x + c)%R) neg)) params
  = BPRLoss_forward lambda_reg (T1 pos) (T1 neg) params.
Proof.
  intros Hlen.
  rewrite !LossFacts.BPRLoss_forward_value
    by (rewrite ?length_map; exact Hlen).
  unfold LossSpec.bpr. rewrite BprFacts.map2_minus_shift, length_map.
  reflexivity.
Qed.

Lemma BPRLoss_shift_invariant_witness :
  BPRLoss_forward 0 (T1 [2 + 5; 1 + 5]%R) (T1 [0 + 5; 3 + 5]%R) None
  = BPRLoss_forward 0 (T1 [2; 1]%R) (T1 [0; 3]%R) None.
Proof.
  exact (BPRLoss_shift_invariant 0 None [2; 1]%R [0; 3]%R 5 eq_refl).
Defined.

(** X16.  Increasing one entry of [neg_rank] by [d > 0], all else fixed,
    does not decrease the value of [BPRLoss.forward], in exact arithmetic
    and on float32 tensors. *)
Theorem BPRLoss_does_not_decrease_in_neg_rank
  (lambda_reg : R) (params : option Tensor) (pos neg : list R)
  (i : nat) (d : R) :
  length pos = length neg -> (i < length neg)%nat -> (0 < d)%R ->
  lambda_reg = 0%R \/ params <> None ->
  (exists a b,
     BPRLoss_forward lambda_reg (T1 pos) (T1 neg) params = Ok (T0 a) /\
     BPRLoss_forward lambda_reg (T1 pos) (T1 (LossSpec.bump i d neg)) params
       = Ok (T0 b) /\
     (a <= b)%R) /\
  (exists a b,
     BPRLoss_forward (Api := float32) lambda_reg (T1 pos) (T1 neg) params
       = Ok (T0 a) /\
     BPRLoss_forward (Api := float32) lambda_reg (T1 pos)
       (T1 (LossSpec.bump i d neg)) params = Ok (T0 b) /\
     (a <= b)%R).
Proof.
  intros Hlen Hi Hd Hreg.
  assert (Hlen' : length pos = length (LossSpec.bump i d neg))
    by (rewrite LossFacts.bump_length; exact Hlen).
  split.
  - rewrite (LossFacts.BPRLoss_forward_value lambda_reg pos neg params Hlen).
    rewrite (LossFacts.BPRLoss_forward_value lambda_reg pos _ params Hlen').
    assert (Hbpr : (LossSpec.bpr pos neg
                    < LossSpec.bpr pos (LossSpec.bump i d neg))%R).
    { unfold LossSpec.bpr, LossSpec.mean.
      pose proof (BprFacts.sum_logsigmoid_bump_neg i d pos neg Hlen Hi Hd) as Hsum.
      rewrite !length_map, !map2_length by assumption.
      assert (Hn : (0 < INR (length pos))%R) by (apply lt_0_INR; lia).
      apply Ropp_lt_contravar. unfold Rdiv.
      apply Rmult_lt_compat_r; [now apply Rinv_0_lt_compat | exact Hsum]. }
    destruct (Req_dec_T lambda_reg 0) as [Hz|Hnz].
    + eexists. eexists. split; [reflexivity|]. split; [reflexivity|]. lra.
    + destruct params as [emb|].
      * eexists. eexists. split; [reflexivity|]. split; [reflexivity|]. lra.
      * destruct Hreg as [Hz|Hp]; [contradiction | now elim Hp].
  - rewrite (Float32Facts.BPRLoss_forward_float32_value lambda_reg pos neg params Hlen).
    rewrite (Float32Facts.BPRLoss_forward_float32_value lambda_reg pos _ params Hlen').
    assert (Hlp : (Float32.round (- Float32.log_prob pos neg)
                   <= Float32.round
                        (- Float32.log_prob pos (LossSpec.bump i d neg)))%R).
    { apply Float32Facts.round_monotone, Ropp_le_contravar.
      apply Float32Facts.log_prob_monotone, Float32Facts.diffs_bump_neg. lra. }
    destruct (Req_dec_T lambda_reg 0) as [Hz|Hnz].
    + eexists. eexists. split; [reflexivity|]. split; [reflexivity|].
      apply Float32Facts.round_monotone. lra.
    + destruct params as [emb|].
      * eexists. eexists. split; [reflexivity|]. split; [reflexivity|].
        apply Float32Facts.round_monotone. lra.
      * destruct Hreg as [Hz|Hp]; [contradiction | now elim Hp].
Qed.

Lemma BPRLoss_does_not_decrease_in_neg_rank_witness :
  (exists a b,
     BPRLoss_forward 0 (T1 [2; 1]%R) (T1 [0; 0]%R) None = Ok (T0 a) /\
     BPRLoss_forward 0 (T1 [2; 1]%R) (T1 [0; 0 + 1]%R) None = Ok (T0 b) /\
     (a <= b)%R) /\
  (exists a b,
     BPRLoss_forward (Api := float32) 0 (T1 [2; 1]%R) (T1 [0; 0]%R) None
       = Ok (T0 a) /\
     BPRLoss_forward (Api := float32) 0 (T1 [2; 1]%R) (T1 [0; 0 + 1]%R) None
       = Ok (T0 b) /\
     (a <= b)%R).
Proof.
  apply (BPRLoss_does_not_decrease_in_neg_rank 0 None [2; 1]%R [0; 0]%R 1 1
           eq_refl).
  - simpl. lia.
  - lra.
  - left. reflexivity.
Defined.

(** X17.  When every positive rank equals its negative rank, the loss
    without regularisation is [ln 2], whatever the ranks are. *)
Theorem BPRLoss_on_equal_ranks (params : option Tensor) (pos : list R) :
  pos <> [] ->
  exists v,
    BPRLoss_forward 0 (T1 pos) (T1 pos) params = Ok (T0 v) /\ v = ln 2.
Proof.
  intros Hne.
  rewrite (LossFacts.BPRLoss_forward_value 0 pos pos params eq_refl).
  destruct (Req_dec_T 0 0) as [_|Hnz]; [|now elim Hnz].
  eexists. split; [reflexivity|].
  rewrite (BprFacts.bpr_equal_ranks pos Hne). ring.
Qed.

Lemma BPRLoss_on_equal_ranks_witness :
  exists v,
    BPRLoss_forward 0 (T1 [3; -1]%R) (T1 [3; -1]%R) None = Ok (T0 v) /\
    v = ln 2.
Proof.
  apply (BPRLoss_on_equal_ranks None [3; -1]%R). discriminate.
Defined.

(** X18.  Two ranks of different lengths, neither of length 1, cannot be
    subtracted: [BPRLoss.forward] raises [RuntimeError].  (A rank of
    length 1 would be broadcast against the other one.) *)
Theorem BPRLoss_length_mismatch
  (lambda_reg : R) (params : option Tensor) (pos neg : list R) :
  length pos <> length neg -> length pos <> 1%nat -> length neg <> 1%nat ->
  BPRLoss_forward lambda_reg (T1 pos) (T1 neg) params = Raise RuntimeError.
Proof.
  intros Hne Hp Hn. unfold BPRLoss_forward. by_value.
  unfold Torch.sub. cbn [Torch.binop].
  now rewrite (BprFacts.bvec_mismatch Rminus pos neg Hne Hp Hn).
Qed.

Lemma BPRLoss_length_mismatch_witness :
  BPRLoss_forward 0 (T1 [2; 1; 0]%R) (T1 [0; 0]%R) None = Raise RuntimeError.
Proof.
  apply (BPRLoss_length_mismatch 0 None [2; 1; 0]%R [0; 0]%R); simpl; lia.
Defined.

(** X19.  With a non-zero [lambda_reg] the parameters are needed:
    [BPRLoss.forward] called without them (their default is [None])
    raises [AttributeError], after the ranking term has been computed. *)
Theorem BPRLoss_without_parameters
  (lambda_reg : R) (pos neg : list R) :
  length pos = length neg -> lambda_reg <> 0%R ->
  BPRLoss_forward lambda_reg (T1 pos) (T1 neg) None = Raise AttributeError.
Proof.
  intros Hlen Hnz.
  rewrite (LossFacts.BPRLoss_forward_value lambda_reg pos neg None Hlen).
  destruct (Req_dec_T lambda_reg 0); [contradiction | reflexivity].
Qed.

Lemma BPRLoss_without_parameters_witness :
  BPRLoss_forward 1 (T1 [2; 1]%R) (T1 [0; 0]%R) None = Raise AttributeError.
Proof.
  apply (BPRLoss_without_parameters 1 [2; 1]%R [0; 0]%R eq_refl). lra.
Defined.

(** X20.  [recommendation_loss] selects the rows at [node_id] before it
    looks at anything else: a node index outside the embedding table
    raises [IndexError] whatever the ranks are, and even for
    [lambda_reg = 0], where the rows are not used. *)
Theorem recommendation_loss_bad_node_id
  (self : AIM_LightGCN Tensor) (pos neg : Tensor) (idx : Long1)
  (lambda_reg : R) (E : list (list R)) :
  embedding_weight self = T2 E ->
  Exists (fun i => ~ index_in_range (length E) i) idx ->
  recommendation_loss self pos neg (Some idx) lambda_reg = Raise IndexError.
Proof.
  intros HE Hbad. unfold recommendation_loss. by_value.
  rewrite HE. cbn [Torch.getitem_long].
  now rewrite (gather_out_of_range E idx Hbad).
Qed.

Lemma recommendation_loss_bad_node_id_witness :
  recommendation_loss Demo.model (T1 [2%R]) (T1 [0%R]) (Some [0; 4]%Z) 0
  = Raise IndexError.
Proof.
  apply (recommendation_loss_bad_node_id Demo.model (T1 [2%R]) (T1 [0%R])
           [0; 4]%Z 0 Demo.table eq_refl).
  apply Exists_cons_tl. apply Exists_cons_hd.
  unfold index_in_range. simpl. lia.
Defined.

(* ===================================================================== *)
(** * [predict_link] *)
(* ===================================================================== *)

Section PredictLinkFacts.
Variable LGConv : LGConv_t.

Lemma raises_through_bind {A B : Type} (m : Exc A) (k : A -> Exc B) :
  (forall a, exists e, k a = Raise e) -> exists e, bind m k = Raise e.
Proof.
  intros Hk. destruct m as [a|e]; by_value; [apply Hk | eauto].
Qed.

Lemma raises_through_bind_by_reference {A B : Type} (m : HM A) (k : A -> HM B) :
  (forall a s, exists e s', k a s = (Raise e, s')) ->
  forall s, exists e s', bind m k s = (Raise e, s').
Proof.
  intros Hk s. cbn [bind HM_monad].
  destruct (m s) as [[a|e] s1]; [apply Hk | eauto].
Qed.

(** Without [num_users], [forward] raises. *)
Lemma forward_no_sizes (self : AIM_LightGCN Tensor) g eli ni sf w :
  exists e, forward LGConv self g eli None ni sf w = Raise e.
Proof.
  unfold forward. apply raises_through_bind. intros lbl.
  destruct (get_embedding_no_sizes LGConv self g w ni sf) as [[e He] _].
  rewrite He. by_value. eauto.
Qed.

Lemma forward_by_reference_no_sizes (self : AIM_LightGCN loc) g eli ni sf w s :
  exists e s', forward LGConv self g eli None ni sf w s = (Raise e, s').
Proof.
  unfold forward. apply raises_through_bind_by_reference. intros lbl s1.
  destruct (get_embedding_by_reference_no_sizes LGConv self g w ni sf s1)
    as (e & s' & He).
  cbn [bind HM_monad]. rewrite He. eauto.
Qed.

End PredictLinkFacts.

(** X21.  [predict_link] never returns.  Its call of the model passes
    [edge_weight] where [forward] expects [num_users], and no
    [num_items]: the split of [get_embedding] raises, for every model,
    graph, label index, edge weight and [prob], by value and by
    reference.  With a label index, once the layers succeed, the exception
    is the [TypeError] of the split. *)
Theorem predict_link_never_returns
  (LGConv : LGConv_t) (g : Adj) (eli : option Long2)
  (w : option Tensor) (prob : bool) :
  (forall self : AIM_LightGCN Tensor,
     exists e, predict_link LGConv self g eli w prob = Raise e) /\
  (forall (self : AIM_LightGCN Tensor) lbl out,
     eli = Some lbl -> get_embedding_layers LGConv self g None = Ok out ->
     predict_link LGConv self g eli w prob = Raise TypeError) /\
  (forall (self : AIM_LightGCN loc) (s : Store),
     exists e s', predict_link LGConv self g eli w prob s = (Raise e, s')).
Proof.
  split; [|split].
  - intros self.
    destruct (forward_no_sizes LGConv self g eli None None None) as [e He].
    exists e. unfold predict_link.
    replace (opt_tensor_as_size w) with (@None Z) by (now destruct w).
    now rewrite He.
  - intros self lbl out -> Hl. unfold predict_link, forward. by_value.
    destruct (get_embedding_no_sizes LGConv self g None None None) as [_ H].
    replace (opt_tensor_as_size w) with (@None Z) by (now destruct w).
    now rewrite (H out Hl).
  - intros self s.
    destruct (forward_by_reference_no_sizes LGConv self g eli None None None s)
      as (e & s' & He).
    exists e, s'. unfold predict_link.
    replace (opt_tensor_as_size w) with (@None Z) by (now destruct w).
    cbn [bind HM_monad]. now rewrite He.
Qed.

(* ===================================================================== *)
(** * [link_pred_loss] *)
(* ===================================================================== *)

Module BceFacts.
Import Torch TorchLoss.
Local Open Scope R_scope.

Lemma nat_list_eqb_eq (l l' : list nat) : nat_list_eqb l l' = true <-> l = l'.
Proof.
  revert l'. induction l as [|a l IH]; intros [|b l']; simpl;
    try (split; [discriminate | discriminate]); [tauto|].
  rewrite andb_true_iff, Nat.eqb_eq, IH. split.
  - intros [-> ->]. reflexivity.
  - intros H. injection H as -> ->. auto.
Qed.

Lemma same_size_shape (a b : Tensor) : same_size a b = true <-> shape a = shape b.
Proof.
  unfold same_size. rewrite andb_true_iff, Nat.eqb_eq, nat_list_eqb_eq.
  destruct (shape a) as [n l], (shape b) as [n' l']. simpl. split.
  - intros [-> ->]. reflexivity.
  - intros H. injection H as -> ->. auto.
Qed.

Lemma link_pred_loss_run (self : AIM_LightGCN Tensor) (pred label : Tensor) :
  link_pred_loss self pred label = bce_with_logits pred label.
Proof. reflexivity. Qed.

Lemma sigmoid_bounds (x : R) : 0 < sigmoid_R x < 1.
Proof.
  unfold sigmoid_R. pose proof (exp_pos (- x)) as He. split.
  - apply Rdiv_lt_0_compat; lra.
  - apply (Rmult_lt_reg_r (1 + exp (- x))); [lra|].
    unfold Rdiv. rewrite Rmult_assoc, Rinv_l by lra. lra.
Qed.

Lemma ln_below_one (u : R) : 0 < u < 1 -> ln u < 0.
Proof. intros [H0 H1]. rewrite <- ln_1. now apply ln_increasing. Qed.

Lemma bce_entry_nonneg (x y : R) : 0 <= y <= 1 -> 0 <= bce_entry x y.
Proof.
  intros Hy. unfold bce_entry.
  pose proof (sigmoid_bounds x) as Hs.
  assert (H1 : ln (sigmoid_R x) < 0) by (apply ln_below_one; exact Hs).
  assert (H2 : ln (1 - sigmoid_R x) < 0) by (apply ln_below_one; lra).
  assert (Ha : 0 <= y * - ln (sigmoid_R x)) by (apply Rmult_le_pos; lra).
  assert (Hb : 0 <= (1 - y) * - ln (1 - sigmoid_R x)) by (apply Rmult_le_pos; lra).
  lra.
Qed.

Lemma sum_bce_nonneg (xs ys : list R) :
  Forall (fun y => 0 <= y <= 1) ys -> 0 <= vsum (map2 bce_entry xs ys).
Proof.
  revert ys. induction xs as [|x xs IH]; intros [|y ys] H; cbn [map2];
    unfold vsum; cbn [fold_right]; try lra.
  inversion H as [|? ? Hy Hys]; subst.
  pose proof (bce_entry_nonneg x y Hy). specialize (IH ys Hys).
  unfold vsum in IH. lra.
Qed.

Lemma one_minus_sigmoid (x : R) : 1 - sigmoid_R x = sigmoid_R (- x).
Proof.
  unfold sigmoid_R. rewrite Ropp_involutive.
  pose proof (exp_pos x) as Hx. pose proof (exp_pos (- x)) as Hn.
  assert (Hinv : exp (- x) = / exp x) by apply exp_Ropp.
  rewrite Hinv. field. split; lra.
Qed.

Lemma bce_entry_mirror (x y : R) : bce_entry (- x) (1 - y) = bce_entry x y.
Proof.
  unfold bce_entry.
  rewrite <- (one_minus_sigmoid x).
  replace (1 - (1 - sigmoid_R x)) with (sigmoid_R x) by ring.
  ring.
Qed.

Lemma map2_mirror (xs ys : list R) :
  map2 bce_entry (map Ropp xs) (map (fun y => 1 - y) ys) = map2 bce_entry xs ys.
Proof.
  revert ys. induction xs as [|x xs IH]; intros [|y ys]; simpl; try reflexivity.
  now rewrite bce_entry_mirror, IH.
Qed.

Lemma entries_tmap (f : R -> R) (t : Tensor) :
  entries (tmap f t) = map f (entries t).
Proof.
  destruct t as [x|v|m]; simpl; try reflexivity.
  now rewrite concat_map.
Qed.

Lemma sum_bce_ones (d : list R) :
  vsum (map2 bce_entry d (repeat 1 (length d)))
  = - vsum (map (fun x => ln (LossSpec.sigmoid x)) d).
Proof.
  induction d as [|x d IH]; cbn [length repeat map2 map]; unfold vsum;
    cbn [fold_right].
  - ring.
  - unfold vsum in IH. rewrite IH. unfold bce_entry, sigmoid_R, LossSpec.sigmoid.
    ring.
Qed.

End BceFacts.

(** X22.  [link_pred_loss] does not broadcast: a prediction and a label
    tensor of different shapes raise [ValueError]. *)
Theorem link_pred_loss_shape_mismatch
  (self : AIM_LightGCN Tensor) (pred edge_label : Tensor) :
  Torch.shape pred <> Torch.shape edge_label ->
  link_pred_loss self pred edge_label = Raise ValueError.
Proof.
  intros Hne. rewrite BceFacts.link_pred_loss_run. unfold TorchLoss.bce_with_logits.
  destruct (TorchLoss.same_size pred edge_label) eqn:Es; [|reflexivity].
  apply BceFacts.same_size_shape in Es. contradiction.
Qed.

Lemma link_pred_loss_shape_mismatch_witness :
  link_pred_loss Demo.model (T1 [1; 2; 3]%R) (T1 [1; 0]%R) = Raise ValueError.
Proof.
  apply (link_pred_loss_shape_mismatch Demo.model (T1 [1; 2; 3]%R) (T1 [1; 0]%R)).
  simpl. discriminate.
Defined.

(** X23.  With every label equal to 1, [link_pred_loss] on the logits
    [pos - neg] is [recommendation_loss] on [pos] and [neg] without
    regularisation: the ranking loss is the cross entropy of the rank
    differences against positive labels. *)
Theorem link_pred_loss_on_positive_labels
  (self : AIM_LightGCN Tensor) (pos neg : list R) :
  length pos = length neg ->
  link_pred_loss self (T1 (Torch.map2 Rminus pos neg))
    (T1 (repeat 1%R (length pos)))
  = recommendation_loss self (T1 pos) (T1 neg) None 0.
Proof.
  intros Hlen. rewrite BceFacts.link_pred_loss_run.
  unfold recommendation_loss. by_value.
  rewrite (LossFacts.BPRLoss_forward_value 0 pos neg _ Hlen).
  destruct (Req_dec_T 0 0) as [_|Hnz]; [|now elim Hnz].
  unfold TorchLoss.bce_with_logits.
  assert (Hs : TorchLoss.same_size (T1 (Torch.map2 Rminus pos neg))
                 (T1 (repeat 1%R (length pos))) = true).
  { apply BceFacts.same_size_shape. simpl.
    now rewrite repeat_length, map2_length. }
  rewrite Hs. cbn [Torch.entries]. do 2 f_equal.
  rewrite <- (map2_length Rminus pos neg Hlen) at 1.
  rewrite BceFacts.sum_bce_ones.
  unfold LossSpec.bpr, LossSpec.mean. rewrite length_map.
  unfold Rdiv. ring.
Qed.

Lemma link_pred_loss_on_positive_labels_witness :
  link_pred_loss Demo.model (T1 [(2 - 0)%R; (1 - 3)%R]) (T1 [1%R; 1%R])
  = recommendation_loss Demo.model (T1 [2; 1]%R) (T1 [0; 3]%R) None 0.
Proof.
  exact (link_pred_loss_on_positive_labels Demo.model [2; 1]%R [0; 3]%R eq_refl).
Defined.

(** X24.  On a non-empty prediction and labels of its shape that all lie
    between 0 and 1, [link_pred_loss] returns a number that is not
    negative. *)
Theorem link_pred_loss_nonnegative
  (self : AIM_LightGCN Tensor) (pred edge_label : Tensor) :
  Torch.shape pred = Torch.shape edge_label ->
  Torch.entries pred <> [] ->
  Forall (fun y => 0 <= y <= 1)%R (Torch.entries edge_label) ->
  exists v, link_pred_loss self pred edge_label = Ok (T0 v) /\ (0 <= v)%R.
Proof.
  intros Hs Hne Hy. rewrite BceFacts.link_pred_loss_run.
  unfold TorchLoss.bce_with_logits.
  apply BceFacts.same_size_shape in Hs. rewrite Hs.
  eexists. split; [reflexivity|].
  pose proof (BceFacts.sum_bce_nonneg (Torch.entries pred) _ Hy) as Hsum.
  assert (Hn : (0 < INR (length (Torch.entries pred)))%R).
  { apply lt_0_INR. destruct (Torch.entries pred); [contradiction | simpl; lia]. }
  unfold Rdiv. apply Rmult_le_pos; [exact Hsum|].
  left. now apply Rinv_0_lt_compat.
Qed.

Lemma link_pred_loss_nonnegative_witness :
  exists v,
    link_pred_loss Demo.model (T1 [3; -2]%R) (T1 [1; 0]%R) = Ok (T0 v) /\
    (0 <= v)%R.
Proof.
  apply (link_pred_loss_nonnegative Demo.model (T1 [3; -2]%R) (T1 [1; 0]%R)
           eq_refl).
  - discriminate.
  - repeat constructor; lra.
Defined.

(** X25.  [link_pred_loss] treats the two classes alike: negating every
    logit and replacing every label [y] by [1 - y] changes neither the
    value nor the exception. *)
Theorem link_pred_loss_mirror
  (self : AIM_LightGCN Tensor) (pred edge_label : Tensor) :
  link_pred_loss self (Torch.tmap Ropp pred)
    (Torch.tmap (fun y => (1 - y)%R) edge_label)
  = link_pred_loss self pred edge_label.
Proof.
  rewrite !BceFacts.link_pred_loss_run. unfold TorchLoss.bce_with_logits.
  assert (Hs : TorchLoss.same_size (Torch.tmap Ropp pred)
                 (Torch.tmap (fun y => (1 - y)%R) edge_label)
               = TorchLoss.same_size pred edge_label).
  { unfold TorchLoss.same_size. now rewrite !TorchFacts.tmap_shape. }
  rewrite Hs. destruct (TorchLoss.same_size pred edge_label); [|reflexivity].
  rewrite !BceFacts.entries_tmap, BceFacts.map2_mirror, length_map.
  reflexivity.
Qed.

(* ===================================================================== *)
(** * More on construction *)
(* ===================================================================== *)

(** X26.  Whatever [alpha] the caller gives and [__init__] accepts
    (nothing, a float, or a tensor of length [num_layers + 1]), the model
    that [__init__] returns is well formed for the sizes asked for, its two
    tables are two new tensors, and every tensor that existed before the
    call is what it was (the tables being of a size that the initialiser
    accepts, that is, not 0 x 0). *)
Theorem init_builds_a_model
  (normal_sample xavier_sample : nat -> nat -> nat -> R)
  (nn d L : nat) (arg : AlphaArg) (s : Store) :
  (0 < nn + d)%nat ->
  match arg with
  | AlphaTensor t => exists a, lookup s t = Some (T1 a) /\ length a = (L + 1)%nat
  | _ => True
  end ->
  exists self s' v,
    AIM_LightGCN_init normal_sample xavier_sample nn d L arg s = (Ok self, s') /\
    model_holds s' self v /\ wf_model v /\
    (num_nodes v = nn /\ embedding_dim v = d /\ num_layers v = L) /\
    (length (cells s) <= embedding_weight self)%nat /\
    (length (cells s) <= beta_weight self)%nat /\
    embedding_weight self <> beta_weight self /\
    (forall l, (l < length (cells s))%nat -> lookup s' l = lookup s l).
Proof.
  intros Hpos Harg. rewrite InitFacts.init_split.
  assert (Halpha : exists al a s1,
            init_alpha L arg s = (Ok al, s1) /\
            lookup s1 al = Some (T1 a) /\ length a = (L + 1)%nat /\
            (al < length (cells s1))%nat /\
            (length (cells s) <= length (cells s1))%nat /\
            (forall l, (l < length (cells s))%nat -> lookup s1 l = lookup s l)).
  { assert (Hnew : forall x : R,
              let s1 := {| cells := cells s ++ [T1 (repeat x (L + 1))];
                           rng := rng s |} in
              lookup s1 (length (cells s)) = Some (T1 (repeat x (L + 1))) /\
              (length (cells s) < length (cells s1))%nat /\
              (length (cells s) <= length (cells s1))%nat /\
              (forall l, (l < length (cells s))%nat -> lookup s1 l = lookup s l)).
    { intros x s1. unfold lookup, s1. cbn [cells]. rewrite length_app. cbn [length].
      split; [|split; [lia | split; [lia|]]].
      - rewrite <- (Nat.add_0_r (length (cells s))).
        now rewrite InitFacts.nth_error_past.
      - intros l Hl. now apply nth_error_app1. }
    destruct arg as [|x|t].
    - destruct (Hnew (1 / INR (L + 1))%R) as (H1 & H2 & H3 & H4).
      eexists. eexists. eexists. split; [reflexivity|].
      split; [exact H1|]. split; [apply repeat_length|].
      split; [exact H2|]. split; [exact H3 | exact H4].
    - destruct (Hnew x) as (H1 & H2 & H3 & H4).
      eexists. eexists. eexists. split; [reflexivity|].
      split; [exact H1|]. split; [apply repeat_length|].
      split; [exact H2|]. split; [exact H3 | exact H4].
    - destruct Harg as (a & Ht & Hlen).
      assert (Hsize : peek Torch.size0 t s = (Ok (length a), s)).
      { cbn [peek by_reference bind HM_monad]. unfold read.
        unfold lookup in Ht. now rewrite Ht. }
      exists t, a, s. split.
      { unfold init_alpha. rewrite (InitFacts.bind_run_ok _ _ _ _ _ Hsize).
        apply Nat.eqb_eq in Hlen. now rewrite Hlen. }
      split; [exact Ht|]. split; [exact Hlen|].
      split; [|split; [lia | auto]].
      apply nth_error_Some. unfold lookup in Ht. congruence. }
  destruct Halpha as (al & a & s1 & Hrun1 & Hal & Hlen & Hlt & Hle & Hkeep1).
  destruct (InitFacts.init_tables_run normal_sample xavier_sample nn d L al s1 Hpos)
    as (e & b & s' & Hrun & Hepos & Hbpos & Hkeep & He & Hb).
  rewrite (InitFacts.bind_run_ok _ _ _ _ _ Hrun1), Hrun.
  eexists. eexists.
  exists {| num_nodes := nn; embedding_dim := d; num_layers := L;
            alpha := T1 a;
            embedding_weight :=
              T2 (sample_matrix xavier_sample (S (S (rng s1))) nn d);
            beta_weight :=
              T2 (sample_matrix xavier_sample (S (S (S (rng s1)))) nn 1) |}.
  split; [reflexivity|].
  cbn [num_nodes embedding_dim num_layers alpha embedding_weight beta_weight].
  split; [|split; [|split; [|split; [|split; [|split]]]]].
  - unfold model_holds, holds.
    cbn [num_layers alpha embedding_weight beta_weight].
    split; [reflexivity|]. split; [|split; assumption].
    now rewrite Hkeep.
  - unfold wf_model.
    cbn [num_nodes embedding_dim num_layers alpha embedding_weight beta_weight].
    split; [|split].
    + eexists. split; [reflexivity|].
      split; [apply InitFacts.sample_matrix_rows | apply sample_matrix_cols].
    + eexists. split; [reflexivity|].
      split; [apply InitFacts.sample_matrix_rows | apply sample_matrix_cols].
    + exists a. split; [reflexivity | exact Hlen].
  - repeat split.
  - lia.
  - lia.
  - lia.
  - intros l Hl. rewrite Hkeep by lia. now apply Hkeep1.
Qed.

Lemma init_builds_a_model_witness :
  exists self s' v,
    AIM_LightGCN_init InitDemo.normal_sample InitDemo.xavier_sample 4 2 1
      (AlphaFloat (1 / 4)) InitDemo.store = (Ok self, s') /\
    model_holds s' self v /\ wf_model v /\
    (num_nodes v = 4%nat /\ embedding_dim v = 2%nat /\ num_layers v = 1%nat) /\
    (length (cells InitDemo.store) <= embedding_weight self)%nat /\
    (length (cells InitDemo.store) <= beta_weight self)%nat /\
    embedding_weight self <> beta_weight self /\
    (forall l, (l < length (cells InitDemo.store))%nat ->
               lookup s' l = lookup InitDemo.store l).
Proof.
  apply (init_builds_a_model InitDemo.normal_sample InitDemo.xavier_sample
           4 2 1 (AlphaFloat (1 / 4)) InitDemo.store).
  - lia.
  - exact I.
Defined.

Lemma same_row_lengths (d : nat) (m m' : list (list R)) :
  length m = length m' ->
  Forall (fun r => length r = d) m -> Forall (fun r => length r = d) m' ->
  map (@length R) m = map (@length R) m'.
Proof.
  revert m'. induction m as [|r m IH]; intros [|r' m'] Hl Hm Hm';
    simpl in *; try discriminate; [reflexivity|].
  inversion Hm; subst. inversion Hm'; subst.
  f_equal; [congruence | apply IH; auto].
Qed.

(** X27.  [reset_parameters] works in place on a well-formed model: it
    returns, allocates nothing, replaces the two tables by tables of the
    same shapes, and leaves every other tensor, the alpha vector among
    them, as it was; the model is still well formed (the tables being of
    a size that the initialiser accepts). *)
Theorem reset_parameters_keeps_the_model_well_formed
  (xavier_sample : nat -> nat -> nat -> R)
  (self : AIM_LightGCN loc) (v : AIM_LightGCN Tensor) (s : Store) :
  model_holds s self v -> wf_model v ->
  embedding_dim self = embedding_dim v ->
  embedding_weight self <> beta_weight self ->
  (0 < num_nodes v + embedding_dim v)%nat ->
  exists s' v',
    reset_parameters xavier_sample self s = (Ok tt, s') /\
    length (cells s') = length (cells s) /\
    (forall l, l <> embedding_weight self -> l <> beta_weight self ->
               lookup s' l = lookup s l) /\
    model_holds s' self v' /\ wf_model v' /\
    alpha v' = alpha v /\
    Torch.shape (embedding_weight v') = Torch.shape (embedding_weight v) /\
    Torch.shape (beta_weight v') = Torch.shape (beta_weight v).
Proof.
  intros (HL & Ha & He & Hb) ((E & HE & HEn & HEd) & (B & HB & HBn & HB1)
                              & (a & Hav & Hal)) Hd Hne Hpos.
  unfold holds in *. rewrite HE in He. rewrite HB in Hb. rewrite Hav in Ha.
  assert (Hae : alpha self <> embedding_weight self) by congruence.
  assert (Hab : alpha self <> beta_weight self) by congruence.
  unfold reset_parameters.
  destruct (InitFacts.xavier_uniform_run xavier_sample (embedding_dim self)
              (embedding_weight self) E s He)
    as (s1 & Hrun1 & Hlen1 & Hnew1 & Hkeep1); [lia|].
  assert (HB1' : lookup s1 (beta_weight self) = Some (T2 B)).
  { rewrite Hkeep1; [exact Hb | congruence]. }
  destruct (InitFacts.xavier_uniform_run xavier_sample 1
              (beta_weight self) B s1 HB1')
    as (s2 & Hrun2 & Hlen2 & Hnew2 & Hkeep2); [lia|].
  rewrite (InitFacts.bind_run_ok _ _ _ _ _ Hrun1).
  rewrite (InitFacts.bind_run_ok _ _ _ _ _ Hrun2).
  assert (Hloop : for_range (num_layers self)
                    (fun (_ : nat) (u : unit) => ret (M := HM) u) tt s2
                  = (Ok tt, s2)).
  { unfold for_range. generalize (seq 0 (num_layers self)). intros l.
    induction l as [|x l IH]; simpl; [reflexivity | exact IH]. }
  rewrite Hloop. exists s2.
  exists {| num_nodes := num_nodes v; embedding_dim := embedding_dim v;
            num_layers := num_layers v; alpha := T1 a;
            embedding_weight :=
              T2 (sample_matrix xavier_sample (rng s) (length E) (embedding_dim self));
            beta_weight :=
              T2 (sample_matrix xavier_sample (rng s1) (length B) 1) |}.
  split; [reflexivity|]. split; [congruence|].
  split; [|split; [|split; [|split; [|split]]]].
  - intros l H1 H2. now rewrite Hkeep2, Hkeep1.
  - unfold model_holds, holds.
    cbn [num_layers alpha embedding_weight beta_weight].
    split; [exact HL|]. split; [|split].
    + now rewrite Hkeep2, Hkeep1.
    + rewrite Hkeep2 by exact Hne. exact Hnew1.
    + exact Hnew2.
  - unfold wf_model.
    cbn [num_nodes embedding_dim num_layers alpha embedding_weight beta_weight].
    split; [|split].
    + eexists. split; [reflexivity|].
      split; [now rewrite InitFacts.sample_matrix_rows|].
      rewrite Hd. apply sample_matrix_cols.
    + eexists. split; [reflexivity|].
      split; [now rewrite InitFacts.sample_matrix_rows | apply sample_matrix_cols].
    + exists a. split; [reflexivity | exact Hal].
  - cbn [alpha]. now rewrite Hav.
  - cbn [embedding_weight]. rewrite HE. cbn [Torch.shape]. f_equal.
    apply (same_row_lengths (embedding_dim v)).
    + apply InitFacts.sample_matrix_rows.
    + rewrite Hd. apply sample_matrix_cols.
    + exact HEd.
  - cbn [beta_weight]. rewrite HB. cbn [Torch.shape]. f_equal.
    apply (same_row_lengths 1).
    + apply InitFacts.sample_matrix_rows.
    + apply sample_matrix_cols.
    + exact HB1.
Qed.

Lemma reset_parameters_keeps_the_model_well_formed_witness :
  exists s' v',
    reset_parameters InitDemo.xavier_sample DemoRef.model DemoRef.store
    = (Ok tt, s') /\
    length (cells s') = length (cells DemoRef.store) /\
    (forall l, l <> embedding_weight DemoRef.model ->
               l <> beta_weight DemoRef.model ->
               lookup s' l = lookup DemoRef.store l) /\
    model_holds s' DemoRef.model v' /\ wf_model v' /\
    alpha v' = alpha Demo.model /\
    Torch.shape (embedding_weight v') = Torch.shape (embedding_weight Demo.model) /\
    Torch.shape (beta_weight v') = Torch.shape (beta_weight Demo.model).
Proof.
  apply (reset_parameters_keeps_the_model_well_formed InitDemo.xavier_sample
           DemoRef.model Demo.model DemoRef.store).
  - unfold model_holds, holds. repeat split.
  - exact demo_wf.
  - reflexivity.
  - simpl. discriminate.
  - simpl. lia.
Defined.

(* ===================================================================== *)
(** * More on the two readings *)
(* ===================================================================== *)

Module OtherMethodsFacts.
Import HeapFacts Refinement.

Lemma ao_predict_link (LGConv : LGConv_t) (self : AIM_LightGCN loc) g eli w prob :
  allocates_only (predict_link LGConv self g eli w prob).
Proof.
  unfold predict_link.
  apply ao_bind; [apply ao_forward | intros ?]. apply ao_raise.
Qed.

Lemma ao_link_pred_loss (self : AIM_LightGCN loc) (pred label : loc) :
  allocates_only (link_pred_loss self pred label).
Proof.
  unfold link_pred_loss.
  apply ao_bind; [apply ao_new1 | intros ?]. apply ao_new2.
Qed.

Lemma link_pred_loss_refines s (h : AIM_LightGCN loc) (v : AIM_LightGCN Tensor)
  (p l : loc) (p' l' : Tensor) :
  holds s p p' -> holds s l l' ->
  refines holds s (link_pred_loss h p l) (link_pred_loss v p' l').
Proof.
  intros Hp Hl. unfold link_pred_loss.
  step holds s1 t t' Ht.
  { now apply refines_new1. }
  now apply refines_new2.
Qed.

Lemma model_holds_allocated s (h : AIM_LightGCN loc) (v : AIM_LightGCN Tensor) :
  model_holds s h v -> allocated s h.
Proof.
  intros (_ & Ha & He & Hb). unfold holds, lookup in *.
  repeat split; apply nth_error_Some; congruence.
Qed.

Lemma extends_length (s s' : Store) :
  extends s s' -> (length (cells s) <= length (cells s'))%nat.
Proof. intros [[new Hc] _]. rewrite Hc, length_app. lia. Qed.

Lemma rn_alloc (t : Tensor) : returns_new (alloc t).
Proof. intros s l s' H. injection H as <- _. lia. Qed.

Lemma rn_bind {A : Type} (m : HM A) (f : A -> HM loc) :
  allocates_only m -> (forall a, returns_new (f a)) -> returns_new (bind m f).
Proof.
  intros Hm Hf s l s' H. cbn [bind HM_monad] in H.
  pose proof (Hm s) as Hext. apply extends_length in Hext.
  destruct (m s) as [[a|e] s1]; [|discriminate].
  apply Hf in H. cbn [snd] in Hext. lia.
Qed.

Lemma rn_new1 (f : Tensor -> Exc Tensor) (x : loc) : returns_new (new1 f x).
Proof.
  cbn [new1 by_reference]. apply rn_bind; [apply ao_read | intros t].
  apply rn_bind; [apply ao_liftE | intros v]. apply rn_alloc.
Qed.

Lemma rn_new2 (f : Tensor -> Tensor -> Exc Tensor) (x y : loc) :
  returns_new (new2 f x y).
Proof.
  cbn [new2 by_reference]. apply rn_bind; [apply ao_read | intros t].
  apply rn_bind; [apply ao_read | intros u].
  apply rn_bind; [apply ao_liftE | intros v]. apply rn_alloc.
Qed.

Lemma rn_BPRLoss_forward (lambda_reg : R) (p n : loc) (params : option loc) :
  returns_new (BPRLoss_forward lambda_reg p n params).
Proof.
  unfold BPRLoss_forward.
  apply rn_bind; [repeat ao_step | intros diff].
  apply rn_bind; [repeat ao_step | intros ls].
  apply rn_bind; [repeat ao_step | intros lp].
  apply rn_bind; [repeat ao_step | intros r].
  apply rn_bind; [repeat ao_step | intros nl].
  destruct r; [apply rn_new2 | apply rn_new1].
Qed.

Lemma rn_recommendation_loss (self : AIM_LightGCN loc) (p n : loc) node_id lambda_reg :
  returns_new (recommendation_loss self p n node_id lambda_reg).
Proof.
  unfold recommendation_loss.
  apply rn_bind; [repeat ao_step | intros emb]. apply rn_BPRLoss_forward.
Qed.

Lemma rn_link_pred_loss (self : AIM_LightGCN loc) (pred label : loc) :
  returns_new (link_pred_loss self pred label).
Proof.
  unfold link_pred_loss.
  apply rn_bind; [apply ao_new1 | intros t]. apply rn_new2.
Qed.

Lemma alloc_run (t : Tensor) (s : Store) (l : loc) (s' : Store) :
  alloc t s = (Ok l, s') ->
  l = length (cells s) /\ length (cells s') = S l.
Proof.
  unfold alloc. intros H. injection H as <- <-. cbn [cells].
  rewrite length_app. simpl. lia.
Qed.

Lemma new1_run (f : Tensor -> Exc Tensor) (x : loc) (s : Store) (l : loc) (s' : Store) :
  new1 f x s = (Ok l, s') ->
  l = length (cells s) /\ length (cells s') = S l.
Proof.
  cbn [new1 by_reference bind HM_monad]. unfold read.
  destruct (nth_error (cells s) x) as [t|]; [|discriminate].
  destruct (f t) as [v|e]; cbn [liftE ret raise HM_monad]; [|discriminate].
  apply alloc_run.
Qed.

Lemma new2_run (f : Tensor -> Tensor -> Exc Tensor) (x y : loc)
  (s : Store) (l : loc) (s' : Store) :
  new2 f x y s = (Ok l, s') ->
  l = length (cells s) /\ length (cells s') = S l.
Proof.
  cbn [new2 by_reference bind HM_monad]. unfold read.
  destruct (nth_error (cells s) x) as [t|]; [|discriminate].
  destruct (nth_error (cells s) y) as [u|]; [|discriminate].
  destruct (f t u) as [v|e]; cbn [liftE ret raise HM_monad]; [|discriminate].
  apply alloc_run.
Qed.

Lemma rnp_bind {A : Type} (m : HM A) (f : A -> HM (loc * loc)) :
  allocates_only m -> (forall a, returns_new_pair (f a)) ->
  returns_new_pair (bind m f).
Proof.
  intros Hm Hf s p q s' H. cbn [bind HM_monad] in H.
  pose proof (Hm s) as Hext. apply extends_length in Hext.
  destruct (m s) as [[a|e] s1]; [|discriminate].
  apply Hf in H. cbn [snd] in Hext. lia.
Qed.

(** The last statements of [forward]: the two sums are two allocations,
    one after the other. *)
Lemma rnp_two_sums (f g h : Tensor -> Tensor -> Exc Tensor)
  (k : Tensor -> Exc Tensor) (a b c d : loc) :
  returns_new_pair
    (p <- new2 f a b ;; x <- new1 k c ;; q <- new2 h d x ;; ret (p, q)).
Proof.
  intros s p q s' H. cbn [bind HM_monad] in H.
  destruct (new2 (M := HM) f a b s) as [[p0|e] s1] eqn:E1; [|discriminate].
  destruct (new1 (M := HM) k c s1) as [[x|e] s2] eqn:E2; [|discriminate].
  destruct (new2 (M := HM) h d x s2) as [[q0|e] s3] eqn:E3; [|discriminate].
  cbn [ret HM_monad] in H. injection H as <- <- <-.
  apply new2_run in E1. apply new1_run in E2. apply new2_run in E3. lia.
Qed.

Lemma rnp_forward (LGConv : LGConv_t) (self : AIM_LightGCN loc) g eli nu ni sf w :
  returns_new_pair (forward LGConv self g eli nu ni sf w).
Proof.
  unfold forward.
  apply rnp_bind; [repeat ao_step | intros lbl].
  apply rnp_bind; [apply ao_get_embedding | intros out].
  apply rnp_bind; [repeat ao_step | intros i0].
  apply rnp_bind; [repeat ao_step | intros out_src].
  apply rnp_bind; [repeat ao_step | intros i1].
  apply rnp_bind; [repeat ao_step | intros out_dst].
  apply rnp_bind; [repeat ao_step | intros sd].
  apply rnp_bind; [repeat ao_step | intros pn].
  apply rnp_bind; [repeat ao_step | intros [pr nr]].
  apply rnp_bind; [repeat ao_step | intros i1'].
  apply rnp_bind; [repeat ao_step | intros [pi ni']].
  apply rnp_bind; [repeat ao_step | intros bp].
  apply (rnp_two_sums Torch.add Torch.add Torch.add).
Qed.

End OtherMethodsFacts.

(** X28.  [forward] by reference computes what it computes by value: on a
    store that holds the tensors of a model, it returns the locations of
    two tensors that did not exist before the call and differ from one
    another, the two ranks of the by-value run, or raises the exception of
    the by-value run; in both cases the tensors of the model are what they
    were. *)
Theorem forward_by_reference_computes_the_ranks
  (LGConv : LGConv_t) (s : Store)
  (h : AIM_LightGCN loc) (v : AIM_LightGCN Tensor)
  (g : Adj) (eli : option Long2) (nu ni : option Z) (sf : option R)
  (w : option Tensor) :
  model_holds s h v ->
  (forall P Q, forward LGConv v g eli nu ni sf w = Ok (P, Q) ->
     exists p q s',
       forward LGConv h g eli nu ni sf w s = (Ok (p, q), s') /\
       lookup s' p = Some P /\ lookup s' q = Some Q /\
       (length (cells s) <= p)%nat /\ (length (cells s) <= q)%nat /\ p <> q /\
       model_state s' h = model_state s h) /\
  (forall e, forward LGConv v g eli nu ni sf w = Raise e ->
     exists s',
       forward LGConv h g eli nu ni sf w s = (Raise e, s') /\
       model_state s' h = model_state s h).
Proof.
  intros Hm.
  pose proof (Refinement.forward_refines LGConv s h v g eli nu ni sf w Hm) as Href.
  pose proof (OtherMethodsFacts.model_holds_allocated s h v Hm) as Hall.
  unfold refines in Href. split.
  - intros P Q Hv. rewrite Hv in Href.
    destruct Href as ([p q] & s' & Hrun & Hext & Hp & Hq).
    destruct (OtherMethodsFacts.rnp_forward LGConv h g eli nu ni sf w
                s p q s' Hrun) as [Hnew Hpq].
    exists p, q, s'. split; [exact Hrun|].
    split; [exact Hp|]. split; [exact Hq|].
    split; [exact Hnew|]. split; [lia|]. split; [lia|].
    now apply HeapFacts.extends_model_state.
  - intros e Hv. rewrite Hv in Href.
    destruct Href as (s' & Hrun & Hext).
    exists s'. split; [exact Hrun|].
    now apply HeapFacts.extends_model_state.
Qed.

Lemma forward_by_reference_computes_the_ranks_witness :
  exists P Q p q s',
    forward Propagation.propagate Demo.model Demo.graph (Some Demo.labels)
      (Some 2%Z) (Some 2%Z) (Some 1%R) None = Ok (P, Q) /\
    forward Propagation.propagate DemoRef.model Demo.graph (Some Demo.labels)
      (Some 2%Z) (Some 2%Z) (Some 1%R) None DemoRef.store = (Ok (p, q), s') /\
    lookup s' p = Some P /\ lookup s' q = Some Q /\
    (length (cells DemoRef.store) <= p)%nat /\
    (length (cells DemoRef.store) <= q)%nat /\ p <> q /\
    model_state s' DemoRef.model = model_state DemoRef.store DemoRef.model.
Proof.
  assert (Hm : model_holds DemoRef.store DemoRef.model Demo.model)
    by (unfold model_holds, holds; repeat split).
  destruct (forward Propagation.propagate Demo.model Demo.graph (Some Demo.labels)
              (Some 2%Z) (Some 2%Z) (Some 1%R) None) as [[P Q]|e] eqn:Hv.
  - destruct (forward_by_reference_computes_the_ranks Propagation.propagate
                DemoRef.store DemoRef.model Demo.model Demo.graph
                (Some Demo.labels) (Some 2%Z) (Some 2%Z) (Some 1%R) None Hm)
      as [Hok _].
    destruct (Hok P Q Hv) as (p & q & s' & Hrun & Hp & Hq & Hnp & Hnq & Hpq & Hst).
    exists P, Q, p, q, s'. split; [reflexivity|].
    split; [exact Hrun|]. split; [exact Hp|]. split; [exact Hq|].
    split; [exact Hnp|]. split; [exact Hnq|]. split; [exact Hpq | exact Hst].
  - exfalso. revert Hv. tensor_compute. discriminate.
Defined.

(** X29.  The two losses by reference compute what they compute by value:
    on a store that holds the tensors of a model and of the arguments,
    [recommendation_loss] and [link_pred_loss] return the location of a
    new tensor that is the by-value loss, or raise the exception of the
    by-value run. *)
Theorem losses_by_reference_compute_the_loss
  (s : Store) (h : AIM_LightGCN loc) (v : AIM_LightGCN Tensor)
  (p n : loc) (p' n' : Tensor) (node_id : option Long1) (lambda_reg : R) :
  model_holds s h v -> lookup s p = Some p' -> lookup s n = Some n' ->
  match recommendation_loss v p' n' node_id lambda_reg with
  | Ok t => exists l s',
      recommendation_loss h p n node_id lambda_reg s = (Ok l, s') /\
      lookup s' l = Some t /\ (length (cells s) <= l)%nat
  | Raise e => exists s',
      recommendation_loss h p n node_id lambda_reg s = (Raise e, s')
  end /\
  match link_pred_loss v p' n' with
  | Ok t => exists l s',
      link_pred_loss h p n s = (Ok l, s') /\
      lookup s' l = Some t /\ (length (cells s) <= l)%nat
  | Raise e => exists s', link_pred_loss h p n s = (Raise e, s')
  end.
Proof.
  intros Hm Hp Hn.
  assert (Hfresh : forall (m : HM loc) (r : Exc Tensor),
            refines holds s m r -> returns_new m ->
            match r with
            | Ok t => exists l s', m s = (Ok l, s') /\ lookup s' l = Some t /\
                                   (length (cells s) <= l)%nat
            | Raise e => exists s', m s = (Raise e, s')
            end).
  { intros m r Href Hnew. unfold refines in Href. destruct r as [t|e].
    - destruct Href as (l & s' & Hrun & _ & Hl).
      exists l, s'. split; [exact Hrun|]. split; [exact Hl|].
      exact (Hnew s l s' Hrun).
    - destruct Href as (s' & Hrun & _). now exists s'. }
  split.
  - apply Hfresh.
    + now apply Refinement.recommendation_loss_refines.
    + apply OtherMethodsFacts.rn_recommendation_loss.
  - apply Hfresh.
    + now apply OtherMethodsFacts.link_pred_loss_refines.
    + apply OtherMethodsFacts.rn_link_pred_loss.
Qed.

Lemma losses_by_reference_compute_the_loss_witness :
  exists t l s',
    recommendation_loss Demo.model (T1 [2; 1]%R) (T1 [0; 0]%R) None 0 = Ok t /\
    recommendation_loss DemoRef.model 3%nat 4%nat None 0 DemoRef.store
    = (Ok l, s') /\
    lookup s' l = Some t /\ (length (cells DemoRef.store) <= l)%nat.
Proof.
  assert (Hm : model_holds DemoRef.store DemoRef.model Demo.model)
    by (unfold model_holds, holds; repeat split).
  destruct (losses_by_reference_compute_the_loss DemoRef.store DemoRef.model
              Demo.model 3%nat 4%nat (T1 [2; 1]%R) (T1 [0; 0]%R) None 0%R
              Hm eq_refl eq_refl) as [H _].
  destruct (recommendation_loss Demo.model (T1 [2; 1]%R) (T1 [0; 0]%R) None 0)
    as [t|e] eqn:Hv.
  - destruct H as (l & s' & Hrun & Hl & Hnew).
    exists t, l, s'. split; [reflexivity|]. split; [exact Hrun|].
    split; [exact Hl | exact Hnew].
  - exfalso. revert Hv. unfold recommendation_loss. by_value.
    rewrite (LossFacts.BPRLoss_forward_value 0 [2; 1]%R [0; 0]%R _ eq_refl).
    destruct (Req_dec_T 0 0); [discriminate | lra].
Defined.

(** X30.  [recommend], [predict_link], [link_pred_loss] and
    [BPRLoss.forward] only allocate new tensors: whatever their arguments
    and whether they return or raise, the embedding table, the bias table
    and the alpha vector of the model are what they were. *)
Theorem other_methods_leave_the_model_unchanged
  (LGConv : LGConv_t) (self : AIM_LightGCN loc) (s : Store)
  (g : Adj) (w : option Tensor) (eli : option Long2)
  (src dst : option Long1) (k : nat) (sorted prob : bool)
  (p n : loc) (params : option loc) (lambda_reg : R) :
  allocated s self ->
  let s1 := snd (recommend LGConv self g w src dst k sorted s) in
  let s2 := snd (predict_link LGConv self g eli w prob s) in
  let s3 := snd (link_pred_loss self p n s) in
  let s4 := snd (BPRLoss_forward lambda_reg p n params s) in
  (extends s s1 /\ model_state s1 self = model_state s self) /\
  (extends s s2 /\ model_state s2 self = model_state s self) /\
  (extends s s3 /\ model_state s3 self = model_state s self) /\
  (extends s s4 /\ model_state s4 self = model_state s self).
Proof.
  intros Hall s1 s2 s3 s4.
  assert (H1 : extends s s1) by apply HeapFacts.ao_recommend.
  assert (H2 : extends s s2) by apply OtherMethodsFacts.ao_predict_link.
  assert (H3 : extends s s3) by apply OtherMethodsFacts.ao_link_pred_loss.
  assert (H4 : extends s s4) by apply HeapFacts.ao_BPRLoss_forward.
  split; [|split; [|split]]; (split; [assumption|]);
    now apply HeapFacts.extends_model_state.
Qed.

Lemma other_methods_leave_the_model_unchanged_witness :
  allocated DemoRef.store DemoRef.model /\
  model_state
    (snd (recommend Propagation.propagate DemoRef.model Demo.graph None
            None None 1 true DemoRef.store)) DemoRef.model
  = model_state DemoRef.store DemoRef.model /\
  model_state
    (snd (link_pred_loss DemoRef.model 3%nat 4%nat DemoRef.store)) DemoRef.model
  = model_state DemoRef.store DemoRef.model.
Proof.
  assert (Hall : allocated DemoRef.store DemoRef.model)
    by (unfold allocated; simpl; lia).
  split; [exact Hall|].
  destruct (other_methods_leave_the_model_unchanged Propagation.propagate
              DemoRef.model DemoRef.store Demo.graph None None None None 1
              true false 3%nat 4%nat None 0%R Hall)
    as ((_ & H1) & _ & (_ & H3) & _).
  split; [exact H1 | exact H3].
Defined.
